(** * Knuth-Morris-Pratt search with an animation trace

    A shallow embedding of [course_work/main.go]: the failure-table builder
    [buildFailureFunction] and the instrumented scan [searchKMP], followed by
    their verification.

    Conventions of the embedding.
    - A Go [string] is its sequence of bytes.  The two entry points take a
      [string]; the loops index the byte list obtained from it.
    - A Go [int] is modelled as [Z].  Every integer the program computes lies
      between [-1] and [2 * len(text)] (the cursors by [scan_inv], the
      comparison counter by [searchKMP_counter_bound] below), far from the
      64-bit range for any string that fits in memory, so the arithmetic is
      written without wrap-around.
    - Indexing a string or a slice out of range panics in Go; the embedding
      makes that explicit with the outcome [Panic].
    - The two [for cond { ... }] loops whose termination is not evident from
      their header are run on a fuel counter; the outcome [OutOfFuel] says the
      counter was exhausted.  The two counted loops ([for i := 1; i < m; i++]
      and [for k := i - m; k < i; k++]) iterate over the list of the values
      their counter takes.
    - A [nil] slice and an empty slice are both the empty list.
    - Slices are values in this first model.  To state what two calls share,
      the program is written a second time on an explicit heap
      ([searchKMP_heap]), where a slice is the address of its backing array
      and element writes happen in place; [searchKMP_heap_run] shows that
      it computes the values of the first model. *)

From Stdlib Require Import ZArith Lia String Ascii DecimalString.
From stdpp Require Import base tactics option list list_numbers numbers strings gmap.

Local Open Scope Z_scope.

(** ** Outcomes: a small error monad *)

Inductive outcome (A : Type) : Type :=
| Done (a : A)
| Panic
| OutOfFuel.
Arguments Done {A} a.
Arguments Panic {A}.
Arguments OutOfFuel {A}.

#[global] Instance outcome_ret : MRet outcome := λ A a, Done a.
#[global] Instance outcome_bind : MBind outcome := λ A B k c,
  match c with
  | Done a => k a
  | Panic => Panic
  | OutOfFuel => OutOfFuel
  end.

(** ** Slices and strings *)

(** [len(l)] *)
Definition len {A : Type} (l : list A) : Z := Z.of_nat (length l).

(** The element at index [i], if [i] is in range. *)
Definition get {A : Type} (l : list A) (i : Z) : option A :=
  if i <? 0 then None else l !! Z.to_nat i.

(** [l[i]] as an expression: panics out of range. *)
Definition index {A : Type} (l : list A) (i : Z) : outcome A :=
  match get l i with
  | Some x => Done x
  | None => Panic
  end.

(** [l[i] = x] as a statement: panics out of range. *)
Definition assign {A : Type} (l : list A) (i : Z) (x : A) : outcome (list A) :=
  if (0 <=? i) && (i <? len l) then Done (<[Z.to_nat i := x]> l) else Panic.

(** [make([]int, n)] *)
Definition make (n : Z) : list Z := replicate (Z.to_nat n) 0.

(** [copy(dst, src)]: overwrites the first [min(len(dst), len(src))]
    elements of [dst]. *)
Definition copy {A : Type} (dst src : list A) : list A :=
  take (length dst) src ++ drop (length src) dst.

(** The bytes of a Go string. *)
Definition bytes (s : string) : list ascii := list_ascii_of_string s.

(** A counted loop [for k := lo; k < hi; k++ { body }], given the list of
    the values of [k]. *)
Fixpoint for_range {S : Type} (ks : list Z) (body : Z → S → outcome S) (s : S)
  : outcome S :=
  match ks with
  | [] => Done s
  | k :: ks' => s' ← body k s; for_range ks' body s'
  end.

(** ** Formatting *)

(** [%d] of an [int]. *)
Definition fmt_d (z : Z) : string := NilZero.string_of_int (Z.to_int z).

(** [%c] of a byte: the UTF-8 encoding of the code point of that value. *)
Definition fmt_c (b : ascii) : string :=
  let v := nat_of_ascii b in
  if (v <? 128)%nat then String b EmptyString
  else String (ascii_of_nat (192 + v / 64))
         (String (ascii_of_nat (128 + v mod 64)) EmptyString).

(** ** Records *)

Module Step.
Record Step : Type := mk {
  TextIndex : Z;
  PatternIndex : Z;
  Match : bool;
  Shift : bool;
  Status : string;
  FailureValue : Z;
  Comparisons : Z;
  PrefixFunction : list Z;
  HighlightPrefixIndex : Z
}.

Definition with_Status (v : string) (s : Step) : Step :=
  mk (TextIndex s) (PatternIndex s) (Match s) (Shift s) v (FailureValue s)
     (Comparisons s) (PrefixFunction s) (HighlightPrefixIndex s).
Definition with_FailureValue (v : Z) (s : Step) : Step :=
  mk (TextIndex s) (PatternIndex s) (Match s) (Shift s) (Status s) v
     (Comparisons s) (PrefixFunction s) (HighlightPrefixIndex s).
Definition with_PrefixFunction (v : list Z) (s : Step) : Step :=
  mk (TextIndex s) (PatternIndex s) (Match s) (Shift s) (Status s)
     (FailureValue s) (Comparisons s) v (HighlightPrefixIndex s).
Definition with_HighlightPrefixIndex (v : Z) (s : Step) : Step :=
  mk (TextIndex s) (PatternIndex s) (Match s) (Shift s) (Status s)
     (FailureValue s) (Comparisons s) (PrefixFunction s) v.
End Step.
Abbreviation Step := Step.Step.

Module KMPResult.
Record KMPResult : Type := mk {
  FailureFunction : list Z;
  Steps : list Step;
  Found : bool;
  Positions : list Z;
  Comparisons : Z;
  Error : string
}.
End KMPResult.
Abbreviation KMPResult := KMPResult.KMPResult.

(** ** buildFailureFunction *)

(** The inner loop [for j > 0 && pattern[i] != pattern[j] { j = failure[j-1] }];
    it returns the final [j]. *)
Fixpoint fallback (fuel : nat) (pattern : list ascii) (failure : list Z)
    (i j : Z) : outcome Z :=
  match fuel with
  | O => OutOfFuel
  | S fuel' =>
      if j >? 0 then
        pi ← index pattern i;
        pj ← index pattern j;
        if negb (Ascii.eqb pi pj) then
          j' ← index failure (j - 1);
          fallback fuel' pattern failure i j'
        else Done j
      else Done j
  end.

(** The body of [for i := 1; i < m; i++]; the state is [(j, failure)]. *)
Definition failure_body (fuel : nat) (pattern : list ascii) (i : Z)
    (s : Z * list Z) : outcome (Z * list Z) :=
  let '(j, failure) := s in
  pi ← index pattern i;
  pj ← index pattern j;
  if Ascii.eqb pi pj then
    let j := j + 1 in
    failure ← assign failure i j;
    Done (j, failure)
  else
    j ← fallback fuel pattern failure i j;
    pi ← index pattern i;
    pj ← index pattern j;
    let j := if Ascii.eqb pi pj then j + 1 else j in
    failure ← assign failure i j;
    Done (j, failure).

Definition failure_table (fuel : nat) (pattern : list ascii) : outcome (list Z) :=
  let m := len pattern in
  let failure := make m in
  failure ← assign failure 0 0;
  let j := 0 in
  '(_, failure) ← for_range (seqZ 1 (m - 1)) (failure_body fuel pattern) (j, failure);
  Done failure.

Definition buildFailureFunction (fuel : nat) (pattern : string) : outcome (list Z) :=
  failure_table fuel (bytes pattern).

(** ** searchKMP *)

(** The variables of the scan loop. *)
Record ScanState : Type := mkScan {
  i_ : Z;
  j_ : Z;
  comparisons_ : Z;
  maxPrefix_ : list Z;
  positions_ : list Z;
  steps_ : list Step
}.

(** The body of [for k := i - m; k < i; k++] after a full match. *)
Definition relabel_body (n i m : Z) (k : Z) (maxPrefix : list Z) : outcome (list Z) :=
  if (k >=? 0) && (k <? n) then assign maxPrefix k (k - (i - m) + 1)
  else Done maxPrefix.

(** One iteration of [for i < n { ... }]. *)
Definition scan_iteration (text pattern : list ascii) (failure : list Z)
    (st : ScanState) : outcome ScanState :=
  let n := len text in
  let m := len pattern in
  let '(mkScan i j comparisons maxPrefix positions steps) := st in
  let comparisons := comparisons + 1 in
  ti ← index text i;
  pj ← index pattern j;
  let match_ := Ascii.eqb ti pj in
  let step := Step.mk i j match_ false "" 0 comparisons (make n) 0 in
  let step := Step.with_PrefixFunction (copy (Step.PrefixFunction step) maxPrefix) step in
  let step := Step.with_HighlightPrefixIndex i step in
  if match_ then
    old ← index maxPrefix i;
    maxPrefix ← (if j + 1 >? old then assign maxPrefix i (j + 1) else Done maxPrefix);
    cur ← index maxPrefix i;
    pf ← assign (Step.PrefixFunction step) i cur;
    let step := Step.with_PrefixFunction pf step in
    let step := Step.with_Status
      ("Comparing text[" +:+ fmt_d i +:+ "]='" +:+ fmt_c ti +:+ "' with pattern["
         +:+ fmt_d j +:+ "]='" +:+ fmt_c pj +:+ "': match found. Advancing to text["
         +:+ fmt_d (i + 1) +:+ "] and pattern[" +:+ fmt_d (j + 1) +:+ "].") step in
    let steps := steps ++ [step] in
    let i := i + 1 in
    let j := j + 1 in
    if j =? m then
      let positions := positions ++ [i - j] in
      maxPrefix ← for_range (seqZ (i - m) (i - (i - m))) (relabel_body n i m) maxPrefix;
      fv ← index failure (j - 1);
      let step := Step.mk (i - 1) (j - 1) true true
        ("Full pattern match found at text index " +:+ fmt_d (i - j)
           +:+ "! Using failure function value " +:+ fmt_d fv
           +:+ " to shift pattern to pattern[" +:+ fmt_d fv +:+ "].")
        fv comparisons (make n) (-1) in
      let step := Step.with_PrefixFunction (copy (Step.PrefixFunction step) maxPrefix) step in
      let steps := steps ++ [step] in
      let j := fv in
      Done (mkScan i j comparisons maxPrefix positions steps)
    else Done (mkScan i j comparisons maxPrefix positions steps)
  else if j >? 0 then
    fv ← index failure (j - 1);
    let step := Step.with_Status
      ("Mismatch at text[" +:+ fmt_d i +:+ "]='" +:+ fmt_c ti +:+ "' and pattern["
         +:+ fmt_d j +:+ "]='" +:+ fmt_c pj +:+ "'. Using failure function value "
         +:+ fmt_d fv +:+ " to shift pattern to pattern[" +:+ fmt_d fv +:+ "].") step in
    let step := Step.with_FailureValue fv step in
    let step := Step.with_HighlightPrefixIndex i step in
    let steps := steps ++ [step] in
    let j := fv in
    let step := Step.mk i j false true
      ("Pattern shifted to align at pattern[" +:+ fmt_d j +:+ "] with text["
         +:+ fmt_d i +:+ "]='" +:+ fmt_c ti +:+ "' based on failure function.")
      0 comparisons (make n) i in
    let step := Step.with_PrefixFunction (copy (Step.PrefixFunction step) maxPrefix) step in
    let steps := steps ++ [step] in
    Done (mkScan i j comparisons maxPrefix positions steps)
  else
    p0 ← index pattern 0;
    let step := Step.with_Status
      ("Mismatch at text[" +:+ fmt_d i +:+ "]='" +:+ fmt_c ti +:+ "' and pattern[0]='"
         +:+ fmt_c p0 +:+ "'. No prefix to use, advancing to text["
         +:+ fmt_d (i + 1) +:+ "].") step in
    let step := Step.with_HighlightPrefixIndex i step in
    let steps := steps ++ [step] in
    let i := i + 1 in
    Done (mkScan i j comparisons maxPrefix positions steps).

(** The loop [for i < n { ... }]. *)
Fixpoint scan_loop (fuel : nat) (text pattern : list ascii) (failure : list Z)
    (st : ScanState) : outcome ScanState :=
  match fuel with
  | O => OutOfFuel
  | S fuel' =>
      if i_ st <? len text then
        st' ← scan_iteration text pattern failure st;
        scan_loop fuel' text pattern failure st'
      else Done st
  end.

(** The variables on entry to the loop. *)
Definition scan_init (n : Z) : ScanState := mkScan 0 0 0 (make n) [] [].

Definition searchKMP (fuel : nat) (text pattern : string) : outcome KMPResult :=
  if String.eqb pattern "" then
    Done (KMPResult.mk [] [] false [] 0 "Pattern cannot be empty")
  else if String.eqb text "" then
    Done (KMPResult.mk [] [] false [] 0 "Text cannot be empty")
  else
    failure ← buildFailureFunction fuel pattern;
    let n := len (bytes text) in
    st ← scan_loop fuel (bytes text) (bytes pattern) failure (scan_init n);
    Done (KMPResult.mk failure (steps_ st) (len (positions_ st) >? 0)
            (positions_ st) (comparisons_ st) "").

(** ** Specification vocabulary *)

(** [text[s .. s+len(pattern)-1] == pattern] *)
Definition occurs (text pattern : list ascii) (s : Z) : Prop :=
  0 ≤ s ∧ take (length pattern) (drop (Z.to_nat s) text) = pattern.

#[global] Instance occurs_dec text pattern s : Decision (occurs text pattern s) :=
  and_dec _ _.

(** The brute-force scan: try every start [s] with [s + m <= n], in order. *)
Definition brute_force (text pattern : list ascii) : list Z :=
  filter (occurs text pattern) (seqZ 0 (len text - len pattern + 1)).

(** [k] is the length of a proper prefix of [w] that is also a suffix of [w]. *)
Definition border (w : list ascii) (k : Z) : Prop :=
  0 ≤ k < len w ∧ take (Z.to_nat k) w = drop (length w - Z.to_nat k) w.

(** [k] is the length of the longest such prefix. *)
Definition longest_border (w : list ascii) (k : Z) : Prop :=
  border w k ∧ ∀ z, border w z → z ≤ k.

(** The first [k] bytes of [p] are the [k] bytes of [a] that end just before
    position [e]. *)
Definition ends_with (a p : list ascii) (e k : Z) : Prop :=
  0 ≤ k ≤ e ∧ e ≤ len a ∧ k ≤ len p ∧
  ∀ x, 0 ≤ x < k → get a (e - k + x) = get p x.

(** [k] is the longest proper border of the first [e] bytes of [p], stated
    on indices. *)
Definition next_of (p : list ascii) (e k : Z) : Prop :=
  0 ≤ k < e ∧ ends_with p p e k ∧ ∀ z, k < z < e → ¬ ends_with p p e z.

(** Entries [0 .. upto-1] of the table are right. *)
Definition table_ok (p : list ascii) (failure : list Z) (upto : Z) : Prop :=
  len failure = len p ∧
  ∀ q, 0 ≤ q < upto → ∃ f, get failure q = Some f ∧ next_of p (q + 1) f.

(** ** Invariants and auxiliary notions *)

(** The occurrences that start before [b], in increasing order. *)
Definition found_before (t p : list ascii) (b : Z) : list Z :=
  filter (occurs t p) (seqZ 0 b).

(** A list of counters never goes down. *)
Definition nondecreasing (l : list Z) : Prop :=
  ∀ (a b : nat) x y, (a ≤ b)%nat → l !! a = Some x → l !! b = Some y → x ≤ y.

(** What the fallback loop keeps true: [j] is a border of the first [i]
    bytes of [p] and no longer border can be extended by [p[i]]. *)
Definition candidate (p : list ascii) (i j : Z) : Prop :=
  0 ≤ j < i ∧ ends_with p p i j ∧
  ∀ z, j < z < i → ends_with p p i z → get p z ≠ get p i.

(** The snapshot after the comparison at [i] matched. *)
Definition grown (mp : list Z) (i j : Z) : list Z :=
  match get mp i with
  | Some old => if j + 1 >? old then <[Z.to_nat i := j + 1]> mp else mp
  | None => mp
  end.

(** The states the loop [for i < n] passes through, at the loop test. *)
Inductive reachable (t p : list ascii) (failure : list Z) : ScanState → Prop :=
| reach_init : reachable t p failure (scan_init (len t))
| reach_step st st' :
    reachable t p failure st → i_ st < len t →
    scan_iteration t p failure st = Done st' →
    reachable t p failure st'.

(** The lexicographic descent of [(len(text) - i, j)]. *)
Definition descends (st st' : ScanState) : Prop :=
  i_ st' = i_ st + 1 ∨ (i_ st' = i_ st ∧ 0 ≤ j_ st' < j_ st).

(** What holds of an emitted step when the counter is [c]. *)
Definition step_ok (t p : list ascii) (c : Z) (s : Step) : Prop :=
  0 ≤ Step.TextIndex s < len t ∧ 0 ≤ Step.PatternIndex s < len p ∧
  Step.Comparisons s ≤ c ∧ len (Step.PrefixFunction s) = len t.

Definition trace_ok (t p : list ascii) (c : Z) (steps : list Step) : Prop :=
  Forall (step_ok t p c) steps ∧
  nondecreasing (Step.Comparisons <$> steps) ∧
  from_option Step.Comparisons 0 (last steps) = c.

(** The invariant of the scan loop, at the loop test. *)
Record scan_inv (t p : list ascii) (st : ScanState) : Prop := mk_scan_inv {
  inv_j : 0 ≤ j_ st < len p;
  inv_i : j_ st ≤ i_ st ≤ len t;
  inv_match : ends_with t p (i_ st) (j_ st);
  inv_maxPrefix : len (maxPrefix_ st) = len t;
  inv_positions : positions_ st = found_before t p (i_ st - j_ st);
  inv_comparisons : 0 ≤ comparisons_ st ≤ 2 * i_ st - j_ st;
  inv_trace : trace_ok t p (comparisons_ st) (steps_ st);
  inv_nonempty : 0 < i_ st → steps_ st ≠ []
}.

(** [r'] is [r] unless [r] ran out of fuel. *)
Definition refines {A} (r r' : outcome A) : Prop := r = OutOfFuel ∨ r = r'.

(** Fuel that is always enough: the scan makes at most [2 * len(text)]
    iterations and a fallback loop fewer than [len(pattern)]. *)
Definition fuel_bound (text pattern : string) : nat :=
  Z.to_nat (2 * len (bytes text) + len (bytes pattern) + 1).

(** The state of the scan after [k] iterations, for concrete runs. *)
Definition after_iterations (k : nat) (text pattern : string) (failure : list Z)
  : ScanState :=
  Nat.iter k (λ st, match scan_iteration (bytes text) (bytes pattern) failure st with
                    | Done st' => st'
                    | _ => st
                    end) (scan_init (len (bytes text))).

(** ** Notions for the trace *)

(** A step that records a comparison (the first step of an iteration). *)
Definition is_compare (s : Step) : Prop := Step.Shift s = false.

(** The step that marks a full match. *)
Definition is_full_match (s : Step) : Prop :=
  Step.Match s = true ∧ Step.Shift s = true.

#[global] Instance is_compare_dec s : Decision (is_compare s) :=
  decide (Step.Shift s = false).

#[global] Instance is_full_match_dec s : Decision (is_full_match s) :=
  and_dec _ _.

(** A list of positions goes strictly up. *)
Definition increasing (l : list Z) : Prop :=
  ∀ (a b : nat) x y, (a < b)%nat → l !! a = Some x → l !! b = Some y → x < y.

(** The table entry a step consulted: [failure[m-1]] for a full match,
    [failure[j-1]] for a mismatch with [j > 0], none (0) otherwise. *)
Definition consulted (failure : list Z) (s : Step) : option Z :=
  if Step.Match s then
    if Step.Shift s then get failure (Step.PatternIndex s) else Some 0
  else if Step.Shift s then Some 0
  else if 0 <? Step.PatternIndex s then get failure (Step.PatternIndex s - 1)
  else Some 0.

(** The narration of a step, rebuilt from its other fields and the inputs. *)
Definition narrate (t p : list ascii) (s : Step) : option string :=
  let i := Step.TextIndex s in
  let j := Step.PatternIndex s in
  let fv := Step.FailureValue s in
  ti ← get t i;
  if Step.Match s then
    if Step.Shift s then
      Some ("Full pattern match found at text index " +:+ fmt_d (i - j)
              +:+ "! Using failure function value " +:+ fmt_d fv
              +:+ " to shift pattern to pattern[" +:+ fmt_d fv +:+ "].")
    else
      pj ← get p j;
      Some ("Comparing text[" +:+ fmt_d i +:+ "]='" +:+ fmt_c ti
              +:+ "' with pattern[" +:+ fmt_d j +:+ "]='" +:+ fmt_c pj
              +:+ "': match found. Advancing to text[" +:+ fmt_d (i + 1)
              +:+ "] and pattern[" +:+ fmt_d (j + 1) +:+ "].")
  else if Step.Shift s then
    Some ("Pattern shifted to align at pattern[" +:+ fmt_d j +:+ "] with text["
            +:+ fmt_d i +:+ "]='" +:+ fmt_c ti +:+ "' based on failure function.")
  else
    pj ← get p j;
    if 0 <? j then
      Some ("Mismatch at text[" +:+ fmt_d i +:+ "]='" +:+ fmt_c ti
              +:+ "' and pattern[" +:+ fmt_d j +:+ "]='" +:+ fmt_c pj
              +:+ "'. Using failure function value " +:+ fmt_d fv
              +:+ " to shift pattern to pattern[" +:+ fmt_d fv +:+ "].")
    else
      Some ("Mismatch at text[" +:+ fmt_d i +:+ "]='" +:+ fmt_c ti
              +:+ "' and pattern[0]='" +:+ fmt_c pj
              +:+ "'. No prefix to use, advancing to text[" +:+ fmt_d (i + 1)
              +:+ "].").

(** What every emitted step satisfies. *)
Record step_shape (t p : list ascii) (failure : list Z) (s : Step) : Prop :=
  mk_step_shape {
  sh_comparisons : 1 ≤ Step.Comparisons s;
  sh_highlight :
    Step.HighlightPrefixIndex s =
    if Step.Match s && Step.Shift s then -1 else Step.TextIndex s;
  sh_bounds : Forall (λ v, 0 ≤ v ≤ len p) (Step.PrefixFunction s);
  sh_unvisited :
    ∀ k, Step.TextIndex s < k < len t → get (Step.PrefixFunction s) k = Some 0;
  sh_matched :
    Step.Match s = true →
    get (Step.PrefixFunction s) (Step.TextIndex s) = Some (Step.PatternIndex s + 1);
  sh_failure : consulted failure s = Some (Step.FailureValue s);
  sh_match_true :
    Step.Match s = true → get t (Step.TextIndex s) = get p (Step.PatternIndex s);
  sh_match_false :
    Step.Shift s = false → Step.Match s = false →
    get t (Step.TextIndex s) ≠ get p (Step.PatternIndex s)
}.

(** What the scan keeps true of the steps emitted so far, when the text
    cursor is [i], the counter [c] and the positions found [positions]. *)
Record steps_inv (t p : list ascii) (failure : list Z) (i c : Z)
    (positions : list Z) (steps : list Step) : Prop := mk_steps_inv {
  si_numbered : Step.Comparisons <$> filter is_compare steps = seqZ 1 c;
  si_positions :
    positions =
    (λ s, Step.TextIndex s - Step.PatternIndex s) <$> filter is_full_match steps;
  si_shape : Forall (step_shape t p failure) steps;
  si_text : nondecreasing (Step.TextIndex <$> steps);
  si_text_le : Forall (λ s, Step.TextIndex s ≤ i) steps
}.

(** What the scan keeps true of its trace and its snapshot, at the loop
    test. *)
Record trace_inv (t p : list ascii) (failure : list Z) (st : ScanState) : Prop :=
  mk_trace_inv {
  tr_steps :
    steps_inv t p failure (i_ st) (comparisons_ st) (positions_ st) (steps_ st);
  tr_cursor : i_ st ≤ comparisons_ st;
  tr_length : len (steps_ st) ≤ 2 * comparisons_ st;
  tr_narrated : Forall (λ s, narrate t p s = Some (Step.Status s)) (steps_ st);
  tr_snapshot : Forall (λ v, 0 ≤ v ≤ len p) (maxPrefix_ st);
  tr_unvisited : ∀ k, i_ st ≤ k < len t → get (maxPrefix_ st) k = Some 0
}.

(** The trace as the scan builds it: one comparison step per comparison,
    numbered from 1, each followed by at most one shift step that carries
    the same counter. *)
Inductive counted : Z → list Step → Prop :=
| counted_nil : counted 0 []
| counted_compare c steps s :
    counted c steps → is_compare s → Step.Comparisons s = c + 1 →
    counted (c + 1) (steps ++ [s])
| counted_shift c steps s s' :
    counted c steps → is_compare s → Step.Comparisons s = c + 1 →
    Step.Shift s' = true → Step.Comparisons s' = c + 1 →
    counted (c + 1) (steps ++ [s; s']).

(** ** The same program on an explicit heap

    To speak about state shared between calls the slices made by [make] are
    now placed in a heap: a slice is the address of its backing array, an
    element write changes the array in place, and a step holds the address
    of its snapshot, as the Go [Step] struct holds a slice header.  The
    slices [positions] and [steps] are reached only through the two local
    variables of these names, which are reassigned at every [append]; they
    stay values. *)

(** A computation that reads and writes the heap and may panic. *)
Definition Heaped (A : Type) : Type :=
  gmap nat (list Z) → outcome (A * gmap nat (list Z)).

#[global] Instance Heaped_ret : MRet Heaped := λ A a h, Done (a, h).
#[global] Instance Heaped_bind : MBind Heaped := λ A B k c h,
  match c h with
  | Done (a, h') => k a h'
  | Panic => Panic
  | OutOfFuel => OutOfFuel
  end.

(** An expression that does not touch the heap. *)
Definition lift {A : Type} (c : outcome A) : Heaped A := λ h,
  match c with
  | Done a => Done (a, h)
  | Panic => Panic
  | OutOfFuel => OutOfFuel
  end.

(** [make([]int, n)]: a new backing array at an address not in use. *)
Definition new_slice (n : Z) : Heaped nat := λ h,
  let a := fresh (dom h) in Done (a, <[a := make n]> h).

(** [s[i]] *)
Definition load (s : nat) (i : Z) : Heaped Z := λ h,
  match h !! s with
  | Some l => lift (index l i) h
  | None => Panic
  end.

(** [s[i] = v] *)
Definition store (s : nat) (i : Z) (v : Z) : Heaped unit := λ h,
  match h !! s with
  | Some l =>
      match assign l i v with
      | Done l' => Done (tt, <[s := l']> h)
      | Panic => Panic
      | OutOfFuel => OutOfFuel
      end
  | None => Panic
  end.

(** [copy(dst, src)] *)
Definition copy_slice (dst src : nat) : Heaped unit := λ h,
  match h !! dst, h !! src with
  | Some ld, Some ls => Done (tt, <[dst := copy ld ls]> h)
  | _, _ => Panic
  end.

(** A counted loop whose body works on the heap. *)
Fixpoint for_range_heap {S : Type} (ks : list Z) (body : Z → S → Heaped S)
    (s : S) : Heaped S :=
  match ks with
  | [] => mret s
  | k :: ks' => s' ← body k s; for_range_heap ks' body s'
  end.

(** [Step], with the snapshot slice as the address of its backing array. *)
Module StepRef.
Record StepRef : Type := mk {
  TextIndex : Z;
  PatternIndex : Z;
  Match : bool;
  Shift : bool;
  Status : string;
  FailureValue : Z;
  Comparisons : Z;
  PrefixFunction : nat;
  HighlightPrefixIndex : Z
}.

Definition with_Status (v : string) (s : StepRef) : StepRef :=
  mk (TextIndex s) (PatternIndex s) (Match s) (Shift s) v (FailureValue s)
     (Comparisons s) (PrefixFunction s) (HighlightPrefixIndex s).
Definition with_FailureValue (v : Z) (s : StepRef) : StepRef :=
  mk (TextIndex s) (PatternIndex s) (Match s) (Shift s) (Status s) v
     (Comparisons s) (PrefixFunction s) (HighlightPrefixIndex s).
Definition with_HighlightPrefixIndex (v : Z) (s : StepRef) : StepRef :=
  mk (TextIndex s) (PatternIndex s) (Match s) (Shift s) (Status s)
     (FailureValue s) (Comparisons s) (PrefixFunction s) v.
End StepRef.
Abbreviation StepRef := StepRef.StepRef.

(** [KMPResult]: the table is an address, or [None] for a [nil] slice. *)
Module ResultRef.
Record ResultRef : Type := mk {
  FailureFunction : option nat;
  Steps : list StepRef;
  Found : bool;
  Positions : list Z;
  Comparisons : Z;
  Error : string
}.
End ResultRef.
Abbreviation ResultRef := ResultRef.ResultRef.

(** The inner loop of [buildFailureFunction]; it only reads the table. *)
Fixpoint fallback_heap (fuel : nat) (pattern : list ascii) (failure : nat)
    (i j : Z) : Heaped Z :=
  match fuel with
  | O => λ _, OutOfFuel
  | S fuel' =>
      if j >? 0 then
        pi ← lift (index pattern i);
        pj ← lift (index pattern j);
        if negb (Ascii.eqb pi pj) then
          j' ← load failure (j - 1);
          fallback_heap fuel' pattern failure i j'
        else mret j
      else mret j
  end.

(** The body of [for i := 1; i < m; i++]; the state is [j], the table is
    written in place. *)
Definition failure_body_heap (fuel : nat) (pattern : list ascii) (failure : nat)
    (i : Z) (j : Z) : Heaped Z :=
  pi ← lift (index pattern i);
  pj ← lift (index pattern j);
  if Ascii.eqb pi pj then
    let j := j + 1 in
    _ ← store failure i j;
    mret j
  else
    j ← fallback_heap fuel pattern failure i j;
    pi ← lift (index pattern i);
    pj ← lift (index pattern j);
    let j := if Ascii.eqb pi pj then j + 1 else j in
    _ ← store failure i j;
    mret j.

(** [buildFailureFunction] on the bytes of the pattern: it returns the
    address of the table it made. *)
Definition failure_table_heap (fuel : nat) (pattern : list ascii) : Heaped nat :=
  let m := len pattern in
  failure ← new_slice m;
  _ ← store failure 0 0;
  let j := 0 in
  _ ← for_range_heap (seqZ 1 (m - 1)) (failure_body_heap fuel pattern failure) j;
  mret failure.

Definition buildFailureFunction_heap (fuel : nat) (pattern : string) : Heaped nat :=
  failure_table_heap fuel (bytes pattern).

(** The variables of the scan loop; [maxPrefix] is an address. *)
Record ScanRef : Type := mkScanRef {
  ref_i : Z;
  ref_j : Z;
  ref_comparisons : Z;
  ref_maxPrefix : nat;
  ref_positions : list Z;
  ref_steps : list StepRef
}.

(** The body of [for k := i - m; k < i; k++]: it writes [maxPrefix] in
    place. *)
Definition relabel_body_heap (n i m : Z) (maxPrefix : nat) (k : Z) (_ : unit)
  : Heaped unit :=
  if (k >=? 0) && (k <? n) then store maxPrefix k (k - (i - m) + 1)
  else mret tt.

(** One iteration of [for i < n { ... }]: every step gets a snapshot array
    of its own, made by [make] and filled by [copy]. *)
Definition scan_iteration_heap (text pattern : list ascii) (failure : nat)
    (st : ScanRef) : Heaped ScanRef :=
  let n := len text in
  let m := len pattern in
  let '(mkScanRef i j comparisons maxPrefix positions steps) := st in
  let comparisons := comparisons + 1 in
  ti ← lift (index text i);
  pj ← lift (index pattern j);
  let match_ := Ascii.eqb ti pj in
  pf ← new_slice n;
  let step := StepRef.mk i j match_ false "" 0 comparisons pf 0 in
  _ ← copy_slice (StepRef.PrefixFunction step) maxPrefix;
  let step := StepRef.with_HighlightPrefixIndex i step in
  if match_ then
    old ← load maxPrefix i;
    _ ← (if j + 1 >? old then store maxPrefix i (j + 1) else mret tt);
    cur ← load maxPrefix i;
    _ ← store (StepRef.PrefixFunction step) i cur;
    let step := StepRef.with_Status
      ("Comparing text[" +:+ fmt_d i +:+ "]='" +:+ fmt_c ti +:+ "' with pattern["
         +:+ fmt_d j +:+ "]='" +:+ fmt_c pj +:+ "': match found. Advancing to text["
         +:+ fmt_d (i + 1) +:+ "] and pattern[" +:+ fmt_d (j + 1) +:+ "].") step in
    let steps := steps ++ [step] in
    let i := i + 1 in
    let j := j + 1 in
    if j =? m then
      let positions := positions ++ [i - j] in
      _ ← for_range_heap (seqZ (i - m) (i - (i - m)))
            (relabel_body_heap n i m maxPrefix) tt;
      fv ← load failure (j - 1);
      pf ← new_slice n;
      let step := StepRef.mk (i - 1) (j - 1) true true
        ("Full pattern match found at text index " +:+ fmt_d (i - j)
           +:+ "! Using failure function value " +:+ fmt_d fv
           +:+ " to shift pattern to pattern[" +:+ fmt_d fv +:+ "].")
        fv comparisons pf (-1) in
      _ ← copy_slice (StepRef.PrefixFunction step) maxPrefix;
      let steps := steps ++ [step] in
      let j := fv in
      mret (mkScanRef i j comparisons maxPrefix positions steps)
    else mret (mkScanRef i j comparisons maxPrefix positions steps)
  else if j >? 0 then
    fv ← load failure (j - 1);
    let step := StepRef.with_Status
      ("Mismatch at text[" +:+ fmt_d i +:+ "]='" +:+ fmt_c ti +:+ "' and pattern["
         +:+ fmt_d j +:+ "]='" +:+ fmt_c pj +:+ "'. Using failure function value "
         +:+ fmt_d fv +:+ " to shift pattern to pattern[" +:+ fmt_d fv +:+ "].") step in
    let step := StepRef.with_FailureValue fv step in
    let step := StepRef.with_HighlightPrefixIndex i step in
    let steps := steps ++ [step] in
    let j := fv in
    pf ← new_slice n;
    let step := StepRef.mk i j false true
      ("Pattern shifted to align at pattern[" +:+ fmt_d j +:+ "] with text["
         +:+ fmt_d i +:+ "]='" +:+ fmt_c ti +:+ "' based on failure function.")
      0 comparisons pf i in
    _ ← copy_slice (StepRef.PrefixFunction step) maxPrefix;
    let steps := steps ++ [step] in
    mret (mkScanRef i j comparisons maxPrefix positions steps)
  else
    p0 ← lift (index pattern 0);
    let step := StepRef.with_Status
      ("Mismatch at text[" +:+ fmt_d i +:+ "]='" +:+ fmt_c ti +:+ "' and pattern[0]='"
         +:+ fmt_c p0 +:+ "'. No prefix to use, advancing to text["
         +:+ fmt_d (i + 1) +:+ "].") step in
    let step := StepRef.with_HighlightPrefixIndex i step in
    let steps := steps ++ [step] in
    let i := i + 1 in
    mret (mkScanRef i j comparisons maxPrefix positions steps).

(** The loop [for i < n { ... }]. *)
Fixpoint scan_loop_heap (fuel : nat) (text pattern : list ascii) (failure : nat)
    (st : ScanRef) : Heaped ScanRef :=
  match fuel with
  | O => λ _, OutOfFuel
  | S fuel' =>
      if ref_i st <? len text then
        st' ← scan_iteration_heap text pattern failure st;
        scan_loop_heap fuel' text pattern failure st'
      else mret st
  end.

(** [searchKMP]: the error results hold no slice. *)
Definition searchKMP_heap (fuel : nat) (text pattern : string) : Heaped ResultRef :=
  if String.eqb pattern "" then
    mret (ResultRef.mk None [] false [] 0 "Pattern cannot be empty")
  else if String.eqb text "" then
    mret (ResultRef.mk None [] false [] 0 "Text cannot be empty")
  else
    failure ← buildFailureFunction_heap fuel pattern;
    let n := len (bytes text) in
    maxPrefix ← new_slice n;
    st ← scan_loop_heap fuel (bytes text) (bytes pattern) failure
           (mkScanRef 0 0 0 maxPrefix [] []);
    mret (ResultRef.mk (Some failure) (ref_steps st)
            (len (ref_positions st) >? 0) (ref_positions st)
            (ref_comparisons st) "").

(** What a step holds once its snapshot is read from the heap. *)
Definition view_step (h : gmap nat (list Z)) (s : StepRef) : option Step :=
  pf ← h !! StepRef.PrefixFunction s;
  Some (Step.mk (StepRef.TextIndex s) (StepRef.PatternIndex s) (StepRef.Match s)
          (StepRef.Shift s) (StepRef.Status s) (StepRef.FailureValue s)
          (StepRef.Comparisons s) pf (StepRef.HighlightPrefixIndex s)).

(** The result with every slice read from the heap ([nil] reads as empty). *)
Definition view_result (h : gmap nat (list Z)) (r : ResultRef) : option KMPResult :=
  failure ← match ResultRef.FailureFunction r with
            | Some a => h !! a
            | None => Some []
            end;
  steps ← mapM (view_step h) (ResultRef.Steps r);
  Some (KMPResult.mk failure steps (ResultRef.Found r) (ResultRef.Positions r)
          (ResultRef.Comparisons r) (ResultRef.Error r)).

(** The addresses a result holds. *)
Definition slices_of (r : ResultRef) : list nat :=
  option_list (ResultRef.FailureFunction r)
    ++ (StepRef.PrefixFunction <$> ResultRef.Steps r).

(** The heap state of the scan stands for the value state: the working
    snapshot and the snapshot of every emitted step are at pairwise distinct
    addresses, all allocated by this call, and nothing older was changed. *)
Record scan_sim (h0 h : gmap nat (list Z)) (af : nat) (failure : list Z)
    (hst : ScanRef) (st : ScanState) : Prop := mk_scan_sim {
  sim_i : ref_i hst = i_ st;
  sim_j : ref_j hst = j_ st;
  sim_comparisons : ref_comparisons hst = comparisons_ st;
  sim_positions : ref_positions hst = positions_ st;
  sim_failure : h !! af = Some failure;
  sim_maxPrefix : h !! ref_maxPrefix hst = Some (maxPrefix_ st);
  sim_steps :
    Forall2 (λ hs s, view_step h hs = Some s) (ref_steps hst) (steps_ st);
  sim_nodup :
    NoDup (af :: ref_maxPrefix hst :: (StepRef.PrefixFunction <$> ref_steps hst));
  sim_fresh :
    ∀ a, a ∈ af :: ref_maxPrefix hst :: (StepRef.PrefixFunction <$> ref_steps hst) →
         h0 !! a = None;
  sim_frame : ∀ a l, h0 !! a = Some l → h !! a = Some l
}.

(** Unfolding of the field updates of a step. *)
Ltac step_fields :=
  cbn [StepRef.PrefixFunction StepRef.with_HighlightPrefixIndex
       StepRef.with_Status StepRef.with_FailureValue StepRef.TextIndex
       StepRef.PatternIndex StepRef.Match StepRef.Shift StepRef.Status
       StepRef.FailureValue StepRef.Comparisons StepRef.HighlightPrefixIndex
       Step.PrefixFunction Step.with_PrefixFunction
       Step.with_HighlightPrefixIndex Step.with_Status Step.with_FailureValue
       Step.TextIndex Step.PatternIndex Step.Match Step.Shift Step.Status
       Step.FailureValue Step.Comparisons Step.HighlightPrefixIndex].

Ltac step_fields_in H :=
  cbn [Step.PrefixFunction Step.with_PrefixFunction
       Step.with_HighlightPrefixIndex Step.with_Status Step.with_FailureValue
       Step.TextIndex Step.PatternIndex Step.Match Step.Shift Step.Status
       Step.FailureValue Step.Comparisons Step.HighlightPrefixIndex] in H.

(** ** Slices: basic facts *)

Lemma len_nonneg {A} (l : list A) : 0 ≤ len l.
Proof. unfold len. lia. Qed.

Lemma get_Some {A} (l : list A) (i : Z) (x : A) :
  get l i = Some x → 0 ≤ i < len l.
Proof.
  unfold get, len. destruct (Z.ltb_spec i 0) as [|Hi]; [done|].
  intros Hl%lookup_lt_Some. lia.
Qed.

Lemma get_in_range {A} (l : list A) (i : Z) :
  0 ≤ i < len l → ∃ x, get l i = Some x.
Proof.
  unfold get, len. intros Hi. destruct (Z.ltb_spec i 0); [lia|].
  destruct (lookup_lt_is_Some_2 l (Z.to_nat i)) as [x Hx]; [lia|]. eauto.
Qed.

Lemma get_lookup {A} (l : list A) (i : Z) :
  0 ≤ i → get l i = l !! Z.to_nat i.
Proof. unfold get. intros. destruct (Z.ltb_spec i 0); [lia|done]. Qed.

Lemma get_of_nat {A} (l : list A) (i : nat) : get l (Z.of_nat i) = l !! i.
Proof. rewrite get_lookup by lia. by rewrite Nat2Z.id. Qed.

Lemma index_Done {A} (l : list A) (i : Z) (x : A) :
  get l i = Some x → index l i = Done x.
Proof. unfold index. by intros ->. Qed.

Lemma assign_Done {A} (l : list A) (i : Z) (x : A) :
  0 ≤ i < len l → assign l i x = Done (<[Z.to_nat i := x]> l).
Proof.
  intros Hi. unfold assign.
  destruct (Z.leb_spec 0 i); [|lia]. destruct (Z.ltb_spec i (len l)); [done|lia].
Qed.

Lemma len_insert {A} (l : list A) (i : nat) (x : A) : len (<[i := x]> l) = len l.
Proof. unfold len. by rewrite length_insert. Qed.

Lemma get_insert_eq {A} (l : list A) (i : Z) (x : A) :
  0 ≤ i < len l → get (<[Z.to_nat i := x]> l) i = Some x.
Proof.
  intros Hi. rewrite get_lookup by lia.
  apply list_lookup_insert_eq. unfold len in Hi. lia.
Qed.

Lemma get_insert_ne {A} (l : list A) (i k : Z) (x : A) :
  0 ≤ i → i ≠ k → get (<[Z.to_nat i := x]> l) k = get l k.
Proof.
  intros Hi Hne. unfold get. destruct (Z.ltb_spec k 0); [done|].
  apply list_lookup_insert_ne. lia.
Qed.

Lemma len_make (n : Z) : 0 ≤ n → len (make n) = n.
Proof. intros. unfold len, make. rewrite length_replicate. lia. Qed.

Lemma copy_same_length {A} (dst src : list A) :
  length dst = length src → copy dst src = src.
Proof.
  intros H. unfold copy. rewrite H, firstn_all.
  rewrite drop_ge by lia. apply app_nil_r.
Qed.

Lemma copy_make (n : Z) (src : list Z) : len src = n → copy (make n) src = src.
Proof.
  intros H. apply copy_same_length. unfold make, len in *.
  rewrite length_replicate. lia.
Qed.

Lemma len_bytes_pos (s : string) : s ≠ EmptyString → 0 < len (bytes s).
Proof. destruct s; [done|]. intros _. unfold len, bytes. simpl. lia. Qed.

(** ** Index-level facts about matching *)

Section Matching.
Context (a p : list ascii).

Lemma ends_with_zero e : 0 ≤ e ≤ len a → ends_with a p e 0.
Proof. intros. unfold ends_with, len in *. repeat split; try lia. Qed.

Lemma ends_with_extend e k :
  ends_with a p e k → e < len a → k < len p →
  get a e = get p k → ends_with a p (e + 1) (k + 1).
Proof.
  intros (? & ? & ? & Heq) ? ? Hek. repeat split; try lia.
  intros x Hx. destruct (decide (x = k)) as [->|].
  - replace (e + 1 - (k + 1) + k) with e by lia. done.
  - replace (e + 1 - (k + 1) + x) with (e - k + x) by lia. apply Heq. lia.
Qed.

Lemma ends_with_restrict e k :
  0 ≤ k → ends_with a p (e + 1) (k + 1) →
  ends_with a p e k ∧ get a e = get p k.
Proof.
  intros ? (? & ? & ? & Heq). split.
  - repeat split; try lia. intros x Hx.
    replace (e - k + x) with (e + 1 - (k + 1) + x) by lia. apply Heq. lia.
  - replace e with (e + 1 - (k + 1) + k) at 1 by lia. apply Heq. lia.
Qed.

(** A shorter border of the matched prefix still matches. *)
Lemma ends_with_shrink e k z :
  ends_with a p e k → ends_with p p k z → ends_with a p e z.
Proof.
  intros (? & ? & ? & Heq) (? & ? & ? & Hb). repeat split; try lia.
  intros x Hx. rewrite <- (Hb x) by lia.
  replace (e - z + x) with (e - k + (k - z + x)) by lia. apply Heq. lia.
Qed.

(** Two matches ending at the same place overlap in a border. *)
Lemma ends_with_overlap e k z :
  ends_with a p e k → ends_with a p e z → z ≤ k → ends_with p p k z.
Proof.
  intros (? & ? & ? & Hk) (? & ? & ? & Hz) ?. repeat split; try lia.
  intros x Hx. rewrite <- (Hz x) by lia. rewrite <- (Hk (k - z + x)) by lia.
  f_equal. lia.
Qed.

(** The start of an occurrence is a shorter match. *)
Lemma ends_with_start e k z :
  ends_with a p e k → 0 ≤ z ≤ k → ends_with a p (e - k + z) z.
Proof.
  intros (? & ? & ? & Hk) ?. repeat split; try lia.
  intros x Hx. replace (e - k + z - z + x) with (e - k + x) by lia.
  apply Hk. lia.
Qed.
End Matching.

(** ** The failure table is right *)

Lemma bind_Done {A B} (a : A) (k : A → outcome B) : (Done a ≫= k) = k a.
Proof. reflexivity. Qed.

Lemma ascii_eqb_get (l1 l2 : list ascii) (i1 i2 : Z) (x y : ascii) :
  get l1 i1 = Some x → get l2 i2 = Some y →
  (Ascii.eqb x y = true ↔ get l1 i1 = get l2 i2).
Proof. intros -> ->. rewrite Ascii.eqb_eq. split; congruence. Qed.

Lemma table_ok_entry p failure upto q :
  table_ok p failure upto → 0 ≤ q < upto →
  ∃ f, get failure q = Some f ∧ index failure q = Done f ∧ next_of p (q + 1) f.
Proof.
  intros [_ H] Hq. destruct (H q Hq) as (f & Hf & Hn).
  exists f. auto using index_Done.
Qed.

Section FailureTable.
Context (p : list ascii) (fuel : nat).
Hypothesis enough : len p ≤ Z.of_nat fuel.

Lemma next_of_candidate i j : next_of p i j → candidate p i j.
Proof. intros (? & ? & Hmax). split; [done|]. split; [done|]. intros z ? ?. by destruct (Hmax z). Qed.

Lemma candidate_fall i j f :
  candidate p i j → 0 < j → get p j ≠ get p i → next_of p j f → candidate p i f.
Proof.
  intros (? & Hj & Hno) ? Hne (? & Hf & Hmax). split; [lia|]. split.
  - eapply ends_with_shrink; eauto.
  - intros z Hz Hzi. destruct (decide (j < z)); [apply Hno; [lia|done]|].
    destruct (decide (z = j)) as [->|]; [done|].
    destruct (Hmax z); [lia|]. eapply ends_with_overlap; eauto. lia.
Qed.

Lemma candidate_hit i j :
  candidate p i j → i < len p → get p j = get p i → next_of p (i + 1) (j + 1).
Proof.
  intros (? & Hj & Hno) ? Heq. split; [lia|]. split.
  - apply ends_with_extend; [done|lia|lia|done].
  - intros z Hz Hzi. replace z with (z - 1 + 1) in Hzi by lia.
    apply ends_with_restrict in Hzi as [Hzi Hc]; [|lia].
    eapply (Hno (z - 1)); [lia|done|done].
Qed.

Lemma candidate_miss i :
  candidate p i 0 → i < len p → get p 0 ≠ get p i → next_of p (i + 1) 0.
Proof.
  intros (? & Hj & Hno) ? Hne. split; [lia|]. split.
  - apply ends_with_zero. lia.
  - intros z Hz Hzi. replace z with (z - 1 + 1) in Hzi by lia.
    apply ends_with_restrict in Hzi as [Hzi Hc]; [|lia].
    destruct (decide (z = 1)) as [->|]; [by apply Hne|].
    eapply (Hno (z - 1)); [lia|done|done].
Qed.

Lemma fallback_spec failure i :
  table_ok p failure i → 0 < i < len p →
  ∀ fl j, j < Z.of_nat fl → candidate p i j →
    ∃ j', fallback fl p failure i j = Done j' ∧ 0 ≤ j' ≤ j ∧ candidate p i j' ∧
          (j' = 0 ∨ get p j' = get p i).
Proof.
  intros Hok Hi. induction fl as [|fl IH]; intros j Hfl Hc.
  { destruct Hc as (? & _). lia. }
  simpl. destruct (Z.gtb_spec j 0) as [Hj|Hj].
  2:{ exists j. destruct Hc as (? & ?). split; [done|]. split; [lia|]. split; [done|]. left. lia. }
  pose proof Hc as (Hji & _ & _).
  destruct (get_in_range p i) as [pi Hpi]; [lia|].
  destruct (get_in_range p j) as [pj Hpj]; [lia|].
  rewrite (index_Done _ _ _ Hpi), bind_Done, (index_Done _ _ _ Hpj), bind_Done.
  destruct (Ascii.eqb pi pj) eqn:E; simpl.
  - apply (ascii_eqb_get _ _ _ _ _ _ Hpi Hpj) in E.
    exists j. split; [done|]. split; [lia|]. split; [done|]. by right.
  - assert (get p j ≠ get p i) as Hne.
    { intros Heq. symmetry in Heq. apply (ascii_eqb_get _ _ _ _ _ _ Hpi Hpj) in Heq. congruence. }
    destruct (table_ok_entry p failure i (j - 1) Hok) as (f & _ & Hf & Hn); [lia|].
    replace (j - 1 + 1) with j in Hn by lia.
    rewrite Hf, bind_Done.
    destruct (IH f) as (j' & Hrun & ? & ? & ?).
    + destruct Hn as (? & _). lia.
    + eapply candidate_fall; eauto.
    + exists j'. split; [done|]. destruct Hn as (? & _). split; [lia|]. done.
Qed.

Lemma table_ok_assign failure i f :
  table_ok p failure i → 0 ≤ i < len p → next_of p (i + 1) f →
  assign failure i f = Done (<[Z.to_nat i := f]> failure) ∧
  table_ok p (<[Z.to_nat i := f]> failure) (i + 1) ∧
  get (<[Z.to_nat i := f]> failure) i = Some f.
Proof.
  intros [Hlen Hok] Hi Hn. split; [apply assign_Done; lia|]. split.
  - split; [by rewrite len_insert|]. intros q Hq.
    destruct (decide (q = i)) as [->|].
    + exists f. split; [apply get_insert_eq; lia|done].
    + rewrite get_insert_ne by lia. apply Hok. lia.
  - apply get_insert_eq. lia.
Qed.

Lemma failure_body_spec failure i j :
  1 ≤ i < len p → table_ok p failure i → get failure (i - 1) = Some j →
  ∃ j' failure', failure_body fuel p i (j, failure) = Done (j', failure') ∧
    table_ok p failure' (i + 1) ∧ get failure' i = Some j'.
Proof.
  intros Hi Hok Hj.
  destruct (table_ok_entry p failure i (i - 1) Hok) as (f & Hf & _ & Hn); [lia|].
  replace (i - 1 + 1) with i in Hn by lia. assert (f = j) as -> by congruence.
  pose proof (next_of_candidate _ _ Hn) as Hc. pose proof Hn as (Hji & _).
  unfold failure_body.
  destruct (get_in_range p i) as [pi Hpi]; [lia|].
  destruct (get_in_range p j) as [pj Hpj]; [lia|].
  rewrite (index_Done _ _ _ Hpi), bind_Done, (index_Done _ _ _ Hpj), bind_Done.
  destruct (Ascii.eqb pi pj) eqn:E.
  - apply (ascii_eqb_get _ _ _ _ _ _ Hpi Hpj) in E.
    destruct (table_ok_assign failure i (j + 1) Hok) as (-> & ? & ?); [lia| |].
    { apply candidate_hit; [done|lia|done]. }
    rewrite bind_Done. eauto.
  - destruct (fallback_spec failure i Hok) with (fl := fuel) (j := j)
      as (j' & -> & Hj' & Hc' & Hexit); [lia|lia|done|].
    rewrite bind_Done.
    destruct (get_in_range p j') as [pj' Hpj']; [lia|].
    rewrite bind_Done, (index_Done _ _ _ Hpj'), bind_Done.
    destruct (Ascii.eqb pi pj') eqn:E'.
    + apply (ascii_eqb_get _ _ _ _ _ _ Hpi Hpj') in E'.
      destruct (table_ok_assign failure i (j' + 1) Hok) as (-> & ? & ?); [lia| |].
      { apply candidate_hit; [done|lia|done]. }
      rewrite bind_Done. eauto.
    + assert (get p j' ≠ get p i) as Hne.
      { intros Heq. symmetry in Heq.
        apply (ascii_eqb_get _ _ _ _ _ _ Hpi Hpj') in Heq. congruence. }
      destruct Hexit as [->|]; [|done].
      destruct (table_ok_assign failure i 0 Hok) as (-> & ? & ?); [lia| |].
      { apply candidate_miss; [done|lia|done]. }
      rewrite bind_Done. eauto.
Qed.

Lemma failure_loop_spec :
  ∀ (cnt : nat) i j failure,
    1 ≤ i → i + Z.of_nat cnt = len p →
    table_ok p failure i → get failure (i - 1) = Some j →
    ∃ j' failure',
      for_range (seqZ i (Z.of_nat cnt)) (failure_body fuel p) (j, failure)
        = Done (j', failure') ∧ table_ok p failure' (len p).
Proof.
  induction cnt as [|cnt IH]; intros i j failure Hi Hcnt Hok Hj.
  - rewrite seqZ_nil by lia. simpl. replace (len p) with i by lia. eauto.
  - rewrite seqZ_cons by lia. cbn [for_range].
    destruct (failure_body_spec failure i j) as (j' & failure' & -> & Hok' & Hj');
      [lia|done|done|].
    rewrite bind_Done.
    replace (Z.pred (Z.of_nat (S cnt))) with (Z.of_nat cnt) by lia.
    apply IH; [lia|lia|done|].
    by replace (Z.succ i - 1) with i by lia.
Qed.

Lemma failure_table_spec :
  0 < len p →
  ∃ failure, failure_table fuel p = Done failure ∧ table_ok p failure (len p).
Proof.
  intros Hm. unfold failure_table.
  rewrite assign_Done by (rewrite len_make; lia). rewrite bind_Done.
  destruct (failure_loop_spec (Z.to_nat (len p - 1)) 1 0
              (<[Z.to_nat 0 := 0]> (make (len p))))
    as (j' & failure' & Hrun & Hok); [lia|lia| |..].
  - split; [rewrite len_insert, len_make; lia|]. intros q Hq.
    assert (q = 0) as -> by lia. exists 0.
    split; [apply get_insert_eq; rewrite len_make; lia|].
    split; [lia|]. split; [apply ends_with_zero; lia|]. intros; lia.
  - apply get_insert_eq. rewrite len_make; lia.
  - rewrite Z2Nat.id in Hrun by lia. rewrite Hrun, bind_Done. eauto.
Qed.
End FailureTable.

(** ** From indices to slices *)

Lemma ends_with_slices (a p : list ascii) (e k : Z) :
  0 ≤ k ≤ e → e ≤ len a → k ≤ len p →
  ends_with a p e k ↔
  take (Z.to_nat k) (drop (Z.to_nat (e - k)) a) = take (Z.to_nat k) p.
Proof.
  intros Hk He Hp. split.
  - intros (_ & _ & _ & Heq). apply list_eq. intros x.
    destruct (decide (x < Z.to_nat k)%nat) as [Hx|Hx].
    + rewrite !lookup_take_lt, lookup_drop by done.
      specialize (Heq (Z.of_nat x)). rewrite get_of_nat in Heq.
      rewrite <- Heq by lia. rewrite get_lookup by lia. f_equal. lia.
    + by rewrite !lookup_take_ge by lia.
  - intros Heq. repeat split; try lia. intros x Hx.
    rewrite !get_lookup by lia.
    rewrite <- (lookup_take_lt p (Z.to_nat k)) by lia. rewrite <- Heq.
    rewrite lookup_take_lt, lookup_drop by lia. f_equal. lia.
Qed.

Lemma occurs_ends_with (a p : list ascii) (s : Z) :
  0 < len p →
  occurs a p s ↔ 0 ≤ s ∧ ends_with a p (s + len p) (len p).
Proof.
  intros Hm. unfold occurs.
  assert (Z.to_nat (len p) = length p) as Hnat by (unfold len; lia).
  split; intros [Hs H]; (split; [done|]).
  - assert (s + len p ≤ len a) as Hfit.
    { apply (f_equal length) in H. rewrite length_take, length_drop in H.
      unfold len in *. lia. }
    apply ends_with_slices; [lia..|].
    replace (s + len p - len p) with s by lia.
    rewrite Hnat, H. by rewrite firstn_all.
  - pose proof H as (_ & ? & _).
    apply ends_with_slices in H; [|lia..].
    replace (s + len p - len p) with s in H by lia.
    rewrite Hnat in H. by rewrite firstn_all in H.
Qed.

Lemma border_ends_with (p : list ascii) (e k : Z) :
  0 ≤ e ≤ len p →
  border (take (Z.to_nat e) p) k ↔ 0 ≤ k < e ∧ ends_with p p e k.
Proof.
  intros He. unfold border.
  assert (length (take (Z.to_nat e) p) = Z.to_nat e) as Hlen.
  { rewrite length_take. unfold len in He. lia. }
  unfold len at 1. rewrite Hlen.
  split; intros [Hk H]; (split; [lia|]).
  - apply ends_with_slices; [lia..|].
    rewrite take_take in H. rewrite Nat.min_l in H by lia. rewrite H.
    rewrite take_drop_commute. do 2 f_equal; lia.
  - apply ends_with_slices in H; [|lia..].
    rewrite take_take, Nat.min_l by lia. rewrite <- H.
    rewrite take_drop_commute. do 2 f_equal; lia.
Qed.

Lemma next_of_longest_border (p : list ascii) (e k : Z) :
  0 ≤ e ≤ len p →
  next_of p e k ↔ longest_border (take (Z.to_nat e) p) k.
Proof.
  intros He. unfold next_of, longest_border. split.
  - intros (Hk & Hb & Hmax). split; [by apply border_ends_with|].
    intros z Hz. apply border_ends_with in Hz as [Hz Hzb]; [|done].
    destruct (decide (z ≤ k)); [done|]. destruct (Hmax z); [lia|done].
  - intros [Hb Hmax]. apply border_ends_with in Hb as [Hk Hb]; [|done].
    split; [done|]. split; [done|]. intros z Hz Hzb.
    assert (z ≤ k); [|lia]. apply Hmax.
    apply border_ends_with; [done|]. split; [lia|done].
Qed.

(** ** Lists of positions and of counters *)

Lemma filter_none {A} (P : A → Prop) `{∀ x, Decision (P x)} (l : list A) :
  Forall (λ x, ¬ P x) l → filter P l = [].
Proof.
  induction 1 as [|x l Hx _ IH]; [done|]. by rewrite filter_cons_False.
Qed.

Lemma found_before_skip t p b b' :
  0 ≤ b ≤ b' → (∀ s, b ≤ s < b' → ¬ occurs t p s) →
  found_before t p b' = found_before t p b.
Proof.
  intros Hb Hno. unfold found_before.
  replace b' with (b + (b' - b)) by lia.
  rewrite seqZ_app, filter_app by lia.
  replace (filter (occurs t p) (seqZ (0 + b) (b' - b))) with (@nil Z);
    [by rewrite app_nil_r|].
  symmetry. apply filter_none. apply Forall_seqZ. intros s Hs. apply Hno. lia.
Qed.

Lemma found_before_hit t p b :
  0 ≤ b → occurs t p b → found_before t p (b + 1) = found_before t p b ++ [b].
Proof.
  intros Hb Hocc. unfold found_before.
  rewrite seqZ_app, filter_app by lia. f_equal.
  rewrite seqZ_cons, seqZ_nil by lia. simpl.
  by rewrite filter_cons_True, filter_nil.
Qed.

Lemma nondecreasing_nil : nondecreasing [].
Proof. intros a b x y _ H. by rewrite lookup_nil in H. Qed.

Lemma nondecreasing_snoc l c :
  nondecreasing l → Forall (λ x, x ≤ c) l → nondecreasing (l ++ [c]).
Proof.
  intros Hl Hc a b x y Hab Ha Hb.
  apply lookup_snoc_Some in Hb as [[Hb Hy]|[Hb ->]].
  - rewrite lookup_app_l in Ha by lia. eauto.
  - apply lookup_snoc_Some in Ha as [[_ Hx]|[_ ->]]; [|lia].
    rewrite Forall_lookup in Hc. eauto.
Qed.

(** ** One iteration, branch by branch *)

Lemma relabel_body_in_range (n i m k : Z) (mp : list Z) :
  0 ≤ k < n → len mp = n →
  relabel_body n i m k mp = Done (<[Z.to_nat k := k - (i - m) + 1]> mp).
Proof.
  intros Hk Hlen. unfold relabel_body.
  destruct (Z.geb_spec k 0); [|lia]. destruct (Z.ltb_spec k n); [|lia].
  apply assign_Done. lia.
Qed.

Lemma relabel_spec (n i m : Z) :
  i ≤ n →
  ∀ (cnt : nat) k mp, 0 ≤ k → k + Z.of_nat cnt = i → len mp = n →
    ∃ mp', for_range (seqZ k (Z.of_nat cnt)) (relabel_body n i m) mp = Done mp' ∧
           len mp' = n ∧
           (∀ x, k ≤ x < i → get mp' x = Some (x - (i - m) + 1)) ∧
           (∀ x, ¬ (k ≤ x < i) → get mp' x = get mp x).
Proof.
  intros Hin. induction cnt as [|cnt IH]; intros k mp Hk Hcnt Hlen.
  - rewrite seqZ_nil by lia. exists mp. simpl. split; [done|]. split; [done|]. split; [intros; lia|done].
  - rewrite seqZ_cons by lia. cbn [for_range].
    rewrite relabel_body_in_range by lia. rewrite bind_Done.
    replace (Z.pred (Z.of_nat (S cnt))) with (Z.of_nat cnt) by lia.
    destruct (IH (Z.succ k) (<[Z.to_nat k := k - (i - m) + 1]> mp))
      as (mp' & Hrun & Hlen' & Hin' & Hout'); [lia|lia|by rewrite len_insert|].
    exists mp'. split; [done|]. split; [done|]. split.
    + intros x Hx. destruct (decide (x = k)) as [->|]; [|apply Hin'; lia].
      rewrite Hout' by lia. apply get_insert_eq. lia.
    + intros x Hx. rewrite Hout' by lia. apply get_insert_ne; lia.
Qed.

Section Branches.
Context (t p : list ascii) (failure : list Z).
Context (i j c : Z) (mp positions : list Z) (steps : list Step).
Hypothesis Hmp : len mp = len t.

Lemma len_grown : len (grown mp i j) = len mp.
Proof.
  unfold grown. destruct (get mp i); [|done].
  destruct (j + 1 >? z); [apply len_insert|done].
Qed.

Lemma scan_match_more x :
  get t i = Some x → get p j = Some x → j + 1 ≠ len p →
  ∃ status,
    scan_iteration t p failure (mkScan i j c mp positions steps) =
    Done (mkScan (i + 1) (j + 1) (c + 1) (grown mp i j) positions
            (steps ++ [Step.mk i j true false status 0 (c + 1) (grown mp i j) i])).
Proof.
  intros Ht Hp Hne. unfold scan_iteration.
  rewrite (index_Done _ _ _ Ht), bind_Done, (index_Done _ _ _ Hp), bind_Done.
  rewrite Ascii.eqb_refl. cbn [Step.PrefixFunction Step.with_PrefixFunction
    Step.with_HighlightPrefixIndex Step.with_Status Step.TextIndex
    Step.PatternIndex Step.Match Step.Shift Step.Status Step.FailureValue
    Step.Comparisons Step.HighlightPrefixIndex].
  rewrite copy_make by done.
  pose proof (get_Some _ _ _ Ht) as Hi. rewrite <- Hmp in Hi.
  destruct (get_in_range mp i Hi) as [old Hold].
  rewrite (index_Done _ _ _ Hold), bind_Done.
  assert (∃ cur, get (grown mp i j) i = Some cur ∧
                 <[Z.to_nat i := cur]> mp = grown mp i j) as (cur & Hcur & Hpf).
  { unfold grown. rewrite Hold. destruct (j + 1 >? old).
    - exists (j + 1). split; [by apply get_insert_eq|done].
    - exists old. split; [done|]. apply list_insert_id.
      by rewrite <- get_lookup by lia. }
  replace (if j + 1 >? old then assign mp i (j + 1) else Done mp)
    with (Done (grown mp i j)).
  2:{ unfold grown. rewrite Hold. destruct (j + 1 >? old); [|done].
      by rewrite assign_Done. }
  rewrite bind_Done, (index_Done _ _ _ Hcur), bind_Done.
  rewrite assign_Done by done. rewrite bind_Done, Hpf.
  destruct (Z.eqb_spec (j + 1) (len p)); [done|]. eauto.
Qed.

Lemma scan_match_full x fv :
  get t i = Some x → get p j = Some x → j + 1 = len p → j ≤ i →
  get failure (len p - 1) = Some fv →
  ∃ status1 status2 mp',
    scan_iteration t p failure (mkScan i j c mp positions steps) =
    Done (mkScan (i + 1) fv (c + 1) mp' (positions ++ [i + 1 - len p])
            (steps ++ [Step.mk i j true false status1 0 (c + 1) (grown mp i j) i]
                   ++ [Step.mk i j true true status2 fv (c + 1) mp' (-1)])) ∧
    len mp' = len t ∧
    (∀ k, i + 1 - len p ≤ k < i + 1 → get mp' k = Some (k - (i + 1 - len p) + 1)) ∧
    (∀ k, ¬ (i + 1 - len p ≤ k < i + 1) → get mp' k = get (grown mp i j) k).
Proof.
  intros Ht Hp Hfull Hji Hfv. unfold scan_iteration.
  rewrite (index_Done _ _ _ Ht), bind_Done, (index_Done _ _ _ Hp), bind_Done.
  rewrite Ascii.eqb_refl. cbn [Step.PrefixFunction Step.with_PrefixFunction
    Step.with_HighlightPrefixIndex Step.with_Status Step.TextIndex
    Step.PatternIndex Step.Match Step.Shift Step.Status Step.FailureValue
    Step.Comparisons Step.HighlightPrefixIndex].
  rewrite copy_make by done.
  pose proof (get_Some _ _ _ Ht) as Hi. pose proof Hi as Hit. rewrite <- Hmp in Hi.
  destruct (get_in_range mp i Hi) as [old Hold].
  rewrite (index_Done _ _ _ Hold), bind_Done.
  assert (∃ cur, get (grown mp i j) i = Some cur ∧
                 <[Z.to_nat i := cur]> mp = grown mp i j) as (cur & Hcur & Hpf).
  { unfold grown. rewrite Hold. destruct (j + 1 >? old).
    - exists (j + 1). split; [by apply get_insert_eq|done].
    - exists old. split; [done|]. apply list_insert_id.
      by rewrite <- get_lookup by lia. }
  replace (if j + 1 >? old then assign mp i (j + 1) else Done mp)
    with (Done (grown mp i j)).
  2:{ unfold grown. rewrite Hold. destruct (j + 1 >? old); [|done].
      by rewrite assign_Done. }
  rewrite bind_Done, (index_Done _ _ _ Hcur), bind_Done.
  rewrite assign_Done by done. rewrite bind_Done, Hpf.
  destruct (Z.eqb_spec (j + 1) (len p)); [|done].
  pose proof (len_nonneg p) as Hp0.
  destruct (relabel_spec (len t) (i + 1) (len p)) with
    (cnt := Z.to_nat (len p)) (k := i + 1 - len p) (mp := grown mp i j)
    as (mp' & Hrun & Hlen' & Hin & Hout); [lia|lia|lia|by rewrite len_grown|].
  replace (i + 1 - (i + 1 - len p)) with (Z.of_nat (Z.to_nat (len p))) by lia.
  rewrite Hrun, bind_Done.
  replace (j + 1 - 1) with (len p - 1) by lia.
  rewrite (index_Done _ _ _ Hfv), bind_Done.
  cbn [Step.PrefixFunction Step.with_PrefixFunction].
  rewrite copy_make by done.
  replace (i + 1 - (j + 1)) with (i + 1 - len p) by lia.
  replace (i + 1 - 1) with i by lia. replace (len p - 1) with j by lia.
  rewrite <- app_assoc. eauto 10.
Qed.

Lemma scan_mismatch_shift x y fv :
  get t i = Some x → get p j = Some y → x ≠ y → 0 < j →
  get failure (j - 1) = Some fv →
  ∃ status1 status2,
    scan_iteration t p failure (mkScan i j c mp positions steps) =
    Done (mkScan i fv (c + 1) mp positions
            (steps ++ [Step.mk i j false false status1 fv (c + 1) mp i]
                   ++ [Step.mk i fv false true status2 0 (c + 1) mp i])).
Proof.
  intros Ht Hp Hne Hj Hfv. unfold scan_iteration.
  rewrite (index_Done _ _ _ Ht), bind_Done, (index_Done _ _ _ Hp), bind_Done.
  destruct (Ascii.eqb_spec x y); [done|].
  destruct (Z.gtb_spec j 0); [|lia].
  rewrite (index_Done _ _ _ Hfv), bind_Done.
  cbn [Step.PrefixFunction Step.with_PrefixFunction
    Step.with_HighlightPrefixIndex Step.with_Status Step.with_FailureValue
    Step.TextIndex Step.PatternIndex Step.Match Step.Shift Step.Status
    Step.FailureValue Step.Comparisons Step.HighlightPrefixIndex].
  rewrite copy_make by done. rewrite <- app_assoc. eauto.
Qed.

Lemma scan_mismatch_skip x y :
  get t i = Some x → get p j = Some y → x ≠ y → j = 0 →
  ∃ status,
    scan_iteration t p failure (mkScan i j c mp positions steps) =
    Done (mkScan (i + 1) 0 (c + 1) mp positions
            (steps ++ [Step.mk i 0 false false status 0 (c + 1) mp i])).
Proof.
  intros Ht Hp Hne ->. unfold scan_iteration.
  rewrite (index_Done _ _ _ Ht), bind_Done, (index_Done _ _ _ Hp), bind_Done.
  destruct (Ascii.eqb_spec x y); [done|].
  destruct (Z.gtb_spec 0 0); [lia|].
  rewrite bind_Done.
  cbn [Step.PrefixFunction Step.with_PrefixFunction
    Step.with_HighlightPrefixIndex Step.with_Status Step.with_FailureValue
    Step.TextIndex Step.PatternIndex Step.Match Step.Shift Step.Status
    Step.FailureValue Step.Comparisons Step.HighlightPrefixIndex].
  rewrite copy_make by done. eauto.
Qed.
End Branches.

(** ** The scan loop: invariant and progress *)

Section Scan.
Context (t p : list ascii) (failure : list Z).
Hypothesis Hm : 0 < len p.
Hypothesis Hok : table_ok p failure (len p).

Lemma trace_ok_snoc c c' steps s :
  trace_ok t p c steps → c ≤ c' → step_ok t p c' s → Step.Comparisons s = c' →
  trace_ok t p c' (steps ++ [s]).
Proof.
  intros (Hall & Hsort & _) Hc Hs Hsc. split; [|split].
  - apply Forall_app. split; [|by apply Forall_singleton].
    eapply Forall_impl; [exact Hall|]. intros s' (? & ? & ? & ?).
    repeat split; try done; lia.
  - rewrite fmap_app. simpl. rewrite Hsc. apply nondecreasing_snoc; [done|].
    apply Forall_fmap. eapply Forall_impl; [exact Hall|].
    intros s' (_ & _ & ? & _). simpl. lia.
  - by rewrite last_snoc.
Qed.

Lemma shift_safe i j f s :
  ends_with t p i j → next_of p j f → i - j < s < i - f → ¬ occurs t p s.
Proof.
  intros Hij (Hf & _ & Hmax) Hs Hocc.
  apply occurs_ends_with in Hocc as [Hs0 Hocc]; [|done].
  pose proof Hij as (? & ? & ? & _).
  apply (ends_with_start _ _ _ _ (i - s)) in Hocc; [|lia].
  replace (s + len p - len p + (i - s)) with i in Hocc by lia.
  destruct (Hmax (i - s)); [lia|]. eapply ends_with_overlap; eauto. lia.
Qed.

Lemma mismatch_safe i j :
  ends_with t p i j → j < len p → get t i ≠ get p j → ¬ occurs t p (i - j).
Proof.
  intros Hij Hj Hne Hocc.
  apply occurs_ends_with in Hocc as [Hs0 Hocc]; [|done].
  pose proof Hij as (? & ? & ? & _).
  apply (ends_with_start _ _ _ _ (j + 1)) in Hocc; [|lia].
  replace (i - j + len p - len p + (j + 1)) with (i + 1) in Hocc by lia.
  apply ends_with_restrict in Hocc as [_ Hocc]; [done|lia].
Qed.

Lemma scan_inv_init : scan_inv t p (scan_init (len t)).
Proof.
  pose proof (len_nonneg t). split; simpl; try lia.
  - apply ends_with_zero. lia.
  - by apply len_make.
  - unfold found_before. by rewrite seqZ_nil.
  - split; [done|]. split; [apply nondecreasing_nil|done].
Qed.

Lemma scan_iteration_inv st :
  scan_inv t p st → i_ st < len t →
  ∃ st', scan_iteration t p failure st = Done st' ∧ scan_inv t p st' ∧
         descends st st' ∧ j_ st' ≤ j_ st + 1.
Proof.
  destruct st as [i j c mp positions steps].
  intros [Hj Hi Hij Hmp Hpos Hc Htr Hne] Hin;
    cbn [i_ j_ comparisons_ maxPrefix_ positions_ steps_] in *.
  destruct (get_in_range t i) as [x Hx]; [lia|].
  destruct (get_in_range p j) as [y Hy]; [lia|].
  destruct (decide (x = y)) as [<-|Hxy].
  - assert (ends_with t p (i + 1) (j + 1)) as Hext.
    { apply ends_with_extend; [done|lia|lia|congruence]. }
    assert (∀ status, trace_ok t p (c + 1)
        (steps ++ [Step.mk i j true false status 0 (c + 1) (grown mp i j) i]))
      as Htr1.
    { intros status. eapply trace_ok_snoc; [exact Htr|lia| |done].
      repeat split; simpl; try lia. by rewrite len_grown. }
    destruct (decide (j + 1 = len p)) as [Hfull|Hmore].
    + destruct (table_ok_entry p failure _ (len p - 1) Hok)
        as (fv & Hfv & _ & Hn); [lia|].
      replace (len p - 1 + 1) with (len p) in Hn by lia.
      destruct (scan_match_full t p failure i j c mp positions steps Hmp x fv)
        as (s1 & s2 & mp' & -> & Hlen' & _ & _); [done..|lia|done|].
      eexists. split; [done|]. pose proof Hn as (Hfv0 & Hfvb & _).
      split; [|split; [left; done|simpl; lia]].
      rewrite Hfull in Hext.
      split; cbn [i_ j_ comparisons_ maxPrefix_ positions_ steps_].
      * lia.
      * lia.
      * eapply ends_with_shrink; eauto.
      * done.
      * rewrite (found_before_skip _ _ (i + 1 - len p + 1)); [| lia |].
        { rewrite found_before_hit; [|lia|].
          - rewrite Hpos. by replace (i - j) with (i + 1 - len p) by lia.
          - apply occurs_ends_with; [done|]. split; [lia|].
            by replace (i + 1 - len p + len p) with (i + 1) by lia. }
        intros s Hs. eapply shift_safe; [exact Hext|exact Hn|lia].
      * lia.
      * rewrite app_assoc. eapply trace_ok_snoc; [apply Htr1|lia| |done].
        repeat split; simpl; lia.
      * intros _. by destruct steps.
    + destruct (scan_match_more t p failure i j c mp positions steps Hmp x)
        as (s1 & ->); [done..|].
      eexists. split; [done|]. split; [|split; [left; done|simpl; lia]].
      split; cbn [i_ j_ comparisons_ maxPrefix_ positions_ steps_].
      * lia.
      * lia.
      * done.
      * by rewrite len_grown.
      * rewrite Hpos. f_equal. lia.
      * lia.
      * apply Htr1.
      * intros _. by destruct steps.
  - assert (get t i ≠ get p j) as Hne' by congruence.
    destruct (decide (0 < j)) as [Hj0|Hj0].
    + destruct (table_ok_entry p failure _ (j - 1) Hok)
        as (fv & Hfv & _ & Hn); [lia|].
      replace (j - 1 + 1) with j in Hn by lia.
      destruct (scan_mismatch_shift t p failure i j c mp positions steps Hmp x y fv)
        as (s1 & s2 & ->); [done..|].
      eexists. split; [done|]. pose proof Hn as (Hfv0 & Hfvb & _).
      split; [|split; [right; simpl; lia|simpl; lia]].
      split; cbn [i_ j_ comparisons_ maxPrefix_ positions_ steps_].
      * lia.
      * lia.
      * eapply ends_with_shrink; eauto.
      * done.
      * rewrite Hpos. symmetry. apply found_before_skip; [lia|].
        intros s Hs. destruct (decide (s = i - j)) as [->|].
        { apply mismatch_safe; [done|lia|done]. }
        eapply shift_safe; [exact Hij|exact Hn|lia].
      * lia.
      * rewrite app_assoc. eapply (trace_ok_snoc (c + 1)); [|lia| |done].
        { eapply trace_ok_snoc; [exact Htr|lia| |done].
          repeat split; simpl; lia. }
        repeat split; simpl; lia.
      * intros _. by destruct steps.
    + assert (j = 0) as -> by lia.
      destruct (scan_mismatch_skip t p failure i 0 c mp positions steps Hmp x y)
        as (s1 & ->); [done..|].
      eexists. split; [done|]. split; [|split; [left; done|simpl; lia]].
      split; cbn [i_ j_ comparisons_ maxPrefix_ positions_ steps_].
      * lia.
      * lia.
      * apply ends_with_zero. lia.
      * done.
      * rewrite Hpos. symmetry.
        replace (i + 1 - 0) with (i - 0 + 1) by lia.
        apply found_before_skip; [lia|].
        intros s Hs. assert (s = i - 0) as -> by lia.
        apply mismatch_safe; [done|lia|done].
      * lia.
      * eapply trace_ok_snoc; [exact Htr|lia| |done].
        repeat split; simpl; lia.
      * intros _. by destruct steps.
Qed.

Lemma reachable_inv st : reachable t p failure st → scan_inv t p st.
Proof.
  induction 1 as [|st st' _ IH Hi Hrun]; [apply scan_inv_init|].
  destruct (scan_iteration_inv st IH Hi) as (st'' & Hrun' & Hinv & _).
  congruence.
Qed.

Lemma scan_loop_spec :
  ∀ (fuel : nat) st,
    scan_inv t p st → 2 * (len t - i_ st) + j_ st < Z.of_nat fuel →
    ∃ st', scan_loop fuel t p failure st = Done st' ∧
           scan_inv t p st' ∧ i_ st' = len t.
Proof.
  induction fuel as [|fuel IH]; intros st Hinv Hfuel.
  { pose proof (inv_j _ _ _ Hinv). pose proof (inv_i _ _ _ Hinv). lia. }
  cbn [scan_loop]. destruct (Z.ltb_spec (i_ st) (len t)) as [Hi|Hi].
  - destruct (scan_iteration_inv st Hinv Hi) as (st' & -> & Hinv' & Hd & Hj).
    rewrite bind_Done. apply IH; [done|].
    destruct Hd as [Hd|[Hd1 Hd2]]; lia.
  - exists st. split; [done|]. split; [done|]. pose proof (inv_i _ _ _ Hinv). lia.
Qed.

(** At the end of the scan every occurrence has been reported. *)
Lemma scan_inv_final st :
  scan_inv t p st → i_ st = len t → positions_ st = brute_force t p.
Proof.
  intros Hinv Hi. rewrite (inv_positions _ _ _ Hinv), Hi. unfold brute_force.
  pose proof (inv_j _ _ _ Hinv). pose proof (inv_i _ _ _ Hinv).
  destruct (decide (len t - len p + 1 ≤ 0)) as [Hshort|Hfit].
  - rewrite (seqZ_nil _ (len t - len p + 1)) by done.
    apply filter_none. apply Forall_seqZ. intros s Hs Hocc.
    apply occurs_ends_with in Hocc as [_ (_ & ? & _)]; [lia|done].
  - apply found_before_skip; [lia|]. intros s Hs Hocc.
    apply occurs_ends_with in Hocc as [_ (_ & ? & _)]; [lia|done].
Qed.
End Scan.

(** ** More fuel never changes an answer *)

Lemma refines_refl {A} (r : outcome A) : refines r r.
Proof. by right. Qed.

Lemma refines_bind {A B} (c c' : outcome A) (k k' : A → outcome B) :
  refines c c' → (∀ a, refines (k a) (k' a)) → refines (c ≫= k) (c' ≫= k').
Proof.
  intros [->| ->] Hk; [by left|]. destruct c'; [apply Hk|by right|by right].
Qed.

Lemma refines_Done {A} (r r' : outcome A) (a : A) :
  refines r r' → r = Done a → r' = Done a.
Proof. intros [->|<-] H; [done|done]. Qed.

Lemma fallback_mono p failure i (fl fl' : nat) :
  (fl ≤ fl')%nat →
  ∀ j, refines (fallback fl p failure i j) (fallback fl' p failure i j).
Proof.
  revert fl'. induction fl as [|fl IH]; intros fl' Hle j; [by left|].
  destruct fl' as [|fl']; [lia|]. cbn [fallback].
  destruct (j >? 0); [|apply refines_refl].
  apply refines_bind; [apply refines_refl|]. intros x.
  apply refines_bind; [apply refines_refl|]. intros y.
  destruct (negb (Ascii.eqb x y)); [|apply refines_refl].
  apply refines_bind; [apply refines_refl|]. intros j'. apply IH. lia.
Qed.

Lemma failure_body_mono p (fl fl' : nat) i s :
  (fl ≤ fl')%nat → refines (failure_body fl p i s) (failure_body fl' p i s).
Proof.
  intros Hle. destruct s as [j failure]. unfold failure_body.
  apply refines_bind; [apply refines_refl|]. intros x.
  apply refines_bind; [apply refines_refl|]. intros y.
  destruct (Ascii.eqb x y); [apply refines_refl|].
  apply refines_bind; [by apply fallback_mono|]. intros j'. apply refines_refl.
Qed.

Lemma for_range_mono {S} (body body' : Z → S → outcome S) :
  (∀ k s, refines (body k s) (body' k s)) →
  ∀ ks s, refines (for_range ks body s) (for_range ks body' s).
Proof.
  intros Hb. induction ks as [|k ks IH]; intros s; [apply refines_refl|].
  cbn [for_range]. by apply refines_bind.
Qed.

Lemma failure_table_mono p (fl fl' : nat) :
  (fl ≤ fl')%nat → refines (failure_table fl p) (failure_table fl' p).
Proof.
  intros Hle. unfold failure_table.
  apply refines_bind; [apply refines_refl|]. intros failure.
  apply refines_bind; [|intros [? ?]; apply refines_refl].
  apply for_range_mono. intros k s. by apply failure_body_mono.
Qed.

Lemma scan_loop_mono t p failure (fl fl' : nat) :
  (fl ≤ fl')%nat →
  ∀ st, refines (scan_loop fl t p failure st) (scan_loop fl' t p failure st).
Proof.
  revert fl'. induction fl as [|fl IH]; intros fl' Hle st; [by left|].
  destruct fl' as [|fl']; [lia|]. cbn [scan_loop].
  destruct (i_ st <? len t); [|apply refines_refl].
  apply refines_bind; [apply refines_refl|]. intros st'. apply IH. lia.
Qed.

Lemma searchKMP_mono text pattern (fl fl' : nat) :
  (fl ≤ fl')%nat → refines (searchKMP fl text pattern) (searchKMP fl' text pattern).
Proof.
  intros Hle. unfold searchKMP, buildFailureFunction.
  destruct (String.eqb pattern ""); [apply refines_refl|].
  destruct (String.eqb text ""); [apply refines_refl|].
  apply refines_bind; [by apply failure_table_mono|]. intros failure.
  apply refines_bind; [by apply scan_loop_mono|]. intros st. apply refines_refl.
Qed.

(** ** The whole run *)

Lemma scan_loop_reachable t p failure :
  ∀ (fuel : nat) st st',
    reachable t p failure st → scan_loop fuel t p failure st = Done st' →
    reachable t p failure st'.
Proof.
  induction fuel as [|fuel IH]; intros st st' Hst Hrun; [done|].
  cbn [scan_loop] in Hrun. destruct (Z.ltb_spec (i_ st) (len t)) as [Hi|Hi].
  - destruct (scan_iteration t p failure st) as [st1| |] eqn:E; [|done|done].
    rewrite bind_Done in Hrun. eapply IH; [|exact Hrun]. by eapply reach_step.
  - congruence.
Qed.

Lemma buildFailureFunction_run pattern (fuel : nat) :
  pattern ≠ EmptyString → len (bytes pattern) ≤ Z.of_nat fuel →
  ∃ failure, buildFailureFunction fuel pattern = Done failure ∧
             table_ok (bytes pattern) failure (len (bytes pattern)).
Proof.
  intros Hp Hfuel. apply failure_table_spec; [done|by apply len_bytes_pos].
Qed.

Lemma searchKMP_run text pattern (fuel : nat) :
  text ≠ EmptyString → pattern ≠ EmptyString →
  (fuel_bound text pattern ≤ fuel)%nat →
  ∃ failure st,
    buildFailureFunction fuel pattern = Done failure ∧
    table_ok (bytes pattern) failure (len (bytes pattern)) ∧
    reachable (bytes text) (bytes pattern) failure st ∧
    scan_inv (bytes text) (bytes pattern) st ∧
    i_ st = len (bytes text) ∧
    searchKMP fuel text pattern =
      Done (KMPResult.mk failure (steps_ st) (len (positions_ st) >? 0)
              (positions_ st) (comparisons_ st) "").
Proof.
  intros Ht Hp Hfuel. unfold fuel_bound in Hfuel.
  pose proof (len_bytes_pos _ Ht). pose proof (len_bytes_pos _ Hp) as Hm.
  destruct (buildFailureFunction_run pattern fuel Hp) as (failure & Hbuild & Hok); [lia|].
  destruct (scan_loop_spec (bytes text) (bytes pattern) failure Hm Hok fuel
              (scan_init (len (bytes text))))
    as (st & Hrun & Hinv & Hi); [by apply scan_inv_init|simpl; lia|].
  exists failure, st. split; [done|]. split; [done|]. split.
  { eapply scan_loop_reachable; [apply reach_init|exact Hrun]. }
  split; [done|]. split; [done|]. unfold searchKMP.
  apply String.eqb_neq in Ht, Hp. rewrite Ht, Hp, Hbuild, bind_Done, Hrun. done.
Qed.

(** The first step an iteration emits is the comparison at the cursors. *)
Lemma scan_iteration_first_step t p failure st st' :
  0 < len p → table_ok p failure (len p) → scan_inv t p st → i_ st < len t →
  scan_iteration t p failure st = Done st' →
  ∃ s rest, steps_ st' = steps_ st ++ s :: rest ∧
            Step.TextIndex s = i_ st ∧ Step.PatternIndex s = j_ st ∧
            Step.Shift s = false ∧ Step.Comparisons s = comparisons_ st + 1.
Proof.
  intros Hm Hok Hinv Hi Hrun. destruct st as [i j c mp positions steps].
  destruct Hinv as [Hj Hij _ Hmp _ _ _ _];
    cbn [i_ j_ comparisons_ maxPrefix_ positions_ steps_] in *.
  destruct (get_in_range t i) as [x Hx]; [lia|].
  destruct (get_in_range p j) as [y Hy]; [lia|].
  destruct (decide (x = y)) as [<-|Hxy]; [destruct (decide (j + 1 = len p))|
    destruct (decide (0 < j))].
  - destruct (table_ok_entry p failure _ (len p - 1) Hok) as (fv & Hfv & _); [lia|].
    destruct (scan_match_full t p failure i j c mp positions steps Hmp x fv)
      as (s1 & s2 & mp' & Heq & _); [done..|lia|done|].
    rewrite Heq in Hrun. injection Hrun as <-. simpl. eauto 10.
  - destruct (scan_match_more t p failure i j c mp positions steps Hmp x)
      as (s1 & Heq); [done..|].
    rewrite Heq in Hrun. injection Hrun as <-. simpl. eauto 10.
  - destruct (table_ok_entry p failure _ (j - 1) Hok) as (fv & Hfv & _); [lia|].
    destruct (scan_mismatch_shift t p failure i j c mp positions steps Hmp x y fv)
      as (s1 & s2 & Heq); [done..|].
    rewrite Heq in Hrun. injection Hrun as <-. simpl. eauto 10.
  - assert (j = 0) as -> by lia.
    destruct (scan_mismatch_skip t p failure i 0 c mp positions steps Hmp x y)
      as (s1 & Heq); [done..|].
    rewrite Heq in Hrun. injection Hrun as <-. simpl. eauto 10.
Qed.

(** ** Results about the two entry points *)

Lemma buildFailureFunction_Done_ok pattern (fuel : nat) failure :
  pattern ≠ EmptyString → buildFailureFunction fuel pattern = Done failure →
  table_ok (bytes pattern) failure (len (bytes pattern)).
Proof.
  intros Hp Hrun.
  set (big := (fuel + length (bytes pattern))%nat).
  destruct (buildFailureFunction_run pattern big Hp) as (failure' & Hbig & Hok).
  { unfold big, len. lia. }
  assert (buildFailureFunction big pattern = Done failure) as Hsame.
  { eapply refines_Done; [|exact Hrun]. apply failure_table_mono. unfold big. lia. }
  congruence.
Qed.

Lemma searchKMP_total text pattern (fuel : nat) :
  (fuel_bound text pattern ≤ fuel)%nat → ∃ r, searchKMP fuel text pattern = Done r.
Proof.
  intros Hfuel. destruct (decide (pattern = EmptyString)) as [->|Hp]; [by eexists|].
  destruct (decide (text = EmptyString)) as [->|Ht].
  { unfold searchKMP. apply String.eqb_neq in Hp. rewrite Hp. by eexists. }
  destruct (searchKMP_run text pattern fuel Ht Hp Hfuel) as (? & ? & _ & _ & _ & _ & _ & ->).
  by eexists.
Qed.

(** The comparison counter stays below twice the length of the text. *)
Lemma searchKMP_counter_bound text pattern (fuel : nat) r :
  text ≠ EmptyString → pattern ≠ EmptyString →
  searchKMP fuel text pattern = Done r →
  0 ≤ KMPResult.Comparisons r ≤ 2 * len (bytes text) ∧
  Forall (λ s, Step.Comparisons s ≤ 2 * len (bytes text)) (KMPResult.Steps r).
Proof.
  intros Ht Hp Hrun.
  set (big := (fuel + fuel_bound text pattern)%nat).
  destruct (searchKMP_run text pattern big Ht Hp)
    as (failure & st & _ & _ & _ & Hinv & Hi & Hbig); [unfold big; lia|].
  assert (searchKMP big text pattern = Done r) as Hsame.
  { eapply refines_Done; [|exact Hrun]. apply searchKMP_mono. unfold big. lia. }
  rewrite Hsame in Hbig. injection Hbig as ->.
  cbn [KMPResult.Comparisons KMPResult.Steps].
  pose proof (inv_comparisons _ _ _ Hinv) as Hc. pose proof (inv_j _ _ _ Hinv).
  split; [lia|]. destruct (inv_trace _ _ _ Hinv) as (Hall & _).
  eapply Forall_impl; [exact Hall|]. intros s (_ & _ & ? & _). simpl. lia.
Qed.

(** The two scenarios of the specification that have no claim of their own. *)
Example scenario_ababcabab :
  ∃ r, searchKMP 48 "ABABDABACDABABCABAB" "ABABCABAB" = Done r ∧
       KMPResult.FailureFunction r = [0; 0; 1; 2; 0; 1; 2; 3; 4] ∧
       KMPResult.Found r = true ∧ KMPResult.Positions r = [10].
Proof. eexists. split; [vm_compute; reflexivity|]. repeat split. Qed.

Example scenario_abc_xyz :
  ∃ r, searchKMP 10 "abc" "xyz" = Done r ∧
       KMPResult.Found r = false ∧ KMPResult.Positions r = [] ∧
       length (KMPResult.Steps r) = 3%nat ∧ KMPResult.Comparisons r = 3 ∧
       Forall (λ s, Step.Match s = false ∧ Step.Shift s = false ∧
                    Step.PatternIndex s = 0) (KMPResult.Steps r).
Proof.
  eexists. split; [vm_compute; reflexivity|].
  repeat split; repeat constructor.
Qed.

(** C1: for non-empty text and pattern, the reported positions are exactly
    the list a brute-force scan produces; a position is reported if and
    only if the pattern occurs there. *)
Theorem searchKMP_positions_brute_force text pattern (fuel : nat) :
  text ≠ EmptyString → pattern ≠ EmptyString →
  (fuel_bound text pattern ≤ fuel)%nat →
  ∃ r, searchKMP fuel text pattern = Done r ∧
       KMPResult.Positions r = brute_force (bytes text) (bytes pattern) ∧
       ∀ s, s ∈ KMPResult.Positions r ↔ occurs (bytes text) (bytes pattern) s.
Proof.
  intros Ht Hp Hfuel.
  destruct (searchKMP_run text pattern fuel Ht Hp Hfuel)
    as (failure & st & _ & Hok & _ & Hinv & Hi & ->).
  pose proof (len_bytes_pos _ Hp) as Hm.
  eexists. split; [done|]. cbn [KMPResult.Positions].
  rewrite (scan_inv_final _ _ Hm st Hinv Hi). split; [done|].
  intros s. unfold brute_force. rewrite list_elem_of_filter, elem_of_seqZ.
  split; [by intros [? _]|]. intros Hocc. split; [done|].
  apply occurs_ends_with in Hocc as [? (_ & ? & _)]; [lia|done].
Qed.

Lemma searchKMP_positions_brute_force_witness :
  ∃ r, searchKMP 11 "aaaa" "aa" = Done r ∧
       KMPResult.Positions r = brute_force (bytes "aaaa") (bytes "aa") ∧
       ∀ s, s ∈ KMPResult.Positions r ↔ occurs (bytes "aaaa") (bytes "aa") s.
Proof.
  apply (searchKMP_positions_brute_force "aaaa" "aa" 11);
    [discriminate|discriminate|vm_compute; lia].
Defined.

(** C2: for a non-empty pattern the table has the length of the pattern,
    starts with 0, has [0 <= failure[i] <= i] everywhere, and [failure[i]]
    is the length of the longest proper prefix of the pattern that is also a
    suffix of [pattern[0..i]]. *)
Theorem buildFailureFunction_longest_border pattern (fuel : nat) :
  pattern ≠ EmptyString → len (bytes pattern) ≤ Z.of_nat fuel →
  ∃ failure, buildFailureFunction fuel pattern = Done failure ∧
    len failure = len (bytes pattern) ∧
    get failure 0 = Some 0 ∧
    ∀ i, 0 ≤ i < len (bytes pattern) →
      ∃ f, get failure i = Some f ∧ 0 ≤ f ≤ i ∧
           longest_border (take (Z.to_nat (i + 1)) (bytes pattern)) f.
Proof.
  intros Hp Hfuel. pose proof (len_bytes_pos _ Hp) as Hm.
  destruct (buildFailureFunction_run pattern fuel Hp Hfuel) as (failure & -> & Hok).
  exists failure. split; [done|]. split; [apply Hok|]. split.
  - destruct (table_ok_entry _ _ _ 0 Hok) as (f & Hf & _ & (? & _)); [lia|].
    rewrite Hf. f_equal. lia.
  - intros i Hi. destruct (table_ok_entry _ _ _ i Hok) as (f & Hf & _ & Hn); [lia|].
    exists f. split; [done|]. split; [destruct Hn; lia|].
    apply next_of_longest_border; [lia|done].
Qed.

Lemma buildFailureFunction_longest_border_witness :
  ∃ failure, buildFailureFunction 9 "ABABCABAB" = Done failure ∧
    len failure = len (bytes "ABABCABAB") ∧
    get failure 0 = Some 0 ∧
    ∀ i, 0 ≤ i < len (bytes "ABABCABAB") →
      ∃ f, get failure i = Some f ∧ 0 ≤ f ≤ i ∧
           longest_border (take (Z.to_nat (i + 1)) (bytes "ABABCABAB")) f.
Proof.
  apply (buildFailureFunction_longest_border "ABABCABAB" 9);
    [discriminate|vm_compute; discriminate].
Defined.

(** C3: in an iteration where the comparison matches and the pattern
    cursor reaches the pattern length, the start [i - m] is appended to the
    positions, every snapshot entry of the matched span becomes its 1-based
    offset in the span, a second step is emitted with shift set, highlight
    -1, the failure value [failure[m-1]] and the relabelled snapshot, and
    [j] becomes [failure[m-1]] ([i] is the cursor after it advanced). *)
Theorem full_match_iteration text pattern (fuel : nat) failure st :
  pattern ≠ EmptyString → buildFailureFunction fuel pattern = Done failure →
  reachable (bytes text) (bytes pattern) failure st →
  i_ st < len (bytes text) →
  get (bytes text) (i_ st) = get (bytes pattern) (j_ st) →
  j_ st + 1 = len (bytes pattern) →
  ∃ st' s1 s2 fv,
    scan_iteration (bytes text) (bytes pattern) failure st = Done st' ∧
    get failure (len (bytes pattern) - 1) = Some fv ∧
    i_ st' = i_ st + 1 ∧
    positions_ st' = positions_ st ++ [i_ st' - len (bytes pattern)] ∧
    0 ≤ i_ st' - len (bytes pattern) ∧
    (∀ k, i_ st' - len (bytes pattern) ≤ k ≤ i_ st' - 1 →
          get (maxPrefix_ st') k = Some (k - (i_ st' - len (bytes pattern)) + 1)) ∧
    steps_ st' = steps_ st ++ [s1; s2] ∧
    Step.Match s1 = true ∧ Step.Shift s1 = false ∧
    Step.Match s2 = true ∧ Step.Shift s2 = true ∧
    Step.HighlightPrefixIndex s2 = -1 ∧
    Step.FailureValue s2 = fv ∧
    Step.PrefixFunction s2 = maxPrefix_ st' ∧
    Step.Comparisons s2 = comparisons_ st + 1 ∧
    j_ st' = fv.
Proof.
  intros Hp Hbuild Hreach Hi Heq Hfull.
  pose proof (len_bytes_pos _ Hp) as Hm.
  pose proof (buildFailureFunction_Done_ok _ _ _ Hp Hbuild) as Hok.
  pose proof (reachable_inv _ _ _ Hm Hok _ Hreach) as Hinv.
  destruct st as [i j c mp positions steps].
  destruct Hinv as [Hj Hij _ Hmp _ _ _ _];
    cbn [i_ j_ comparisons_ maxPrefix_ positions_ steps_] in *.
  destruct (get_in_range (bytes text) i) as [x Hx]; [lia|].
  destruct (table_ok_entry _ _ _ (len (bytes pattern) - 1) Hok) as (fv & Hfv & _); [lia|].
  destruct (scan_match_full (bytes text) (bytes pattern) failure i j c mp
              positions steps Hmp x fv)
    as (status1 & status2 & mp' & -> & _ & Hin & _); [congruence..|lia|done|].
  do 4 eexists. split; [done|]. cbn [i_ j_ comparisons_ maxPrefix_ positions_ steps_].
  split; [done|]. split; [done|]. split; [done|]. split; [lia|].
  split; [intros k Hk; apply Hin; lia|]. simpl. done.
Qed.

Lemma full_match_iteration_witness :
  ∃ st' s1 s2 fv,
    scan_iteration (bytes "aa") (bytes "a") [0] (scan_init 2) = Done st' ∧
    get [0] (len (bytes "a") - 1) = Some fv ∧
    i_ st' = i_ (scan_init 2) + 1 ∧
    positions_ st' = positions_ (scan_init 2) ++ [i_ st' - len (bytes "a")] ∧
    0 ≤ i_ st' - len (bytes "a") ∧
    (∀ k, i_ st' - len (bytes "a") ≤ k ≤ i_ st' - 1 →
          get (maxPrefix_ st') k = Some (k - (i_ st' - len (bytes "a")) + 1)) ∧
    steps_ st' = steps_ (scan_init 2) ++ [s1; s2] ∧
    Step.Match s1 = true ∧ Step.Shift s1 = false ∧
    Step.Match s2 = true ∧ Step.Shift s2 = true ∧
    Step.HighlightPrefixIndex s2 = -1 ∧
    Step.FailureValue s2 = fv ∧
    Step.PrefixFunction s2 = maxPrefix_ st' ∧
    Step.Comparisons s2 = comparisons_ (scan_init 2) + 1 ∧
    j_ st' = fv.
Proof.
  apply (full_match_iteration "aa" "a" 1 [0] (scan_init 2));
    [discriminate|reflexivity|apply (reach_init (bytes "aa"))
    |reflexivity|reflexivity|reflexivity].
Defined.

(** The relabelling can lower an entry: scanning ["aaa"] for ["aa"], the
    entry of position 1 is 2 before the second full match and 1 after. *)
Example relabel_lowers_entry :
  let st := after_iterations 2 "aaa" "aa" [0; 1] in
  ∃ st', reachable (bytes "aaa") (bytes "aa") [0; 1] st ∧
         scan_iteration (bytes "aaa") (bytes "aa") [0; 1] st = Done st' ∧
         get (maxPrefix_ st) 1 = Some 2 ∧ get (maxPrefix_ st') 1 = Some 1.
Proof.
  eexists. split; [|split; [vm_compute; reflexivity|split; reflexivity]].
  eapply reach_step with (st := after_iterations 1 "aaa" "aa" [0; 1]);
    [|reflexivity|vm_compute; reflexivity].
  eapply reach_step; [apply reach_init|reflexivity|vm_compute; reflexivity].
Qed.

(** C4: in an iteration where the bytes differ and [j > 0], exactly two
    steps are emitted: the mismatch (no shift, highlight [i], failure value
    [failure[j-1]]) and, with [j] reset to [failure[j-1]], the realignment
    (shift, highlight [i], the new pattern cursor, a copy of the snapshot);
    [i] is unchanged and the next iteration compares [text[i]] with the new
    [pattern[j]]. *)
Theorem mismatch_shift_iteration text pattern (fuel : nat) failure st :
  pattern ≠ EmptyString → buildFailureFunction fuel pattern = Done failure →
  reachable (bytes text) (bytes pattern) failure st →
  i_ st < len (bytes text) →
  get (bytes text) (i_ st) ≠ get (bytes pattern) (j_ st) →
  0 < j_ st →
  ∃ st' s1 s2 fv,
    scan_iteration (bytes text) (bytes pattern) failure st = Done st' ∧
    get failure (j_ st - 1) = Some fv ∧
    steps_ st' = steps_ st ++ [s1; s2] ∧
    Step.TextIndex s1 = i_ st ∧ Step.PatternIndex s1 = j_ st ∧
    Step.Match s1 = false ∧ Step.Shift s1 = false ∧
    Step.HighlightPrefixIndex s1 = i_ st ∧ Step.FailureValue s1 = fv ∧
    Step.TextIndex s2 = i_ st ∧ Step.PatternIndex s2 = fv ∧
    Step.Match s2 = false ∧ Step.Shift s2 = true ∧
    Step.HighlightPrefixIndex s2 = i_ st ∧
    Step.PrefixFunction s2 = maxPrefix_ st ∧
    Step.Comparisons s1 = comparisons_ st + 1 ∧
    Step.Comparisons s2 = comparisons_ st + 1 ∧
    i_ st' = i_ st ∧ j_ st' = fv ∧ 0 ≤ fv < j_ st ∧
    maxPrefix_ st' = maxPrefix_ st ∧ positions_ st' = positions_ st ∧
    ∃ st'' s3 rest,
      scan_iteration (bytes text) (bytes pattern) failure st' = Done st'' ∧
      steps_ st'' = steps_ st' ++ s3 :: rest ∧
      Step.TextIndex s3 = i_ st ∧ Step.PatternIndex s3 = fv ∧
      Step.Shift s3 = false.
Proof.
  intros Hp Hbuild Hreach Hi Hne Hj0.
  pose proof (len_bytes_pos _ Hp) as Hm.
  pose proof (buildFailureFunction_Done_ok _ _ _ Hp Hbuild) as Hok.
  pose proof (reachable_inv _ _ _ Hm Hok _ Hreach) as Hinv.
  destruct (scan_iteration_inv _ _ _ Hm Hok st Hinv Hi) as (st' & Hrun & Hinv' & _).
  assert (reachable (bytes text) (bytes pattern) failure st') as Hreach'
    by (by eapply reach_step).
  destruct st as [i j c mp positions steps].
  destruct Hinv as [Hj Hij _ Hmp _ _ _ _];
    cbn [i_ j_ comparisons_ maxPrefix_ positions_ steps_] in *.
  destruct (get_in_range (bytes text) i) as [x Hx]; [lia|].
  destruct (get_in_range (bytes pattern) j) as [y Hy]; [lia|].
  destruct (table_ok_entry _ _ _ (j - 1) Hok) as (fv & Hfv & _ & Hn); [lia|].
  replace (j - 1 + 1) with j in Hn by lia. destruct Hn as (Hfvj & _).
  destruct (scan_mismatch_shift (bytes text) (bytes pattern) failure i j c mp
              positions steps Hmp x y fv)
    as (status1 & status2 & Heq); [done|done|congruence|done|done|].
  rewrite Heq in Hrun. injection Hrun as <-.
  destruct (scan_iteration_inv _ _ _ Hm Hok _ Hinv') as (st'' & Hrun' & _);
    [simpl; lia|].
  destruct (scan_iteration_first_step _ _ _ _ _ Hm Hok Hinv' ltac:(simpl; lia) Hrun')
    as (s3 & rest & Hsteps & Ht3 & Hp3 & Hs3 & _).
  do 4 eexists. split; [done|]. cbn [i_ j_ comparisons_ maxPrefix_ positions_ steps_].
  split; [done|]. split; [done|]. simpl.
  do 16 (split; [done|]). split; [lia|]. split; [done|]. split; [done|].
  exists st'', s3, rest. done.
Qed.

Lemma mismatch_shift_iteration_witness :
  let st := after_iterations 1 "ab" "aa" [0; 1] in
  ∃ st' s1 s2 fv,
    scan_iteration (bytes "ab") (bytes "aa") [0; 1] st = Done st' ∧
    get [0; 1] (j_ st - 1) = Some fv ∧
    steps_ st' = steps_ st ++ [s1; s2] ∧
    Step.TextIndex s1 = i_ st ∧ Step.PatternIndex s1 = j_ st ∧
    Step.Match s1 = false ∧ Step.Shift s1 = false ∧
    Step.HighlightPrefixIndex s1 = i_ st ∧ Step.FailureValue s1 = fv ∧
    Step.TextIndex s2 = i_ st ∧ Step.PatternIndex s2 = fv ∧
    Step.Match s2 = false ∧ Step.Shift s2 = true ∧
    Step.HighlightPrefixIndex s2 = i_ st ∧
    Step.PrefixFunction s2 = maxPrefix_ st ∧
    Step.Comparisons s1 = comparisons_ st + 1 ∧
    Step.Comparisons s2 = comparisons_ st + 1 ∧
    i_ st' = i_ st ∧ j_ st' = fv ∧ 0 ≤ fv < j_ st ∧
    maxPrefix_ st' = maxPrefix_ st ∧ positions_ st' = positions_ st ∧
    ∃ st'' s3 rest,
      scan_iteration (bytes "ab") (bytes "aa") [0; 1] st' = Done st'' ∧
      steps_ st'' = steps_ st' ++ s3 :: rest ∧
      Step.TextIndex s3 = i_ st ∧ Step.PatternIndex s3 = fv ∧
      Step.Shift s3 = false.
Proof.
  apply (mismatch_shift_iteration "ab" "aa" 2 [0; 1]
           (after_iterations 1 "ab" "aa" [0; 1])).
  - discriminate.
  - reflexivity.
  - eapply reach_step; [apply reach_init|reflexivity|vm_compute; reflexivity].
  - reflexivity.
  - vm_compute. discriminate.
  - reflexivity.
Defined.

(** C5: with an empty pattern the result carries only the empty-pattern
    error; with a non-empty pattern and an empty text, only the empty-text
    error.  Both hold for every amount of fuel, zero included: no loop has
    run. *)
Theorem searchKMP_empty_input :
  (∀ (fuel : nat) text,
     searchKMP fuel text "" =
     Done (KMPResult.mk [] [] false [] 0 "Pattern cannot be empty")) ∧
  (∀ (fuel : nat) pattern, pattern ≠ EmptyString →
     searchKMP fuel "" pattern =
     Done (KMPResult.mk [] [] false [] 0 "Text cannot be empty")).
Proof.
  split; [done|]. intros fuel pattern Hp. unfold searchKMP.
  apply String.eqb_neq in Hp. by rewrite Hp.
Qed.

Lemma searchKMP_empty_input_witness :
  searchKMP 0 "a" "" = Done (KMPResult.mk [] [] false [] 0 "Pattern cannot be empty") ∧
  searchKMP 0 "" "a" = Done (KMPResult.mk [] [] false [] 0 "Text cannot be empty").
Proof.
  split.
  - apply (proj1 searchKMP_empty_input 0%nat "a"%string).
  - apply (proj2 searchKMP_empty_input 0%nat "a"%string). discriminate.
Defined.

(** C6: for non-empty text and pattern the comparison counters of the steps
    never go down along the trace, and the counter of the result is the
    counter of the last step. *)
Theorem searchKMP_comparisons_monotone text pattern (fuel : nat) :
  text ≠ EmptyString → pattern ≠ EmptyString →
  (fuel_bound text pattern ≤ fuel)%nat →
  ∃ r, searchKMP fuel text pattern = Done r ∧
       nondecreasing (Step.Comparisons <$> KMPResult.Steps r) ∧
       ∃ s, last (KMPResult.Steps r) = Some s ∧
            Step.Comparisons s = KMPResult.Comparisons r.
Proof.
  intros Ht Hp Hfuel.
  destruct (searchKMP_run text pattern fuel Ht Hp Hfuel)
    as (failure & st & _ & _ & _ & Hinv & Hi & ->).
  eexists. split; [done|]. cbn [KMPResult.Steps KMPResult.Comparisons].
  destruct (inv_trace _ _ _ Hinv) as (_ & Hsort & Hlast). split; [done|].
  destruct (last (steps_ st)) as [s|] eqn:E; [by exists s|].
  apply last_None in E. destruct (inv_nonempty _ _ _ Hinv); [|done].
  rewrite Hi. by apply len_bytes_pos.
Qed.

Lemma searchKMP_comparisons_monotone_witness :
  ∃ r, searchKMP 16 "abcab" "abd" = Done r ∧
       nondecreasing (Step.Comparisons <$> KMPResult.Steps r) ∧
       ∃ s, last (KMPResult.Steps r) = Some s ∧
            Step.Comparisons s = KMPResult.Comparisons r.
Proof.
  apply (searchKMP_comparisons_monotone "abcab" "abd" 16);
    [discriminate|discriminate|vm_compute; lia].
Defined.

(** C7: for non-empty text and pattern no index is ever out of range:
    neither function panics, whatever the fuel; at every loop test of the
    scan [0 <= j < len(pattern)] and [j <= i <= len(text)], so the bytes
    compared exist and the iteration completes; the span relabelled after a
    full match lies in the text; and [failure[m-1] < m]. *)
Theorem searchKMP_in_bounds text pattern :
  text ≠ EmptyString → pattern ≠ EmptyString →
  (∀ fuel : nat, buildFailureFunction fuel pattern ≠ Panic ∧
                 searchKMP fuel text pattern ≠ Panic) ∧
  (∀ (fuel : nat) failure st,
     buildFailureFunction fuel pattern = Done failure →
     reachable (bytes text) (bytes pattern) failure st →
     (∃ f, get failure (len (bytes pattern) - 1) = Some f ∧
           0 ≤ f < len (bytes pattern)) ∧
     0 ≤ j_ st < len (bytes pattern) ∧
     j_ st ≤ i_ st ≤ len (bytes text) ∧
     len (maxPrefix_ st) = len (bytes text) ∧
     (i_ st < len (bytes text) →
      is_Some (get (bytes text) (i_ st)) ∧
      is_Some (get (bytes pattern) (j_ st)) ∧
      (j_ st + 1 = len (bytes pattern) →
       0 ≤ i_ st + 1 - len (bytes pattern) ∧ i_ st + 1 ≤ len (bytes text)) ∧
      ∃ st', scan_iteration (bytes text) (bytes pattern) failure st = Done st')).
Proof.
  intros Ht Hp. pose proof (len_bytes_pos _ Hp) as Hm. split.
  - intros fuel. set (big := (fuel + fuel_bound text pattern)%nat).
    destruct (searchKMP_run text pattern big Ht Hp) as (failure & st & Hb & _ & _ & _ & _ & Hs);
      [unfold big; lia|].
    split; intros Hpanic.
    + destruct (failure_table_mono (bytes pattern) fuel big) as [H|H];
        [unfold big; lia|..]; unfold buildFailureFunction in *; congruence.
    + destruct (searchKMP_mono text pattern fuel big) as [H|H];
        [unfold big; lia|..]; congruence.
  - intros fuel failure st Hbuild Hreach.
    pose proof (buildFailureFunction_Done_ok _ _ _ Hp Hbuild) as Hok.
    pose proof (reachable_inv _ _ _ Hm Hok _ Hreach) as Hinv.
    pose proof Hinv as [Hj Hij _ Hmp _ _ _ _]. split.
    { destruct (table_ok_entry _ _ _ (len (bytes pattern) - 1) Hok)
        as (f & Hf & _ & (? & _)); [lia|]. exists f. split; [done|lia]. }
    do 3 (split; [done|]). intros Hi.
    split; [apply get_in_range; lia|]. split; [apply get_in_range; lia|].
    split; [lia|].
    destruct (scan_iteration_inv _ _ _ Hm Hok st Hinv Hi) as (st' & Hrun & _). eauto.
Qed.

Lemma searchKMP_in_bounds_witness :
  (buildFailureFunction 11 "aa" ≠ Panic ∧ searchKMP 11 "aaaa" "aa" ≠ Panic) ∧
  0 ≤ j_ (scan_init 4) < len (bytes "aa") ∧
  is_Some (get (bytes "aaaa") (i_ (scan_init 4))) ∧
  is_Some (get (bytes "aa") (j_ (scan_init 4))) ∧
  ∃ st', scan_iteration (bytes "aaaa") (bytes "aa") [0; 1] (scan_init 4) = Done st'.
Proof.
  destruct (searchKMP_in_bounds "aaaa" "aa") as [Hpanic Hreach];
    [discriminate|discriminate|].
  split; [apply (Hpanic 11%nat)|].
  destruct (Hreach 2%nat [0; 1] (scan_init 4) eq_refl (reach_init (bytes "aaaa") _ _))
    as (_ & Hj & _ & _ & Hiter).
  split; [exact Hj|]. destruct Hiter as (Ht & Hp & _ & Hrun); [reflexivity|].
  split; [exact Ht|]. split; [exact Hp|exact Hrun].
Defined.

(** C8: searchKMP returns for every input once the fuel covers
    [2 * len(text)] scan iterations and [len(pattern)] fallback steps.  In
    each scan iteration [i] advances by one, or [i] stays and [j] strictly
    decreases; every table entry satisfies [0 <= failure[q] <= q], so the
    fallback [j = failure[j-1]] strictly decreases [j]. *)
Theorem searchKMP_terminates text pattern (fuel : nat) :
  (fuel_bound text pattern ≤ fuel)%nat →
  (∃ r, searchKMP fuel text pattern = Done r) ∧
  (pattern ≠ EmptyString →
   ∃ failure, buildFailureFunction fuel pattern = Done failure ∧
     (∀ q f, get failure q = Some f → 0 ≤ f ≤ q) ∧
     ∀ st, reachable (bytes text) (bytes pattern) failure st →
           i_ st < len (bytes text) →
           ∃ st', scan_iteration (bytes text) (bytes pattern) failure st = Done st' ∧
                  descends st st').
Proof.
  intros Hfuel. split; [by apply searchKMP_total|]. intros Hp.
  pose proof (len_bytes_pos _ Hp) as Hm.
  destruct (buildFailureFunction_run pattern fuel Hp) as (failure & Hbuild & Hok).
  { unfold fuel_bound in Hfuel. pose proof (len_nonneg (bytes text)). lia. }
  exists failure. split; [done|]. split.
  - intros q f Hq. pose proof (get_Some _ _ _ Hq) as Hr.
    destruct Hok as [Hlen Hok]. rewrite Hlen in Hr.
    destruct (Hok q Hr) as (f' & Hf' & (? & _)).
    assert (f' = f) as -> by congruence. lia.
  - intros st Hreach Hi.
    pose proof (reachable_inv _ _ _ Hm Hok _ Hreach) as Hinv.
    destruct (scan_iteration_inv _ _ _ Hm Hok st Hinv Hi) as (st' & ? & _ & ? & _).
    eauto.
Qed.

Lemma searchKMP_terminates_witness :
  ∃ r, searchKMP 11 "aaaa" "aa" = Done r.
Proof.
  apply (searchKMP_terminates "aaaa" "aa" 11). vm_compute. lia.
Defined.

(** C9: scanning ["aaaa"] for ["aa"] reports the overlapping occurrences
    0, 1 and 2: the table is [0; 1], and after a full match the next
    comparison is at the next text position with [j = failure[1] = 1]. *)
Theorem searchKMP_aaaa_aa (fuel : nat) :
  (fuel_bound "aaaa" "aa" ≤ fuel)%nat →
  ∃ r, searchKMP fuel "aaaa" "aa" = Done r ∧
       KMPResult.Positions r = [0; 1; 2] ∧
       KMPResult.FailureFunction r = [0; 1] ∧
       (λ s, (Step.TextIndex s, Step.PatternIndex s)) <$>
         filter (λ s, Step.Shift s = false) (KMPResult.Steps r)
       = [(0, 0); (1, 1); (2, 1); (3, 1)] ∧
       Step.FailureValue <$>
         filter (λ s, Step.Shift s = true) (KMPResult.Steps r)
       = [1; 1; 1].
Proof.
  intros Hfuel.
  destruct (searchKMP_mono "aaaa" "aa" 11 fuel) as [H|H].
  - revert Hfuel. vm_compute. lia.
  - vm_compute in H. discriminate.
  - rewrite <- H. eexists. split; [vm_compute; reflexivity|].
    repeat split; vm_compute; reflexivity.
Qed.

Lemma searchKMP_aaaa_aa_witness :
  ∃ r, searchKMP 11 "aaaa" "aa" = Done r ∧
       KMPResult.Positions r = [0; 1; 2] ∧
       KMPResult.FailureFunction r = [0; 1] ∧
       (λ s, (Step.TextIndex s, Step.PatternIndex s)) <$>
         filter (λ s, Step.Shift s = false) (KMPResult.Steps r)
       = [(0, 0); (1, 1); (2, 1); (3, 1)] ∧
       Step.FailureValue <$>
         filter (λ s, Step.Shift s = true) (KMPResult.Steps r)
       = [1; 1; 1].
Proof.
  apply (searchKMP_aaaa_aa 11). vm_compute. lia.
Defined.

(** The result does not depend on the fuel, once the fuel is enough. *)
Lemma searchKMP_fuel_independent text pattern (fuel1 fuel2 : nat) :
  (fuel_bound text pattern ≤ fuel1)%nat →
  (fuel_bound text pattern ≤ fuel2)%nat →
  ∃ r, searchKMP fuel1 text pattern = Done r ∧
       searchKMP fuel2 text pattern = Done r.
Proof.
  intros H1 H2.
  destruct (searchKMP_total text pattern _ (Nat.le_refl _)) as [r Hr].
  exists r. split; (eapply refines_Done; [|exact Hr]); by apply searchKMP_mono.
Qed.

(** ** The trace, step by step *)

Lemma index_inv {A} (l : list A) (i : Z) (x : A) :
  index l i = Done x → get l i = Some x.
Proof. unfold index. destruct (get l i); [|done]. by intros [= ->]. Qed.

Lemma scan_iteration_narrated t p failure st st' :
  scan_iteration t p failure st = Done st' →
  ∃ new, steps_ st' = steps_ st ++ new ∧
         Forall (λ s, narrate t p s = Some (Step.Status s)) new.
Proof.
  destruct st as [i j c mp positions steps]. unfold scan_iteration.
  destruct (index t i) as [x| |] eqn:Hx; [|done|done].
  destruct (index p j) as [y| |] eqn:Hy; [|done|done].
  apply index_inv in Hx, Hy. rewrite !bind_Done.
  destruct (Ascii.eqb x y) eqn:Exy.
  - destruct (index mp i) as [old| |]; [|done|done]. rewrite bind_Done.
    destruct (if j + 1 >? old then assign mp i (j + 1) else Done mp)
      as [mp1| |]; [|done|done]. rewrite bind_Done.
    destruct (index mp1 i) as [cur| |]; [|done|done]. rewrite bind_Done.
    destruct (assign _ i cur) as [pf| |]; [|done|done]. rewrite bind_Done.
    destruct (j + 1 =? len p).
    + destruct (for_range _ _ mp1) as [mp2| |]; [|done|done]. rewrite bind_Done.
      destruct (index failure (j + 1 - 1)) as [fv| |]; [|done|done].
      rewrite bind_Done. intros [= <-]. cbn [steps_].
      eexists [_; _]. split; [by rewrite <- app_assoc|].
      repeat constructor; unfold narrate; simpl.
      * by rewrite Hx, Hy.
      * replace (i + 1 - 1) with i by lia. rewrite Hx. simpl.
        by replace (i - (j + 1 - 1)) with (i + 1 - (j + 1)) by lia.
    + intros [= <-]. cbn [steps_]. eexists [_]. split; [done|].
      repeat constructor; unfold narrate; simpl. by rewrite Hx, Hy.
  - destruct (Z.gtb_spec j 0) as [Hj|Hj].
    + destruct (index failure (j - 1)) as [fv| |]; [|done|done].
      rewrite bind_Done. intros [= <-]. cbn [steps_].
      eexists [_; _]. split; [by rewrite <- app_assoc|].
      repeat constructor; unfold narrate; simpl.
      * rewrite Hx, Hy. simpl. destruct (Z.ltb_spec 0 j); [done|lia].
      * by rewrite Hx.
    + destruct (index p 0) as [p0| |] eqn:Hp0; [|done|done].
      apply index_inv in Hp0.
      rewrite bind_Done. intros [= <-]. cbn [steps_]. eexists [_]. split; [done|].
      repeat constructor; unfold narrate; simpl.
      rewrite Hx, Hy. simpl. destruct (Z.ltb_spec 0 j); [lia|].
      assert (j = 0) as -> by (apply get_Some in Hy; lia). congruence.
Qed.



Lemma seqZ_snoc (c : Z) : 0 ≤ c → seqZ 1 (c + 1) = seqZ 1 c ++ [c + 1].
Proof.
  intros Hc. rewrite seqZ_app by lia. f_equal.
  rewrite seqZ_cons, seqZ_nil by lia. f_equal. lia.
Qed.

Lemma filter_snoc_True {A} (P : A → Prop) `{∀ x, Decision (P x)} (l : list A) x :
  P x → filter P (l ++ [x]) = filter P l ++ [x].
Proof. intros. by rewrite filter_app, filter_cons_True, filter_nil. Qed.

Lemma filter_snoc_False {A} (P : A → Prop) `{∀ x, Decision (P x)} (l : list A) x :
  ¬ P x → filter P (l ++ [x]) = filter P l.
Proof. intros. by rewrite filter_app, filter_cons_False, filter_nil, app_nil_r. Qed.

Lemma Forall_get {A} (P : A → Prop) (l : list A) :
  Forall P l ↔ ∀ k x, get l k = Some x → P x.
Proof.
  rewrite Forall_lookup. split.
  - intros H k x Hk. pose proof (get_Some _ _ _ Hk).
    rewrite get_lookup in Hk by lia. eauto.
  - intros H k x Hk. apply (H (Z.of_nat k)). by rewrite get_of_nat.
Qed.

Lemma get_grown_ne (mp : list Z) (i j k : Z) :
  0 ≤ i → i ≠ k → get (grown mp i j) k = get mp k.
Proof.
  intros Hi Hne. unfold grown. destruct (get mp i); [|done].
  destruct (j + 1 >? z); [by apply get_insert_ne|done].
Qed.

Lemma grown_unvisited (mp : list Z) (i j : Z) :
  get mp i = Some 0 → 0 ≤ j → grown mp i j = <[Z.to_nat i := j + 1]> mp.
Proof.
  intros Hi Hj. unfold grown. rewrite Hi. destruct (Z.gtb_spec (j + 1) 0); [done|lia].
Qed.

Section Trace.
Context (t p : list ascii) (failure : list Z).

Lemma steps_inv_nil i : steps_inv t p failure i 0 [] [].
Proof.
  split; simpl; [by rewrite seqZ_nil|done|constructor|apply nondecreasing_nil|constructor].
Qed.

Lemma steps_inv_advance i i' c positions steps :
  steps_inv t p failure i c positions steps → i ≤ i' →
  steps_inv t p failure i' c positions steps.
Proof.
  intros [? ? ? ? Hle] Hi. split; try done.
  eapply Forall_impl; [exact Hle|]. simpl. intros; lia.
Qed.

Lemma steps_inv_text_snoc i steps s :
  nondecreasing (Step.TextIndex <$> steps) →
  Forall (λ s, Step.TextIndex s ≤ i) steps → Step.TextIndex s = i →
  nondecreasing (Step.TextIndex <$> steps ++ [s]) ∧
  Forall (λ s, Step.TextIndex s ≤ i) (steps ++ [s]).
Proof.
  intros Hnd Hle Hs. split.
  - rewrite fmap_app. simpl. apply nondecreasing_snoc; [done|].
    apply Forall_fmap. eapply Forall_impl; [exact Hle|]. simpl. intros; lia.
  - apply Forall_app. split; [done|]. apply Forall_singleton. lia.
Qed.

Lemma steps_inv_snoc_compare i c positions steps s :
  steps_inv t p failure i c positions steps → 0 ≤ c →
  step_shape t p failure s → Step.Shift s = false →
  Step.Comparisons s = c + 1 → Step.TextIndex s = i →
  steps_inv t p failure i (c + 1) positions (steps ++ [s]).
Proof.
  intros [Hnum Hpos Hsh Hnd Hle] Hc Hs Hshift Hcmp Hti.
  destruct (steps_inv_text_snoc i steps s Hnd Hle Hti). split; try done.
  - rewrite filter_snoc_True by done. rewrite fmap_app, Hnum. simpl.
    by rewrite Hcmp, seqZ_snoc.
  - rewrite filter_snoc_False; [done|]. intros [_ ?]. congruence.
  - apply Forall_app. split; [done|by apply Forall_singleton].
Qed.

Lemma steps_inv_snoc_realign i c positions steps s :
  steps_inv t p failure i c positions steps →
  step_shape t p failure s → Step.Shift s = true → Step.Match s = false →
  Step.TextIndex s = i →
  steps_inv t p failure i c positions (steps ++ [s]).
Proof.
  intros [Hnum Hpos Hsh Hnd Hle] Hs Hshift Hmatch Hti.
  destruct (steps_inv_text_snoc i steps s Hnd Hle Hti). split; try done.
  - rewrite filter_snoc_False; [done|]. unfold is_compare. congruence.
  - rewrite filter_snoc_False; [done|]. intros [? _]. congruence.
  - apply Forall_app. split; [done|by apply Forall_singleton].
Qed.

Lemma steps_inv_snoc_full i c positions steps s :
  steps_inv t p failure i c positions steps →
  step_shape t p failure s → Step.Shift s = true → Step.Match s = true →
  Step.TextIndex s = i →
  steps_inv t p failure i c
    (positions ++ [Step.TextIndex s - Step.PatternIndex s]) (steps ++ [s]).
Proof.
  intros [Hnum Hpos Hsh Hnd Hle] Hs Hshift Hmatch Hti.
  destruct (steps_inv_text_snoc i steps s Hnd Hle Hti). split; try done.
  - rewrite filter_snoc_False; [done|]. unfold is_compare. congruence.
  - rewrite filter_snoc_True by done. by rewrite fmap_app, Hpos.
  - apply Forall_app. split; [done|by apply Forall_singleton].
Qed.
End Trace.

Lemma get_make (n k : Z) : 0 ≤ k < n → get (make n) k = Some 0.
Proof.
  intros Hk. rewrite get_lookup by lia. unfold make.
  apply lookup_replicate_2. lia.
Qed.

Lemma app_two {A} (l : list A) (a b : A) : l ++ [a; b] = (l ++ [a]) ++ [b].
Proof. by rewrite <- app_assoc. Qed.

Section TraceInv.
Context (t p : list ascii) (failure : list Z).
Hypothesis Hm : 0 < len p.
Hypothesis Hok : table_ok p failure (len p).

Lemma trace_inv_init : trace_inv t p failure (scan_init (len t)).
Proof.
  split; simpl.
  - apply steps_inv_nil.
  - lia.
  - unfold len. simpl. lia.
  - constructor.
  - unfold make. apply Forall_replicate. lia.
  - intros k Hk. apply get_make. lia.
Qed.

Lemma trace_inv_step st st' :
  scan_inv t p st → trace_inv t p failure st → i_ st < len t →
  scan_iteration t p failure st = Done st' →
  trace_inv t p failure st'.
Proof.
  intros Hinv Htr Hi Hrun.
  destruct (scan_iteration_narrated _ _ _ _ _ Hrun) as (new & Hnew & Hnar).
  assert (Forall (λ s, narrate t p s = Some (Step.Status s)) (steps_ st')) as Hnar'.
  { rewrite Hnew. apply Forall_app. split; [apply (tr_narrated _ _ _ _ Htr)|done]. }
  clear new Hnew Hnar.
  destruct st as [i j c mp positions steps].
  destruct Hinv as [Hj Hij Hmatch Hmp _ Hc _ _].
  destruct Htr as [Hsteps Hcur Hlen _ Hsnap Hunv].
  cbn [i_ j_ comparisons_ maxPrefix_ positions_ steps_] in *.
  destruct (get_in_range t i) as [x Hx]; [lia|].
  destruct (get_in_range p j) as [y Hy]; [lia|].
  pose proof (Hunv i ltac:(lia)) as Hzero.
  assert (∀ k, i < k < len t → get mp k = Some 0) as Hunv' by (intros; apply Hunv; lia).
  destruct (decide (x = y)) as [<-|Hxy].
  - (* the bytes match *)
    assert (Forall (λ v, 0 ≤ v ≤ len p) (grown mp i j)) as Hsnap1.
    { rewrite grown_unvisited by (done || lia). apply Forall_insert; [done|lia]. }
    assert (get (grown mp i j) i = Some (j + 1)) as Hat.
    { rewrite grown_unvisited by (done || lia). apply get_insert_eq. lia. }
    assert (∀ status, step_shape t p failure
        (Step.mk i j true false status 0 (c + 1) (grown mp i j) i)) as Hs1.
    { intros status. split; simpl; try done; try lia.
      - intros k Hk. rewrite get_grown_ne by lia. by apply Hunv'.
      - congruence. }
    destruct (decide (j + 1 = len p)) as [Hfull|Hmore].
    + destruct (table_ok_entry p failure _ (len p - 1) Hok) as (fv & Hfv & _); [lia|].
      destruct (scan_match_full t p failure i j c mp positions steps Hmp x fv)
        as (s1 & s2 & mp' & Heq & Hlen' & Hin & Hout); [done..|lia|done|].
      rewrite Heq in Hrun. injection Hrun as <-.
      cbn [i_ j_ comparisons_ maxPrefix_ positions_ steps_] in *.
      assert (Forall (λ v, 0 ≤ v ≤ len p) mp') as Hsnap2.
      { apply Forall_get. intros k v Hk.
        destruct (decide (i + 1 - len p ≤ k < i + 1)) as [Hspan|Hspan].
        - rewrite Hin in Hk by done. injection Hk as <-. lia.
        - rewrite Hout in Hk by done.
          rewrite Forall_get in Hsnap1. eauto. }
      assert (step_shape t p failure (Step.mk i j true true s2 fv (c + 1) mp' (-1)))
        as Hs2.
      { split; simpl; try done; try lia.
        - intros k Hk. rewrite Hout by lia. rewrite get_grown_ne by lia. by apply Hunv'.
        - intros _. rewrite Hin by lia. f_equal. lia.
        - by replace j with (len p - 1) by lia.
        - congruence. }
      split; cbn [i_ j_ comparisons_ maxPrefix_ positions_ steps_].
      * rewrite app_two. apply steps_inv_advance with (i := i); [|lia].
        replace (i + 1 - len p) with
          (Step.TextIndex (Step.mk i j true true s2 fv (c + 1) mp' (-1)) -
           Step.PatternIndex (Step.mk i j true true s2 fv (c + 1) mp' (-1)))
          by (simpl; lia).
        apply steps_inv_snoc_full; try done.
        apply steps_inv_snoc_compare; try done. lia.
      * lia.
      * unfold len in *. rewrite !length_app. simpl. lia.
      * done.
      * done.
      * intros k Hk. rewrite Hout by lia. rewrite get_grown_ne by lia. apply Hunv'. lia.
    + destruct (scan_match_more t p failure i j c mp positions steps Hmp x)
        as (s1 & Heq); [done..|].
      rewrite Heq in Hrun. injection Hrun as <-.
      split; cbn [i_ j_ comparisons_ maxPrefix_ positions_ steps_] in *.
      * apply steps_inv_advance with (i := i); [|lia].
        apply steps_inv_snoc_compare; try done. lia.
      * lia.
      * unfold len in *. rewrite !length_app. simpl. lia.
      * done.
      * done.
      * intros k Hk. rewrite get_grown_ne by lia. apply Hunv'. lia.
  - (* the bytes differ *)
    assert (get t i ≠ get p j) as Hne by congruence.
    destruct (decide (0 < j)) as [Hj0|Hj0].
    + destruct (table_ok_entry p failure _ (j - 1) Hok) as (fv & Hfv & _); [lia|].
      destruct (scan_mismatch_shift t p failure i j c mp positions steps Hmp x y fv)
        as (s1 & s2 & Heq); [done..|].
      rewrite Heq in Hrun. injection Hrun as <-.
      assert (step_shape t p failure (Step.mk i j false false s1 fv (c + 1) mp i))
        as Hs1.
      { split; simpl; try done; try lia. unfold consulted. simpl.
        destruct (Z.ltb_spec 0 j); [done|lia]. }
      assert (step_shape t p failure (Step.mk i fv false true s2 0 (c + 1) mp i))
        as Hs2.
      { split; simpl; try done; try lia. }
      split; cbn [i_ j_ comparisons_ maxPrefix_ positions_ steps_] in *.
      * rewrite app_two. apply steps_inv_snoc_realign; try done.
        apply steps_inv_snoc_compare; try done. lia.
      * lia.
      * unfold len in *. rewrite !length_app. simpl. lia.
      * done.
      * done.
      * done.
    + assert (j = 0) as -> by lia.
      destruct (scan_mismatch_skip t p failure i 0 c mp positions steps Hmp x y)
        as (s1 & Heq); [done..|].
      rewrite Heq in Hrun. injection Hrun as <-.
      assert (step_shape t p failure (Step.mk i 0 false false s1 0 (c + 1) mp i))
        as Hs1.
      { split; simpl; try done; try lia. }
      split; cbn [i_ j_ comparisons_ maxPrefix_ positions_ steps_] in *.
      * apply steps_inv_advance with (i := i); [|lia].
        apply steps_inv_snoc_compare; try done. lia.
      * lia.
      * unfold len in *. rewrite !length_app. simpl. lia.
      * done.
      * done.
      * intros k Hk. apply Hunv'. lia.
Qed.

Lemma reachable_trace_inv st :
  reachable t p failure st → trace_inv t p failure st.
Proof.
  induction 1 as [|st st' Hreach IH Hi Hrun]; [apply trace_inv_init|].
  eapply trace_inv_step; [|exact IH|exact Hi|exact Hrun].
  exact (reachable_inv t p failure Hm Hok _ Hreach).
Qed.
End TraceInv.

(** ** More about the whole run *)

Lemma searchKMP_trace text pattern (fuel : nat) :
  text ≠ EmptyString → pattern ≠ EmptyString →
  (fuel_bound text pattern ≤ fuel)%nat →
  ∃ failure st,
    scan_inv (bytes text) (bytes pattern) st ∧
    trace_inv (bytes text) (bytes pattern) failure st ∧
    i_ st = len (bytes text) ∧
    positions_ st = brute_force (bytes text) (bytes pattern) ∧
    searchKMP fuel text pattern =
      Done (KMPResult.mk failure (steps_ st) (len (positions_ st) >? 0)
              (positions_ st) (comparisons_ st) "").
Proof.
  intros Ht Hp Hfuel. pose proof (len_bytes_pos _ Hp) as Hm.
  destruct (searchKMP_run text pattern fuel Ht Hp Hfuel)
    as (failure & st & _ & Hok & Hreach & Hinv & Hi & Hrun).
  exists failure, st. split; [done|]. split; [by apply reachable_trace_inv|].
  split; [done|]. split; [by eapply scan_inv_final|done].
Qed.

Lemma elem_of_brute_force (t p : list ascii) (s : Z) :
  0 < len p → s ∈ brute_force t p ↔ occurs t p s.
Proof.
  intros Hm. unfold brute_force. rewrite list_elem_of_filter, elem_of_seqZ.
  split; [by intros [? _]|]. intros Hocc. split; [done|].
  apply occurs_ends_with in Hocc as [? (_ & ? & _)]; [lia|done].
Qed.

Lemma increasing_snoc l x :
  increasing l → Forall (λ y, y < x) l → increasing (l ++ [x]).
Proof.
  intros Hl Hx a b u v Hab Ha Hb.
  apply lookup_snoc_Some in Hb as [[Hb Hv]|[Hb ->]].
  - rewrite lookup_app_l in Ha by lia. eauto.
  - apply lookup_snoc_Some in Ha as [[_ Hu]|[? _]]; [|lia].
    rewrite Forall_lookup in Hx. eauto.
Qed.

Lemma increasing_nil : increasing [].
Proof. intros a b x y _ H. by rewrite lookup_nil in H. Qed.

Lemma found_before_increasing t p (b : nat) :
  increasing (found_before t p (Z.of_nat b)) ∧
  Forall (λ s, 0 ≤ s < Z.of_nat b) (found_before t p (Z.of_nat b)).
Proof.
  unfold found_before. induction b as [|b [IHi IHb]].
  - rewrite seqZ_nil, filter_nil by lia. split; [apply increasing_nil|constructor].
  - rewrite seqZ_S, filter_app. replace (0 + Z.of_nat b) with (Z.of_nat b) by lia.
    assert (Forall (λ s, 0 ≤ s < Z.of_nat (S b))
              (filter (occurs t p) (seqZ 0 (Z.of_nat b)))) as Hwide.
    { eapply Forall_impl; [exact IHb|]. simpl. intros; lia. }
    destruct (decide (occurs t p (Z.of_nat b))) as [Hocc|Hocc].
    + rewrite filter_cons_True, filter_nil by done. split.
      * apply increasing_snoc; [done|].
        eapply Forall_impl; [exact IHb|]. simpl. intros; lia.
      * apply Forall_app. split; [done|]. apply Forall_singleton. lia.
    + rewrite filter_cons_False, filter_nil, app_nil_r by done. done.
Qed.

Lemma brute_force_increasing (t p : list ascii) :
  increasing (brute_force t p) ∧
  Forall (λ s, 0 ≤ s ≤ len t - len p) (brute_force t p).
Proof.
  unfold brute_force.
  destruct (decide (0 ≤ len t - len p + 1)) as [Hfit|Hshort].
  - destruct (found_before_increasing t p (Z.to_nat (len t - len p + 1))) as [Hi Hb].
    unfold found_before in *. rewrite Z2Nat.id in * by done. split; [done|].
    eapply Forall_impl; [exact Hb|]. simpl. intros; lia.
  - rewrite seqZ_nil, filter_nil by lia. split; [apply increasing_nil|constructor].
Qed.

(** ** The trace, comparison by comparison *)

Lemma counted_nonneg c steps : counted c steps → 0 ≤ c.
Proof. induction 1; lia. Qed.

Lemma counted_range c steps :
  counted c steps → Forall (λ s, 1 ≤ Step.Comparisons s ≤ c) steps.
Proof.
  induction 1 as [|c steps s Hc IH Hs Hn|c steps s s' Hc IH Hs Hn Hs' Hn'];
    [constructor|..]; pose proof (counted_nonneg _ _ Hc);
    (apply Forall_app; split;
     [eapply Forall_impl; [exact IH|]; simpl; intros; lia
     |repeat constructor; lia]).
Qed.

Lemma counted_per_comparison c steps :
  counted c steps →
  ∀ k, 1 ≤ k ≤ c →
       1 ≤ len (filter (λ s, Step.Comparisons s = k) steps) ≤ 2.
Proof.
  induction 1 as [|c steps s Hc IH Hs Hn|c steps s s' Hc IH Hs Hn Hs' Hn'];
    intros k Hk; [lia|..]; pose proof (counted_nonneg _ _ Hc);
    rewrite filter_app; unfold len; rewrite length_app; fold (@len Step).
  - destruct (decide (k = c + 1)) as [->|Hne].
    + rewrite (filter_none _ steps).
      2:{ eapply Forall_impl; [apply (counted_range _ _ Hc)|]. simpl. intros; lia. }
      rewrite filter_cons_True, filter_nil by done. simpl. lia.
    + rewrite filter_cons_False, filter_nil by lia.
      specialize (IH k ltac:(lia)). unfold len in *. simpl. lia.
  - destruct (decide (k = c + 1)) as [->|Hne].
    + rewrite (filter_none _ steps).
      2:{ eapply Forall_impl; [apply (counted_range _ _ Hc)|]. simpl. intros; lia. }
      rewrite !filter_cons_True, filter_nil by done. simpl. lia.
    + rewrite !filter_cons_False, filter_nil by lia.
      specialize (IH k ltac:(lia)). unfold len in *. simpl. lia.
Qed.

Lemma counted_shift_follows c steps :
  counted c steps →
  ∀ (k : nat) s, steps !! k = Some s → Step.Shift s = true →
    ∃ (k0 : nat) s0, k = S k0 ∧ steps !! k0 = Some s0 ∧ is_compare s0 ∧
                     Step.Comparisons s0 = Step.Comparisons s.
Proof.
  induction 1 as [|c steps s Hc IH Hs Hn|c steps s s' Hc IH Hs Hn Hs' Hn'];
    intros k x Hk Hx; [by rewrite lookup_nil in Hk|..].
  - apply lookup_snoc_Some in Hk as [[Hlt Hk]|[_ ->]].
    + destruct (IH k x Hk Hx) as (k0 & s0 & -> & Hk0 & ? & ?).
      exists k0, s0. split; [done|]. split; [|done].
      by apply lookup_app_l_Some.
    + unfold is_compare in Hs. congruence.
  - apply lookup_app_Some in Hk as [Hk|[Hge Hk]].
    + destruct (IH k x Hk Hx) as (k0 & s0 & -> & Hk0 & ? & ?).
      exists k0, s0. split; [done|]. split; [|done].
      by apply lookup_app_l_Some.
    + destruct (k - length steps)%nat as [|[|?]] eqn:E; simpl in Hk; [| |done].
      * injection Hk as <-. unfold is_compare in Hs. congruence.
      * injection Hk as <-. exists (length steps), s.
        split; [lia|]. split; [|split; [done|congruence]].
        rewrite lookup_app_r by lia. by rewrite Nat.sub_diag.
Qed.

Section Counted.
Context (t p : list ascii) (failure : list Z).
Hypothesis Hm : 0 < len p.
Hypothesis Hok : table_ok p failure (len p).

Lemma scan_iteration_counted st st' :
  scan_inv t p st → i_ st < len t →
  scan_iteration t p failure st = Done st' →
  counted (comparisons_ st) (steps_ st) →
  counted (comparisons_ st') (steps_ st').
Proof.
  intros Hinv Hi Hrun Hcnt. destruct st as [i j c mp positions steps].
  destruct Hinv as [Hj Hij _ Hmp _ _ _ _];
    cbn [i_ j_ comparisons_ maxPrefix_ positions_ steps_] in *.
  destruct (get_in_range t i) as [x Hx]; [lia|].
  destruct (get_in_range p j) as [y Hy]; [lia|].
  destruct (decide (x = y)) as [<-|Hxy]; [destruct (decide (j + 1 = len p))|
    destruct (decide (0 < j))].
  - destruct (table_ok_entry p failure _ (len p - 1) Hok) as (fv & Hfv & _); [lia|].
    destruct (scan_match_full t p failure i j c mp positions steps Hmp x fv)
      as (s1 & s2 & mp' & Heq & _); [done..|lia|done|].
    rewrite Heq in Hrun. injection Hrun as <-. simpl. by apply counted_shift.
  - destruct (scan_match_more t p failure i j c mp positions steps Hmp x)
      as (s1 & Heq); [done..|].
    rewrite Heq in Hrun. injection Hrun as <-. simpl. by apply counted_compare.
  - destruct (table_ok_entry p failure _ (j - 1) Hok) as (fv & Hfv & _); [lia|].
    destruct (scan_mismatch_shift t p failure i j c mp positions steps Hmp x y fv)
      as (s1 & s2 & Heq); [done..|].
    rewrite Heq in Hrun. injection Hrun as <-. simpl. by apply counted_shift.
  - assert (j = 0) as -> by lia.
    destruct (scan_mismatch_skip t p failure i 0 c mp positions steps Hmp x y)
      as (s1 & Heq); [done..|].
    rewrite Heq in Hrun. injection Hrun as <-. simpl. by apply counted_compare.
Qed.

Lemma reachable_counted st :
  reachable t p failure st → counted (comparisons_ st) (steps_ st).
Proof.
  induction 1 as [|st st' Hreach IH Hi Hrun]; [apply counted_nil|].
  eapply scan_iteration_counted; [|exact Hi|exact Hrun|exact IH].
  exact (reachable_inv t p failure Hm Hok _ Hreach).
Qed.
End Counted.

Lemma searchKMP_counted text pattern (fuel : nat) :
  text ≠ EmptyString → pattern ≠ EmptyString →
  (fuel_bound text pattern ≤ fuel)%nat →
  ∃ failure st,
    counted (comparisons_ st) (steps_ st) ∧
    searchKMP fuel text pattern =
      Done (KMPResult.mk failure (steps_ st) (len (positions_ st) >? 0)
              (positions_ st) (comparisons_ st) "").
Proof.
  intros Ht Hp Hfuel. pose proof (len_bytes_pos _ Hp) as Hm.
  destruct (searchKMP_run text pattern fuel Ht Hp Hfuel)
    as (failure & st & _ & Hok & Hreach & _ & _ & Hrun).
  exists failure, st. split; [by eapply reachable_counted|done].
Qed.

(** X1: the steps that record a comparison carry the counters 1, 2, 3, ...
    in order, so their number is the comparison count of the result; a shift
    step never advances the counter: it comes directly after a comparison
    step and repeats the counter of that step. *)
Theorem searchKMP_comparisons_numbered text pattern (fuel : nat) :
  text ≠ EmptyString → pattern ≠ EmptyString →
  (fuel_bound text pattern ≤ fuel)%nat →
  ∃ r, searchKMP fuel text pattern = Done r ∧
       Step.Comparisons <$> filter is_compare (KMPResult.Steps r)
         = seqZ 1 (KMPResult.Comparisons r) ∧
       len (filter is_compare (KMPResult.Steps r)) = KMPResult.Comparisons r ∧
       ∀ (k : nat) s,
         KMPResult.Steps r !! k = Some s → Step.Shift s = true →
         ∃ (k0 : nat) s0,
           k = S k0 ∧ KMPResult.Steps r !! k0 = Some s0 ∧
           is_compare s0 ∧ Step.Comparisons s0 = Step.Comparisons s.
Proof.
  intros Ht Hp Hfuel.
  destruct (searchKMP_trace text pattern fuel Ht Hp Hfuel)
    as (failure & st & Hinv & Htr & _ & _ & Hrun).
  destruct (searchKMP_counted text pattern fuel Ht Hp Hfuel)
    as (failure' & st' & Hcnt & Hrun').
  rewrite Hrun' in Hrun. injection Hrun as _ Hsteps _ _ Hcmp. rewrite Hrun'.
  eexists. split; [done|]. cbn [KMPResult.Steps KMPResult.Comparisons].
  rewrite Hsteps, Hcmp.
  pose proof (si_numbered _ _ _ _ _ _ _ (tr_steps _ _ _ _ Htr)) as Hnum.
  split; [done|]. split.
  - apply (f_equal length) in Hnum.
    rewrite length_fmap, length_seqZ in Hnum. unfold len. rewrite Hnum.
    pose proof (inv_comparisons _ _ _ Hinv). lia.
  - rewrite <- Hsteps. apply (counted_shift_follows _ _ Hcnt).
Qed.

Lemma searchKMP_comparisons_numbered_witness :
  ∃ r, searchKMP 11 "aaaa" "aa" = Done r ∧
       Step.Comparisons <$> filter is_compare (KMPResult.Steps r)
         = seqZ 1 (KMPResult.Comparisons r) ∧
       len (filter is_compare (KMPResult.Steps r)) = KMPResult.Comparisons r ∧
       ∀ (k : nat) s,
         KMPResult.Steps r !! k = Some s → Step.Shift s = true →
         ∃ (k0 : nat) s0,
           k = S k0 ∧ KMPResult.Steps r !! k0 = Some s0 ∧
           is_compare s0 ∧ Step.Comparisons s0 = Step.Comparisons s.
Proof.
  apply (searchKMP_comparisons_numbered "aaaa" "aa" 11);
    [discriminate|discriminate|vm_compute; lia].
Defined.

(** X2: the scan is linear: the comparison count lies between [len(text)]
    and [2 * len(text)]; every step carries a counter between 1 and that
    count, and every counter value from 1 to the count is carried by at
    least one and at most two steps, so the trace has at least one and at
    most two steps per comparison. *)
Theorem searchKMP_linear_bounds text pattern (fuel : nat) :
  text ≠ EmptyString → pattern ≠ EmptyString →
  (fuel_bound text pattern ≤ fuel)%nat →
  ∃ r, searchKMP fuel text pattern = Done r ∧
       len (bytes text) ≤ KMPResult.Comparisons r ≤ 2 * len (bytes text) ∧
       KMPResult.Comparisons r ≤ len (KMPResult.Steps r)
         ≤ 2 * KMPResult.Comparisons r ∧
       Forall (λ s, 1 ≤ Step.Comparisons s ≤ KMPResult.Comparisons r)
         (KMPResult.Steps r) ∧
       ∀ k, 1 ≤ k ≤ KMPResult.Comparisons r →
            1 ≤ len (filter (λ s, Step.Comparisons s = k) (KMPResult.Steps r)) ≤ 2.
Proof.
  intros Ht Hp Hfuel.
  destruct (searchKMP_trace text pattern fuel Ht Hp Hfuel)
    as (failure & st & Hinv & Htr & Hi & _ & Hrun).
  destruct (searchKMP_counted text pattern fuel Ht Hp Hfuel)
    as (failure' & st' & Hcnt & Hrun').
  rewrite Hrun' in Hrun. injection Hrun as _ Hsteps _ _ Hcmp. rewrite Hrun'.
  eexists. split; [done|]. cbn [KMPResult.Steps KMPResult.Comparisons].
  rewrite Hsteps, Hcmp in *.
  pose proof (inv_comparisons _ _ _ Hinv). pose proof (inv_j _ _ _ Hinv).
  pose proof (tr_cursor _ _ _ _ Htr). pose proof (tr_length _ _ _ _ Htr).
  split; [lia|]. split; [|split].
  - split; [|done].
    pose proof (si_numbered _ _ _ _ _ _ _ (tr_steps _ _ _ _ Htr)) as Hnum.
    apply (f_equal length) in Hnum. rewrite length_fmap, length_seqZ in Hnum.
    pose proof (length_filter is_compare (steps_ st)). unfold len. lia.
  - apply (counted_range _ _ Hcnt).
  - apply (counted_per_comparison _ _ Hcnt).
Qed.

Lemma searchKMP_linear_bounds_witness :
  ∃ r, searchKMP 16 "abcab" "abd" = Done r ∧
       len (bytes "abcab") ≤ KMPResult.Comparisons r ≤ 2 * len (bytes "abcab") ∧
       KMPResult.Comparisons r ≤ len (KMPResult.Steps r)
         ≤ 2 * KMPResult.Comparisons r ∧
       Forall (λ s, 1 ≤ Step.Comparisons s ≤ KMPResult.Comparisons r)
         (KMPResult.Steps r) ∧
       ∀ k, 1 ≤ k ≤ KMPResult.Comparisons r →
            1 ≤ len (filter (λ s, Step.Comparisons s = k) (KMPResult.Steps r)) ≤ 2.
Proof.
  apply (searchKMP_linear_bounds "abcab" "abd" 16);
    [discriminate|discriminate|vm_compute; lia].
Defined.

(** X3: [Found] is true exactly when the pattern occurs somewhere in the
    text, and false exactly when no position is reported. *)
Theorem searchKMP_found_iff_occurs text pattern (fuel : nat) :
  text ≠ EmptyString → pattern ≠ EmptyString →
  (fuel_bound text pattern ≤ fuel)%nat →
  ∃ r, searchKMP fuel text pattern = Done r ∧
       (KMPResult.Found r = true ↔ ∃ s, occurs (bytes text) (bytes pattern) s) ∧
       (KMPResult.Found r = false ↔ KMPResult.Positions r = []).
Proof.
  intros Ht Hp Hfuel. pose proof (len_bytes_pos _ Hp) as Hm.
  destruct (searchKMP_trace text pattern fuel Ht Hp Hfuel)
    as (failure & st & _ & _ & _ & Hpos & ->).
  eexists. split; [done|]. cbn [KMPResult.Found KMPResult.Positions].
  rewrite Hpos. split.
  - split.
    + intros Hfound. destruct (brute_force _ _) as [|s l] eqn:E; [done|].
      exists s. apply elem_of_brute_force; [done|]. rewrite E. by left.
    + intros [s Hs]. apply elem_of_brute_force in Hs; [|done].
      destruct (brute_force _ _) as [|s' l]; [by apply elem_of_nil in Hs|].
      unfold len. destruct (Z.gtb_spec (Z.of_nat (length (s' :: l))) 0); [done|].
      simpl in *. lia.
  - destruct (brute_force _ _) as [|s l]; [done|].
    split; [|done]. unfold len. intros H.
    destruct (Z.gtb_spec (Z.of_nat (length (s :: l))) 0); [done|]. simpl in *. lia.
Qed.

Lemma searchKMP_found_iff_occurs_witness :
  ∃ r, searchKMP 16 "abcab" "abd" = Done r ∧
       (KMPResult.Found r = true ↔ ∃ s, occurs (bytes "abcab") (bytes "abd") s) ∧
       (KMPResult.Found r = false ↔ KMPResult.Positions r = []).
Proof.
  apply (searchKMP_found_iff_occurs "abcab" "abd" 16);
    [discriminate|discriminate|vm_compute; lia].
Defined.

(** X4: the positions are reported in strictly increasing order (so none
    twice) and each lies between 0 and [len(text) - len(pattern)]. *)
Theorem searchKMP_positions_increasing text pattern (fuel : nat) :
  text ≠ EmptyString → pattern ≠ EmptyString →
  (fuel_bound text pattern ≤ fuel)%nat →
  ∃ r, searchKMP fuel text pattern = Done r ∧
       increasing (KMPResult.Positions r) ∧
       Forall (λ s, 0 ≤ s ≤ len (bytes text) - len (bytes pattern))
         (KMPResult.Positions r).
Proof.
  intros Ht Hp Hfuel.
  destruct (searchKMP_trace text pattern fuel Ht Hp Hfuel)
    as (failure & st & _ & _ & _ & Hpos & ->).
  eexists. split; [done|]. cbn [KMPResult.Positions]. rewrite Hpos.
  apply brute_force_increasing.
Qed.

Lemma searchKMP_positions_increasing_witness :
  ∃ r, searchKMP 11 "aaaa" "aa" = Done r ∧
       increasing (KMPResult.Positions r) ∧
       Forall (λ s, 0 ≤ s ≤ len (bytes "aaaa") - len (bytes "aa"))
         (KMPResult.Positions r).
Proof.
  apply (searchKMP_positions_increasing "aaaa" "aa" 11);
    [discriminate|discriminate|vm_compute; lia].
Defined.

(** X5: every emitted step has its text index inside the text, its pattern
    index inside the pattern, a counter between 1 and the final count, and
    a snapshot of the length of the text whose entries lie between 0 and
    [len(pattern)]. *)
Theorem searchKMP_steps_in_range text pattern (fuel : nat) :
  text ≠ EmptyString → pattern ≠ EmptyString →
  (fuel_bound text pattern ≤ fuel)%nat →
  ∃ r, searchKMP fuel text pattern = Done r ∧
       Forall (λ s,
           0 ≤ Step.TextIndex s < len (bytes text) ∧
           0 ≤ Step.PatternIndex s < len (bytes pattern) ∧
           1 ≤ Step.Comparisons s ≤ KMPResult.Comparisons r ∧
           len (Step.PrefixFunction s) = len (bytes text) ∧
           Forall (λ v, 0 ≤ v ≤ len (bytes pattern)) (Step.PrefixFunction s))
         (KMPResult.Steps r).
Proof.
  intros Ht Hp Hfuel.
  destruct (searchKMP_trace text pattern fuel Ht Hp Hfuel)
    as (failure & st & Hinv & Htr & _ & _ & ->).
  eexists. split; [done|]. cbn [KMPResult.Steps KMPResult.Comparisons].
  destruct (inv_trace _ _ _ Hinv) as (Hok & _).
  pose proof (si_shape _ _ _ _ _ _ _ (tr_steps _ _ _ _ Htr)) as Hsh.
  rewrite Forall_lookup in Hok, Hsh. apply Forall_lookup. intros k s Hk.
  destruct (Hok k s Hk) as (? & ? & ? & ?). destruct (Hsh k s Hk).
  repeat split; try done; lia.
Qed.

Lemma searchKMP_steps_in_range_witness :
  ∃ r, searchKMP 16 "abcab" "abd" = Done r ∧
       Forall (λ s,
           0 ≤ Step.TextIndex s < len (bytes "abcab") ∧
           0 ≤ Step.PatternIndex s < len (bytes "abd") ∧
           1 ≤ Step.Comparisons s ≤ KMPResult.Comparisons r ∧
           len (Step.PrefixFunction s) = len (bytes "abcab") ∧
           Forall (λ v, 0 ≤ v ≤ len (bytes "abd")) (Step.PrefixFunction s))
         (KMPResult.Steps r).
Proof.
  apply (searchKMP_steps_in_range "abcab" "abd" 16);
    [discriminate|discriminate|vm_compute; lia].
Defined.

(** X6: along the trace the text index never goes back. *)
Theorem searchKMP_text_cursor_monotone text pattern (fuel : nat) :
  text ≠ EmptyString → pattern ≠ EmptyString →
  (fuel_bound text pattern ≤ fuel)%nat →
  ∃ r, searchKMP fuel text pattern = Done r ∧
       nondecreasing (Step.TextIndex <$> KMPResult.Steps r).
Proof.
  intros Ht Hp Hfuel.
  destruct (searchKMP_trace text pattern fuel Ht Hp Hfuel)
    as (failure & st & _ & Htr & _ & _ & ->).
  eexists. split; [done|]. cbn [KMPResult.Steps].
  apply (si_text _ _ _ _ _ _ _ (tr_steps _ _ _ _ Htr)).
Qed.

Lemma searchKMP_text_cursor_monotone_witness :
  ∃ r, searchKMP 16 "abcab" "abd" = Done r ∧
       nondecreasing (Step.TextIndex <$> KMPResult.Steps r).
Proof.
  apply (searchKMP_text_cursor_monotone "abcab" "abd" 16);
    [discriminate|discriminate|vm_compute; lia].
Defined.

(** X7: the positions can be read off the trace: they are
    [TextIndex - PatternIndex] of the full-match steps, in order; the
    highlight is -1 on exactly those steps and the text index on all
    others. *)
Theorem searchKMP_positions_from_full_matches text pattern (fuel : nat) :
  text ≠ EmptyString → pattern ≠ EmptyString →
  (fuel_bound text pattern ≤ fuel)%nat →
  ∃ r, searchKMP fuel text pattern = Done r ∧
       KMPResult.Positions r =
         (λ s, Step.TextIndex s - Step.PatternIndex s) <$>
           filter is_full_match (KMPResult.Steps r) ∧
       Forall (λ s, (Step.HighlightPrefixIndex s = -1 ↔ is_full_match s) ∧
                    (¬ is_full_match s →
                     Step.HighlightPrefixIndex s = Step.TextIndex s))
         (KMPResult.Steps r).
Proof.
  intros Ht Hp Hfuel.
  destruct (searchKMP_trace text pattern fuel Ht Hp Hfuel)
    as (failure & st & Hinv & Htr & _ & _ & ->).
  eexists. split; [done|]. cbn [KMPResult.Steps KMPResult.Positions].
  split; [apply (si_positions _ _ _ _ _ _ _ (tr_steps _ _ _ _ Htr))|].
  destruct (inv_trace _ _ _ Hinv) as (Hok & _).
  pose proof (si_shape _ _ _ _ _ _ _ (tr_steps _ _ _ _ Htr)) as Hsh.
  rewrite Forall_lookup in Hok, Hsh. apply Forall_lookup. intros k s Hk.
  destruct (Hok k s Hk) as (Hti & _). destruct (Hsh k s Hk) as [_ Hhl _ _ _ _ _ _].
  unfold is_full_match. rewrite Hhl.
  destruct (Step.Match s), (Step.Shift s); simpl.
  all: split; [split|].
  all: try done; try (intros; lia); try (intros [? ?]; done).
Qed.

Lemma searchKMP_positions_from_full_matches_witness :
  ∃ r, searchKMP 11 "aaaa" "aa" = Done r ∧
       KMPResult.Positions r =
         (λ s, Step.TextIndex s - Step.PatternIndex s) <$>
           filter is_full_match (KMPResult.Steps r) ∧
       Forall (λ s, (Step.HighlightPrefixIndex s = -1 ↔ is_full_match s) ∧
                    (¬ is_full_match s →
                     Step.HighlightPrefixIndex s = Step.TextIndex s))
         (KMPResult.Steps r).
Proof.
  apply (searchKMP_positions_from_full_matches "aaaa" "aa" 11);
    [discriminate|discriminate|vm_compute; lia].
Defined.

(** X14: the narration of every step is determined by the other fields of
    the step and the two strings: [narrate] rebuilds it. *)
Theorem searchKMP_narration_from_fields text pattern (fuel : nat) :
  text ≠ EmptyString → pattern ≠ EmptyString →
  (fuel_bound text pattern ≤ fuel)%nat →
  ∃ r, searchKMP fuel text pattern = Done r ∧
       Forall (λ s, narrate (bytes text) (bytes pattern) s = Some (Step.Status s))
         (KMPResult.Steps r).
Proof.
  intros Ht Hp Hfuel.
  destruct (searchKMP_trace text pattern fuel Ht Hp Hfuel)
    as (failure & st & _ & Htr & _ & _ & ->).
  eexists. split; [done|]. apply (tr_narrated _ _ _ _ Htr).
Qed.

Lemma searchKMP_narration_from_fields_witness :
  ∃ r, searchKMP 16 "abcab" "abd" = Done r ∧
       Forall (λ s, narrate (bytes "abcab") (bytes "abd") s = Some (Step.Status s))
         (KMPResult.Steps r).
Proof.
  apply (searchKMP_narration_from_fields "abcab" "abd" 16);
    [discriminate|discriminate|vm_compute; lia].
Defined.

(** X15: in the snapshot of every step the entries beyond the step's text
    index are 0, and in a step with [Match] set the entry at the text index
    is [PatternIndex + 1]. *)
Theorem searchKMP_snapshot_shape text pattern (fuel : nat) :
  text ≠ EmptyString → pattern ≠ EmptyString →
  (fuel_bound text pattern ≤ fuel)%nat →
  ∃ r, searchKMP fuel text pattern = Done r ∧
       Forall (λ s,
           (∀ k, Step.TextIndex s < k < len (bytes text) →
                 get (Step.PrefixFunction s) k = Some 0) ∧
           (Step.Match s = true →
            get (Step.PrefixFunction s) (Step.TextIndex s)
              = Some (Step.PatternIndex s + 1)))
         (KMPResult.Steps r).
Proof.
  intros Ht Hp Hfuel.
  destruct (searchKMP_trace text pattern fuel Ht Hp Hfuel)
    as (failure & st & _ & Htr & _ & _ & ->).
  eexists. split; [done|]. cbn [KMPResult.Steps].
  eapply Forall_impl; [apply (si_shape _ _ _ _ _ _ _ (tr_steps _ _ _ _ Htr))|].
  intros s Hs. split; [apply (sh_unvisited _ _ _ _ Hs)|apply (sh_matched _ _ _ _ Hs)].
Qed.

Lemma searchKMP_snapshot_shape_witness :
  ∃ r, searchKMP 11 "aaaa" "aa" = Done r ∧
       Forall (λ s,
           (∀ k, Step.TextIndex s < k < len (bytes "aaaa") →
                 get (Step.PrefixFunction s) k = Some 0) ∧
           (Step.Match s = true →
            get (Step.PrefixFunction s) (Step.TextIndex s)
              = Some (Step.PatternIndex s + 1)))
         (KMPResult.Steps r).
Proof.
  apply (searchKMP_snapshot_shape "aaaa" "aa" 11);
    [discriminate|discriminate|vm_compute; lia].
Defined.

(** X16: the failure value of a step is the table entry the step
    consulted: [failure[PatternIndex]] (that is [failure[m-1]]) on a full
    match, [failure[PatternIndex - 1]] on a mismatch with [PatternIndex > 0],
    and 0 on every other step. *)
Theorem searchKMP_failure_value_consulted text pattern (fuel : nat) :
  text ≠ EmptyString → pattern ≠ EmptyString →
  (fuel_bound text pattern ≤ fuel)%nat →
  ∃ r, searchKMP fuel text pattern = Done r ∧
       Forall (λ s, consulted (KMPResult.FailureFunction r) s
                    = Some (Step.FailureValue s))
         (KMPResult.Steps r).
Proof.
  intros Ht Hp Hfuel.
  destruct (searchKMP_trace text pattern fuel Ht Hp Hfuel)
    as (failure & st & _ & Htr & _ & _ & ->).
  eexists. split; [done|]. cbn [KMPResult.Steps KMPResult.FailureFunction].
  eapply Forall_impl; [apply (si_shape _ _ _ _ _ _ _ (tr_steps _ _ _ _ Htr))|].
  intros s Hs. apply (sh_failure _ _ _ _ Hs).
Qed.

Lemma searchKMP_failure_value_consulted_witness :
  ∃ r, searchKMP 16 "abcab" "abd" = Done r ∧
       Forall (λ s, consulted (KMPResult.FailureFunction r) s
                    = Some (Step.FailureValue s))
         (KMPResult.Steps r).
Proof.
  apply (searchKMP_failure_value_consulted "abcab" "abd" 16);
    [discriminate|discriminate|vm_compute; lia].
Defined.

(** X17: on a comparison step the [Match] flag is set exactly when the byte
    of the text at [TextIndex] equals the byte of the pattern at
    [PatternIndex]. *)
Theorem searchKMP_match_flag_truthful text pattern (fuel : nat) :
  text ≠ EmptyString → pattern ≠ EmptyString →
  (fuel_bound text pattern ≤ fuel)%nat →
  ∃ r, searchKMP fuel text pattern = Done r ∧
       Forall (λ s, is_compare s →
                    (Step.Match s = true ↔
                     get (bytes text) (Step.TextIndex s)
                       = get (bytes pattern) (Step.PatternIndex s)))
         (KMPResult.Steps r).
Proof.
  intros Ht Hp Hfuel.
  destruct (searchKMP_trace text pattern fuel Ht Hp Hfuel)
    as (failure & st & _ & Htr & _ & _ & ->).
  eexists. split; [done|]. cbn [KMPResult.Steps].
  eapply Forall_impl; [apply (si_shape _ _ _ _ _ _ _ (tr_steps _ _ _ _ Htr))|].
  intros s Hs Hcmp. split; [apply (sh_match_true _ _ _ _ Hs)|].
  intros Heq. destruct (Step.Match s) eqn:E; [done|].
  by destruct (sh_match_false _ _ _ _ Hs Hcmp E).
Qed.

Lemma searchKMP_match_flag_truthful_witness :
  ∃ r, searchKMP 16 "abcab" "abd" = Done r ∧
       Forall (λ s, is_compare s →
                    (Step.Match s = true ↔
                     get (bytes "abcab") (Step.TextIndex s)
                       = get (bytes "abd") (Step.PatternIndex s)))
         (KMPResult.Steps r).
Proof.
  apply (searchKMP_match_flag_truthful "abcab" "abd" 16);
    [discriminate|discriminate|vm_compute; lia].
Defined.

(** X8: in an iteration where the bytes differ and [j] is 0, one step is
    emitted (no match, no shift, highlight [i], failure value 0, the
    unchanged snapshot); [i] advances by one, [j] stays 0, and neither the
    snapshot nor the positions change. *)
Theorem skip_iteration text pattern (fuel : nat) failure st :
  pattern ≠ EmptyString → buildFailureFunction fuel pattern = Done failure →
  reachable (bytes text) (bytes pattern) failure st →
  i_ st < len (bytes text) →
  get (bytes text) (i_ st) ≠ get (bytes pattern) (j_ st) →
  j_ st = 0 →
  ∃ st' s,
    scan_iteration (bytes text) (bytes pattern) failure st = Done st' ∧
    steps_ st' = steps_ st ++ [s] ∧
    Step.TextIndex s = i_ st ∧ Step.PatternIndex s = 0 ∧
    Step.Match s = false ∧ Step.Shift s = false ∧
    Step.HighlightPrefixIndex s = i_ st ∧ Step.FailureValue s = 0 ∧
    Step.PrefixFunction s = maxPrefix_ st ∧
    Step.Comparisons s = comparisons_ st + 1 ∧
    i_ st' = i_ st + 1 ∧ j_ st' = 0 ∧
    comparisons_ st' = comparisons_ st + 1 ∧
    maxPrefix_ st' = maxPrefix_ st ∧ positions_ st' = positions_ st.
Proof.
  intros Hp Hbuild Hreach Hi Hne Hj0.
  pose proof (len_bytes_pos _ Hp) as Hm.
  pose proof (buildFailureFunction_Done_ok _ _ _ Hp Hbuild) as Hok.
  pose proof (reachable_inv _ _ _ Hm Hok _ Hreach) as Hinv.
  destruct st as [i j c mp positions steps].
  destruct Hinv as [Hj Hij _ Hmp _ _ _ _];
    cbn [i_ j_ comparisons_ maxPrefix_ positions_ steps_] in *. subst j.
  destruct (get_in_range (bytes text) i) as [x Hx]; [lia|].
  destruct (get_in_range (bytes pattern) 0) as [y Hy]; [lia|].
  destruct (scan_mismatch_skip (bytes text) (bytes pattern) failure i 0 c mp
              positions steps Hmp x y) as (status & ->); [done|done|congruence|done|].
  do 2 eexists. split; [done|]. simpl. done.
Qed.

Lemma skip_iteration_witness :
  ∃ st' s,
    scan_iteration (bytes "ba") (bytes "a") [0] (scan_init 2) = Done st' ∧
    steps_ st' = steps_ (scan_init 2) ++ [s] ∧
    Step.TextIndex s = i_ (scan_init 2) ∧ Step.PatternIndex s = 0 ∧
    Step.Match s = false ∧ Step.Shift s = false ∧
    Step.HighlightPrefixIndex s = i_ (scan_init 2) ∧ Step.FailureValue s = 0 ∧
    Step.PrefixFunction s = maxPrefix_ (scan_init 2) ∧
    Step.Comparisons s = comparisons_ (scan_init 2) + 1 ∧
    i_ st' = i_ (scan_init 2) + 1 ∧ j_ st' = 0 ∧
    comparisons_ st' = comparisons_ (scan_init 2) + 1 ∧
    maxPrefix_ st' = maxPrefix_ (scan_init 2) ∧
    positions_ st' = positions_ (scan_init 2).
Proof.
  apply (skip_iteration "ba" "a" 1 [0] (scan_init 2));
    [discriminate|reflexivity|apply (reach_init (bytes "ba"))
    |reflexivity|vm_compute; discriminate|reflexivity].
Defined.

(** X9: in an iteration where the bytes match and the pattern is not yet
    complete, the snapshot entry at [i] is 0 beforehand, so the test
    [j+1 > maxPrefix[i]] succeeds and the entry becomes [j + 1]; one step is
    emitted, carrying the updated snapshot, and both cursors advance. *)
Theorem partial_match_iteration text pattern (fuel : nat) failure st :
  pattern ≠ EmptyString → buildFailureFunction fuel pattern = Done failure →
  reachable (bytes text) (bytes pattern) failure st →
  i_ st < len (bytes text) →
  get (bytes text) (i_ st) = get (bytes pattern) (j_ st) →
  j_ st + 1 ≠ len (bytes pattern) →
  ∃ st' s,
    scan_iteration (bytes text) (bytes pattern) failure st = Done st' ∧
    get (maxPrefix_ st) (i_ st) = Some 0 ∧
    maxPrefix_ st' = <[Z.to_nat (i_ st) := j_ st + 1]> (maxPrefix_ st) ∧
    steps_ st' = steps_ st ++ [s] ∧
    Step.TextIndex s = i_ st ∧ Step.PatternIndex s = j_ st ∧
    Step.Match s = true ∧ Step.Shift s = false ∧
    Step.HighlightPrefixIndex s = i_ st ∧ Step.FailureValue s = 0 ∧
    Step.PrefixFunction s = maxPrefix_ st' ∧
    Step.Comparisons s = comparisons_ st + 1 ∧
    i_ st' = i_ st + 1 ∧ j_ st' = j_ st + 1 ∧
    comparisons_ st' = comparisons_ st + 1 ∧
    positions_ st' = positions_ st.
Proof.
  intros Hp Hbuild Hreach Hi Heq Hmore.
  pose proof (len_bytes_pos _ Hp) as Hm.
  pose proof (buildFailureFunction_Done_ok _ _ _ Hp Hbuild) as Hok.
  pose proof (reachable_inv _ _ _ Hm Hok _ Hreach) as Hinv.
  pose proof (reachable_trace_inv _ _ _ Hm Hok _ Hreach) as Htr.
  destruct st as [i j c mp positions steps].
  destruct Hinv as [Hj Hij _ Hmp _ _ _ _].
  pose proof (tr_unvisited _ _ _ _ Htr) as Hunv.
  cbn [i_ j_ comparisons_ maxPrefix_ positions_ steps_] in *.
  destruct (get_in_range (bytes text) i) as [x Hx]; [lia|].
  destruct (scan_match_more (bytes text) (bytes pattern) failure i j c mp
              positions steps Hmp x) as (status & ->); [congruence..|done|].
  pose proof (Hunv i ltac:(lia)) as Hzero.
  rewrite (grown_unvisited mp i j Hzero) by lia.
  do 2 eexists. split; [done|]. simpl. done.
Qed.

Lemma partial_match_iteration_witness :
  ∃ st' s,
    scan_iteration (bytes "ab") (bytes "aa") [0; 1] (scan_init 2) = Done st' ∧
    get (maxPrefix_ (scan_init 2)) (i_ (scan_init 2)) = Some 0 ∧
    maxPrefix_ st' =
      <[Z.to_nat (i_ (scan_init 2)) := j_ (scan_init 2) + 1]> (maxPrefix_ (scan_init 2)) ∧
    steps_ st' = steps_ (scan_init 2) ++ [s] ∧
    Step.TextIndex s = i_ (scan_init 2) ∧ Step.PatternIndex s = j_ (scan_init 2) ∧
    Step.Match s = true ∧ Step.Shift s = false ∧
    Step.HighlightPrefixIndex s = i_ (scan_init 2) ∧ Step.FailureValue s = 0 ∧
    Step.PrefixFunction s = maxPrefix_ st' ∧
    Step.Comparisons s = comparisons_ (scan_init 2) + 1 ∧
    i_ st' = i_ (scan_init 2) + 1 ∧ j_ st' = j_ (scan_init 2) + 1 ∧
    comparisons_ st' = comparisons_ (scan_init 2) + 1 ∧
    positions_ st' = positions_ (scan_init 2).
Proof.
  apply (partial_match_iteration "ab" "aa" 2 [0; 1] (scan_init 2));
    [discriminate|reflexivity|apply (reach_init (bytes "ab"))
    |reflexivity|reflexivity|vm_compute; discriminate].
Defined.

(** X10: buildFailureFunction panics exactly on the empty pattern (the
    assignment [failure[0] = 0] is out of range); this is why searchKMP
    checks the pattern first. *)
Theorem buildFailureFunction_panics_iff_empty pattern (fuel : nat) :
  buildFailureFunction fuel pattern = Panic ↔ pattern = EmptyString.
Proof.
  split.
  - intros Hpanic. destruct (decide (pattern = EmptyString)) as [|Hp]; [done|].
    set (big := (fuel + length (bytes pattern))%nat).
    destruct (buildFailureFunction_run pattern big Hp) as (failure & Hbig & _).
    { unfold big, len. lia. }
    destruct (failure_table_mono (bytes pattern) fuel big) as [H|H];
      [unfold big; lia|..]; unfold buildFailureFunction in *; congruence.
  - intros ->. reflexivity.
Qed.

(** X11: the table grows by at most one from a position to the next:
    [failure[i+1] <= failure[i] + 1]. *)
Theorem buildFailureFunction_slow_growth pattern (fuel : nat) :
  pattern ≠ EmptyString → len (bytes pattern) ≤ Z.of_nat fuel →
  ∃ failure, buildFailureFunction fuel pattern = Done failure ∧
    ∀ i f f', get failure i = Some f → get failure (i + 1) = Some f' →
              f' ≤ f + 1.
Proof.
  intros Hp Hfuel.
  destruct (buildFailureFunction_run pattern fuel Hp Hfuel) as (failure & -> & Hok).
  exists failure. split; [done|]. intros i f f' Hf Hf'.
  pose proof (get_Some _ _ _ Hf) as Hi. pose proof (get_Some _ _ _ Hf') as Hi'.
  destruct Hok as [Hlen Hall]. rewrite Hlen in Hi, Hi'.
  destruct (Hall i) as (g & Hg & (Hgr & _ & Hmax)); [lia|].
  destruct (Hall (i + 1)) as (g' & Hg' & (Hgr' & Hb' & _)); [lia|].
  assert (g = f) as -> by congruence. assert (g' = f') as -> by congruence.
  destruct (decide (f' ≤ f + 1)) as [|Hbig]; [done|].
  replace (i + 1 + 1) with ((i + 1) + 1) in Hb' by lia.
  replace f' with ((f' - 1) + 1) in Hb' by lia.
  apply ends_with_restrict in Hb' as [Hb' _]; [|lia].
  destruct (Hmax (f' - 1)); [lia|done].
Qed.

Lemma buildFailureFunction_slow_growth_witness :
  ∃ failure, buildFailureFunction 9 "ABABCABAB" = Done failure ∧
    ∀ i f f', get failure i = Some f → get failure (i + 1) = Some f' →
              f' ≤ f + 1.
Proof.
  apply (buildFailureFunction_slow_growth "ABABCABAB" 9);
    [discriminate|vm_compute; discriminate].
Defined.

(** X12: when the pattern is longer than the text the scan still runs to
    the end and reports no position, [Found = false] and no error. *)
Theorem searchKMP_pattern_longer text pattern (fuel : nat) :
  text ≠ EmptyString → len (bytes text) < len (bytes pattern) →
  (fuel_bound text pattern ≤ fuel)%nat →
  ∃ r, searchKMP fuel text pattern = Done r ∧
       KMPResult.Positions r = [] ∧ KMPResult.Found r = false ∧
       KMPResult.Error r = EmptyString.
Proof.
  intros Ht Hlen Hfuel.
  assert (pattern ≠ EmptyString) as Hp.
  { intros ->. pose proof (len_nonneg (bytes text)). unfold len in Hlen. simpl in Hlen. lia. }
  destruct (searchKMP_trace text pattern fuel Ht Hp Hfuel)
    as (failure & st & _ & _ & _ & Hpos & ->).
  eexists. split; [done|]. cbn [KMPResult.Positions KMPResult.Found KMPResult.Error].
  rewrite Hpos. unfold brute_force. rewrite seqZ_nil by lia. done.
Qed.

Lemma searchKMP_pattern_longer_witness :
  ∃ r, searchKMP 8 "ab" "abc" = Done r ∧
       KMPResult.Positions r = [] ∧ KMPResult.Found r = false ∧
       KMPResult.Error r = EmptyString.
Proof.
  apply (searchKMP_pattern_longer "ab" "abc" 8);
    [discriminate|reflexivity|vm_compute; lia].
Defined.

(** X13: the first reported position is 0 exactly when the text starts with
    the pattern. *)
Theorem searchKMP_first_position_zero text pattern (fuel : nat) :
  text ≠ EmptyString → pattern ≠ EmptyString →
  (fuel_bound text pattern ≤ fuel)%nat →
  ∃ r, searchKMP fuel text pattern = Done r ∧
       (head (KMPResult.Positions r) = Some 0 ↔
        take (length (bytes pattern)) (bytes text) = bytes pattern).
Proof.
  intros Ht Hp Hfuel. pose proof (len_bytes_pos _ Hp) as Hm.
  destruct (searchKMP_trace text pattern fuel Ht Hp Hfuel)
    as (failure & st & _ & _ & _ & Hpos & ->).
  eexists. split; [done|]. cbn [KMPResult.Positions]. rewrite Hpos.
  assert (occurs (bytes text) (bytes pattern) 0 ↔
          take (length (bytes pattern)) (bytes text) = bytes pattern) as Hocc.
  { unfold occurs. simpl. split; [by intros [_ ?]|by split]. }
  rewrite <- Hocc. split.
  - intros Hhead. apply elem_of_brute_force; [done|].
    destruct (brute_force _ _) as [|s l]; [done|]. injection Hhead as ->. by left.
  - intros H0. pose proof H0 as Hfit.
    apply occurs_ends_with in Hfit as [_ (_ & Hfit & _)]; [|done].
    unfold brute_force. rewrite seqZ_cons by lia.
    by rewrite filter_cons_True.
Qed.

Lemma searchKMP_first_position_zero_witness :
  ∃ r, searchKMP 11 "aaaa" "aa" = Done r ∧
       (head (KMPResult.Positions r) = Some 0 ↔
        take (length (bytes "aa")) (bytes "aaaa") = bytes "aa").
Proof.
  apply (searchKMP_first_position_zero "aaaa" "aa" 11);
    [discriminate|discriminate|vm_compute; lia].
Defined.

(** ** The heap program follows the value program *)

Lemma run_bind {A B} (c : Heaped A) (k : A → Heaped B) h a h' :
  c h = Done (a, h') → (c ≫= k) h = k a h'.
Proof. intros H. unfold mbind, Heaped_bind. by rewrite H. Qed.

Lemma run_lift {A} (c : outcome A) (a : A) h : c = Done a → lift c h = Done (a, h).
Proof. by intros ->. Qed.

Lemma run_load (h : gmap nat (list Z)) s l i v :
  h !! s = Some l → index l i = Done v → load s i h = Done (v, h).
Proof. intros Hs Hi. unfold load. by rewrite Hs, Hi. Qed.

Lemma run_store (h : gmap nat (list Z)) s l l' i v :
  h !! s = Some l → assign l i v = Done l' →
  store s i v h = Done (tt, <[s := l']> h).
Proof. intros Hs Hi. unfold store. by rewrite Hs, Hi. Qed.

Lemma run_copy (h : gmap nat (list Z)) dst src ld ls :
  h !! dst = Some ld → h !! src = Some ls →
  copy_slice dst src h = Done (tt, <[dst := copy ld ls]> h).
Proof. intros Hd Hs. unfold copy_slice. by rewrite Hd, Hs. Qed.

Lemma fresh_lookup (h : gmap nat (list Z)) : h !! fresh (dom h) = None.
Proof. apply not_elem_of_dom. apply is_fresh. Qed.

Lemma index_Done_inv {A} (l : list A) i (c : outcome A) :
  c = index l i → ∀ x, c = Done x → index l i = Done x.
Proof. by intros ->. Qed.

Lemma fallback_heap_run p failure af (h : gmap nat (list Z)) i :
  h !! af = Some failure →
  ∀ (fl : nat) j j', fallback fl p failure i j = Done j' →
                     fallback_heap fl p af i j h = Done (j', h).
Proof.
  intros Haf. induction fl as [|fl IH]; intros j j' Hrun; [done|].
  cbn [fallback fallback_heap] in *. destruct (j >? 0); [|by injection Hrun as ->].
  destruct (index p i) as [x| |] eqn:Hx; [|done|done].
  destruct (index p j) as [y| |] eqn:Hy; [|done|done].
  rewrite !bind_Done in Hrun.
  rewrite (run_bind _ _ _ _ _ (run_lift _ _ h eq_refl)).
  rewrite (run_bind _ _ _ _ _ (run_lift _ _ h eq_refl)).
  destruct (negb (Ascii.eqb x y)); [|by injection Hrun as ->].
  destruct (index failure (j - 1)) as [f| |] eqn:Hf; [|done|done].
  rewrite bind_Done in Hrun.
  rewrite (run_bind _ _ _ _ _ (run_load h af failure _ _ Haf Hf)). by apply IH.
Qed.

Lemma failure_body_heap_run (fuel : nat) p failure af (h : gmap nat (list Z)) i j j' failure' :
  h !! af = Some failure →
  failure_body fuel p i (j, failure) = Done (j', failure') →
  failure_body_heap fuel p af i j h = Done (j', <[af := failure']> h).
Proof.
  intros Haf Hrun. unfold failure_body, failure_body_heap in *.
  destruct (index p i) as [x| |] eqn:Hx; [|done|done].
  destruct (index p j) as [y| |] eqn:Hy; [|done|done].
  rewrite !bind_Done in Hrun.
  rewrite (run_bind _ _ _ _ _ (run_lift _ _ h eq_refl)).
  rewrite (run_bind _ _ _ _ _ (run_lift _ _ h eq_refl)).
  destruct (Ascii.eqb x y).
  - destruct (assign failure i (j + 1)) as [f1| |] eqn:Hf; [|done|done].
    rewrite bind_Done in Hrun. injection Hrun as <- <-.
    by rewrite (run_bind _ _ _ _ _ (run_store h af failure _ _ _ Haf Hf)).
  - destruct (fallback fuel p failure i j) as [j1| |] eqn:Hfb; [|done|done].
    rewrite bind_Done in Hrun.
    rewrite (run_bind _ _ _ _ _ (fallback_heap_run p failure af h i Haf _ _ _ Hfb)).
    rewrite bind_Done in Hrun.
    destruct (index p j1) as [y1| |] eqn:Hy1; [|done|done].
    rewrite bind_Done in Hrun.
    rewrite (run_bind _ _ _ _ _ (run_lift _ _ h eq_refl)).
    rewrite (run_bind _ _ _ _ _ (run_lift _ _ h eq_refl)).
    destruct (assign failure i _) as [f1| |] eqn:Hf; [|done|done].
    rewrite bind_Done in Hrun. injection Hrun as <- <-.
    by rewrite (run_bind _ _ _ _ _ (run_store h af failure _ _ _ Haf Hf)).
Qed.

Lemma failure_loop_heap_run (fuel : nat) p af :
  ∀ ks (h : gmap nat (list Z)) failure j j' failure',
    h !! af = Some failure →
    for_range ks (failure_body fuel p) (j, failure) = Done (j', failure') →
    for_range_heap ks (failure_body_heap fuel p af) j h
      = Done (j', <[af := failure']> h).
Proof.
  induction ks as [|k ks IH]; intros h failure j j' failure' Haf Hrun.
  - simpl in *. injection Hrun as <- <-. by rewrite insert_id.
  - cbn [for_range for_range_heap] in *.
    destruct (failure_body fuel p k (j, failure)) as [[j1 f1]| |] eqn:Hb; [|done|done].
    rewrite bind_Done in Hrun.
    rewrite (run_bind _ _ _ _ _ (failure_body_heap_run _ _ _ _ h _ _ _ _ Haf Hb)).
    rewrite (IH _ f1 j1 j' failure'); [|by rewrite lookup_insert_eq|done].
    by rewrite insert_insert_eq.
Qed.

Lemma failure_table_heap_run (fuel : nat) p (h : gmap nat (list Z)) failure :
  failure_table fuel p = Done failure →
  failure_table_heap fuel p h
    = Done (fresh (dom h), <[fresh (dom h) := failure]> h).
Proof.
  unfold failure_table, failure_table_heap. intros Hrun.
  set (af := fresh (dom h)).
  rewrite (run_bind _ _ h af (<[af := make (len p)]> h)) by done.
  destruct (assign (make (len p)) 0 0) as [f0| |] eqn:Hf; [|done|done].
  rewrite bind_Done in Hrun.
  rewrite (run_bind _ _ _ _ _ (run_store _ af _ _ _ _ (lookup_insert_eq _ _ _) Hf)).
  rewrite insert_insert_eq.
  destruct (for_range _ _ (0, f0)) as [[j' f']| |] eqn:Hl; [|done|done].
  rewrite bind_Done in Hrun. injection Hrun as <-.
  rewrite (run_bind _ _ _ _ _
             (failure_loop_heap_run _ _ af _ _ _ _ _ _ (lookup_insert_eq _ _ _) Hl)).
  by rewrite insert_insert_eq.
Qed.

Lemma view_step_allocated (h : gmap nat (list Z)) hs s :
  view_step h hs = Some s → is_Some (h !! StepRef.PrefixFunction hs).
Proof. unfold view_step. destruct (h !! _); [eauto|done]. Qed.

Lemma view_step_frame (h h' : gmap nat (list Z)) hs :
  h' !! StepRef.PrefixFunction hs = h !! StepRef.PrefixFunction hs →
  view_step h' hs = view_step h hs.
Proof. unfold view_step. by intros ->. Qed.

Lemma Forall2_allocated (h : gmap nat (list Z)) hsteps steps :
  Forall2 (λ hs s, view_step h hs = Some s) hsteps steps →
  ∀ a, a ∈ StepRef.PrefixFunction <$> hsteps → is_Some (h !! a).
Proof.
  induction 1 as [|hs s hsteps steps Hs _ IH]; intros a Ha.
  - by apply elem_of_nil in Ha.
  - rewrite fmap_cons in Ha. apply elem_of_cons in Ha as [->|Ha]; [|by apply IH].
    by eapply view_step_allocated.
Qed.

Lemma Forall2_view_frame (h h' : gmap nat (list Z)) hsteps steps :
  Forall2 (λ hs s, view_step h hs = Some s) hsteps steps →
  (∀ a, a ∈ StepRef.PrefixFunction <$> hsteps → h' !! a = h !! a) →
  Forall2 (λ hs s, view_step h' hs = Some s) hsteps steps.
Proof.
  induction 1 as [|hs s hsteps steps Hs _ IH]; intros Hsame; [constructor|].
  constructor.
  - rewrite (view_step_frame h h'); [done|]. apply Hsame. rewrite fmap_cons. by left.
  - apply IH. intros a Ha. apply Hsame. rewrite fmap_cons. by right.
Qed.

Lemma scan_sim_allocated h0 h af failure hst st :
  scan_sim h0 h af failure hst st →
  ∀ a, a ∈ af :: ref_maxPrefix hst :: (StepRef.PrefixFunction <$> ref_steps hst) →
       is_Some (h !! a).
Proof.
  intros Hsim a Ha. apply elem_of_cons in Ha as [->|Ha].
  { rewrite (sim_failure _ _ _ _ _ _ Hsim). eauto. }
  apply elem_of_cons in Ha as [->|Ha].
  { rewrite (sim_maxPrefix _ _ _ _ _ _ Hsim). eauto. }
  eapply Forall2_allocated; [apply (sim_steps _ _ _ _ _ _ Hsim)|done].
Qed.

Lemma scan_sim_step h0 h h' af failure i j c am mp pos hsteps steps
    i' j' c' mp' pos' hnew new :
  scan_sim h0 h af failure (mkScanRef i j c am pos hsteps) (mkScan i j c mp pos steps) →
  (∀ x, x ≠ am → x ∉ (StepRef.PrefixFunction <$> hnew) → h' !! x = h !! x) →
  h' !! am = Some mp' →
  Forall (λ a, h !! a = None) (StepRef.PrefixFunction <$> hnew) →
  NoDup (StepRef.PrefixFunction <$> hnew) →
  Forall2 (λ hs s, view_step h' hs = Some s) hnew new →
  scan_sim h0 h' af failure
    (mkScanRef i' j' c' am pos' (hsteps ++ hnew))
    (mkScan i' j' c' mp' pos' (steps ++ new)).
Proof.
  intros Hsim Hsame Ham Hnone Hnd Hnew.
  pose proof (scan_sim_allocated _ _ _ _ _ _ Hsim) as Halloc.
  destruct Hsim as [_ _ _ _ Hf Hm Hsteps Hnodup Hfresh Hframe];
    cbn [ref_i ref_j ref_comparisons ref_maxPrefix ref_positions ref_steps
         i_ j_ comparisons_ maxPrefix_ positions_ steps_] in *.
  rewrite Forall_forall in Hnone.
  assert (∀ x, x ∈ af :: am :: (StepRef.PrefixFunction <$> hsteps) →
               x ∉ StepRef.PrefixFunction <$> hnew) as Hsep.
  { intros x Hx Hx'. destruct (Halloc x Hx) as [l Hl]. rewrite (Hnone x Hx') in Hl. done. }
  assert (∀ x, x ∈ af :: (StepRef.PrefixFunction <$> hsteps) → x ≠ am) as Hneq.
  { intros x Hx ->. apply NoDup_cons in Hnodup as [Haf Hnodup].
    apply NoDup_cons in Hnodup as [Hamn _].
    apply elem_of_cons in Hx as [->|Hx]; [|done]. apply Haf. by left. }
  split; cbn [ref_i ref_j ref_comparisons ref_maxPrefix ref_positions ref_steps
              i_ j_ comparisons_ maxPrefix_ positions_ steps_]; try done.
  - rewrite Hsame; [done|apply Hneq; by left|apply Hsep; by left].
  - apply Forall2_app; [|done]. eapply Forall2_view_frame; [exact Hsteps|].
    intros a Ha. apply Hsame; [apply Hneq; by right|apply Hsep; by do 2 right].
  - rewrite fmap_app.
    change (NoDup ((af :: am :: (StepRef.PrefixFunction <$> hsteps))
                     ++ (StepRef.PrefixFunction <$> hnew))).
    apply NoDup_app. split; [done|]. split; [done|done].
  - intros a Ha. rewrite fmap_app in Ha.
    change (a ∈ (af :: am :: (StepRef.PrefixFunction <$> hsteps))
                  ++ (StepRef.PrefixFunction <$> hnew)) in Ha.
    apply elem_of_app in Ha as [Ha|Ha]; [by apply Hfresh|].
    destruct (h0 !! a) as [l|] eqn:E; [|done].
    apply Hframe in E. rewrite (Hnone a Ha) in E. done.
  - intros a l Ha. rewrite Hsame; [by apply Hframe|..].
    + intros ->. rewrite Hfresh in Ha; [done|]. right. by left.
    + intros Ha'. apply Hframe in Ha. rewrite (Hnone a Ha') in Ha. done.
Qed.

Lemma relabel_body_heap_run n i m am (h : gmap nat (list Z)) k mp mp1 :
  h !! am = Some mp → relabel_body n i m k mp = Done mp1 →
  relabel_body_heap n i m am k tt h = Done (tt, <[am := mp1]> h).
Proof.
  intros Ham Hb. unfold relabel_body in Hb. unfold relabel_body_heap.
  destruct ((k >=? 0) && (k <? n)).
  - by apply (run_store h am mp).
  - injection Hb as <-. by rewrite insert_id.
Qed.

Lemma relabel_heap_run n i m am :
  ∀ ks (h : gmap nat (list Z)) mp mp',
    h !! am = Some mp →
    for_range ks (relabel_body n i m) mp = Done mp' →
    for_range_heap ks (relabel_body_heap n i m am) tt h
      = Done (tt, <[am := mp']> h).
Proof.
  induction ks as [|k ks IH]; intros h mp mp' Ham Hrun.
  - simpl in *. injection Hrun as <-. by rewrite insert_id.
  - cbn [for_range for_range_heap] in *.
    destruct (relabel_body n i m k mp) as [mp1| |] eqn:Hb; [|done|done].
    rewrite bind_Done in Hrun.
    rewrite (run_bind _ _ _ _ _ (relabel_body_heap_run _ _ _ _ h _ _ _ Ham Hb)).
    rewrite (IH _ mp1 mp'); [|by rewrite lookup_insert_eq|done].
    by rewrite insert_insert_eq.
Qed.

Lemma cond_store_run (h : gmap nat (list Z)) am mp mp1 (b : bool) i v :
  h !! am = Some mp →
  (if b then assign mp i v else Done mp) = Done mp1 →
  (if b then store am i v else mret tt) h = Done (tt, <[am := mp1]> h).
Proof.
  intros Ham Hrun. destruct b.
  - by apply (run_store h am mp).
  - injection Hrun as <-. by rewrite insert_id.
Qed.

Lemma scan_iteration_heap_run t p h0 h af failure hst st st' :
  scan_sim h0 h af failure hst st →
  scan_iteration t p failure st = Done st' →
  ∃ hst' h', scan_iteration_heap t p af hst h = Done (hst', h') ∧
             scan_sim h0 h' af failure hst' st'.
Proof.
  intros Hsim Hrun.
  destruct st as [i j c mp pos steps], hst as [hi hj hc am hpos hsteps].
  pose proof (sim_i _ _ _ _ _ _ Hsim) as E1. pose proof (sim_j _ _ _ _ _ _ Hsim) as E2.
  pose proof (sim_comparisons _ _ _ _ _ _ Hsim) as E3.
  pose proof (sim_positions _ _ _ _ _ _ Hsim) as E4.
  pose proof (sim_failure _ _ _ _ _ _ Hsim) as Hf.
  pose proof (sim_maxPrefix _ _ _ _ _ _ Hsim) as Hm.
  pose proof (sim_nodup _ _ _ _ _ _ Hsim) as Hnd.
  cbn [ref_i ref_j ref_comparisons ref_maxPrefix ref_positions ref_steps
       i_ j_ comparisons_ maxPrefix_ positions_ steps_] in *. subst hi hj hc hpos.
  assert (af ≠ am) as Hafm.
  { intros ->. apply NoDup_cons in Hnd as [Hnd _]. apply Hnd. by left. }
  unfold scan_iteration in Hrun. unfold scan_iteration_heap.
  destruct (index t i) as [x| |] eqn:Hx; [|done|done].
  destruct (index p j) as [y| |] eqn:Hy; [|done|done].
  rewrite !bind_Done in Hrun.
  rewrite (run_bind _ _ _ _ _ (run_lift _ _ h eq_refl)).
  rewrite (run_bind _ _ _ _ _ (run_lift _ _ h eq_refl)).
  step_fields_in Hrun.
  set (a := fresh (dom h)).
  assert (h !! a = None) as Ha by apply fresh_lookup.
  assert (a ≠ am) as Haam by (intros E; rewrite E, Hm in Ha; done).
  assert (a ≠ af) as Haaf by (intros E; rewrite E, Hf in Ha; done).
  rewrite (run_bind _ _ h a (<[a := make (len t)]> h)) by done.
  cbv zeta. step_fields.
  rewrite (run_bind _ _ _ _ _
             (run_copy _ a am (make (len t)) mp (lookup_insert_eq _ _ _)
                (eq_trans (lookup_insert_ne _ _ _ _ Haam) Hm))).
  rewrite insert_insert_eq.
  set (h1 := <[a := copy (make (len t)) mp]> h).
  assert (h1 !! am = Some mp) as Hm1 by (unfold h1; by rewrite lookup_insert_ne).
  assert (h1 !! af = Some failure) as Hf1 by (unfold h1; by rewrite lookup_insert_ne).
  assert (h1 !! a = Some (copy (make (len t)) mp)) as Ha1
    by (unfold h1; by rewrite lookup_insert_eq).
  destruct (Ascii.eqb x y) eqn:Exy.
  - (* the bytes match *)
    destruct (index mp i) as [old| |] eqn:Hold; [|done|done].
    rewrite bind_Done in Hrun.
    destruct (if j + 1 >? old then assign mp i (j + 1) else Done mp)
      as [mp1| |] eqn:Hmp1; [|done|done].
    rewrite bind_Done in Hrun.
    destruct (index mp1 i) as [cur| |] eqn:Hcur; [|done|done].
    rewrite bind_Done in Hrun.
    destruct (assign (copy (make (len t)) mp) i cur) as [pf| |] eqn:Hpf; [|done|done].
    rewrite bind_Done in Hrun.
    rewrite (run_bind _ _ _ _ _ (run_load h1 am mp _ _ Hm1 Hold)).
    rewrite (run_bind _ _ _ _ _ (cond_store_run h1 am mp mp1 _ _ _ Hm1 Hmp1)).
    set (h2 := <[am := mp1]> h1).
    assert (h2 !! am = Some mp1) as Hm2 by (unfold h2; by rewrite lookup_insert_eq).
    assert (h2 !! a = Some (copy (make (len t)) mp)) as Ha2
      by (unfold h2; by rewrite lookup_insert_ne).
    rewrite (run_bind _ _ _ _ _ (run_load h2 am mp1 _ _ Hm2 Hcur)).
    rewrite (run_bind _ _ _ _ _ (run_store h2 a _ _ _ _ Ha2 Hpf)).
    set (h3 := <[a := pf]> h2).
    assert (h3 !! am = Some mp1) as Hm3 by (unfold h3; by rewrite lookup_insert_ne).
    assert (h3 !! a = Some pf) as Ha3 by (unfold h3; by rewrite lookup_insert_eq).
    assert (∀ z, z ≠ am → z ≠ a → h3 !! z = h !! z) as Hsame3.
    { intros z ? ?. unfold h3, h2, h1. by rewrite !lookup_insert_ne. }
    destruct (j + 1 =? len p).
    + destruct (for_range _ _ mp1) as [mp2| |] eqn:Hrel; [|done|done].
      rewrite bind_Done in Hrun.
      destruct (index failure (j + 1 - 1)) as [fv| |] eqn:Hfv; [|done|done].
      rewrite bind_Done in Hrun. injection Hrun as <-.
      rewrite (run_bind _ _ _ _ _ (relabel_heap_run _ _ _ am _ h3 _ _ Hm3 Hrel)).
      set (h4 := <[am := mp2]> h3).
      assert (h4 !! af = Some failure) as Hf4.
      { unfold h4. rewrite lookup_insert_ne by done. by rewrite Hsame3. }
      assert (h4 !! am = Some mp2) as Hm4 by (unfold h4; by rewrite lookup_insert_eq).
      rewrite (run_bind _ _ _ _ _ (run_load h4 af failure _ _ Hf4 Hfv)).
      set (b := fresh (dom h4)).
      assert (h4 !! b = None) as Hb by apply fresh_lookup.
      assert (b ≠ am) as Hbam by (intros E; rewrite E, Hm4 in Hb; done).
      assert (b ≠ a) as Hba.
      { intros E. rewrite E in Hb. unfold h4 in Hb.
        rewrite lookup_insert_ne, Ha3 in Hb; done. }
      assert (h !! b = None) as Hb0.
      { rewrite <- Hsame3 by done. unfold h4 in Hb. by rewrite lookup_insert_ne in Hb. }
      rewrite (run_bind _ _ h4 b (<[b := make (len t)]> h4)) by done.
      rewrite (run_bind _ _ _ _ _
                 (run_copy _ b am (make (len t)) mp2 (lookup_insert_eq _ _ _)
                    (eq_trans (lookup_insert_ne _ _ _ _ Hbam) Hm4))).
      rewrite insert_insert_eq. eexists _, _. split; [reflexivity|].
      rewrite <- !app_two.
      eapply scan_sim_step; [exact Hsim|..].
      * intros z Hz Hnew. rewrite !fmap_cons, fmap_nil in Hnew. simpl in Hnew.
        rewrite !not_elem_of_cons in Hnew. destruct Hnew as (? & ? & _).
        rewrite lookup_insert_ne by done. unfold h4.
        rewrite lookup_insert_ne by done. by apply Hsame3.
      * by rewrite lookup_insert_ne.
      * repeat constructor; simpl; done.
      * repeat constructor; simpl; [|apply not_elem_of_nil].
        rewrite not_elem_of_cons. split; [done|apply not_elem_of_nil].
      * repeat constructor; unfold view_step; simpl.
        -- rewrite lookup_insert_ne by done. unfold h4.
           rewrite lookup_insert_ne by done. by rewrite Ha3.
        -- by rewrite lookup_insert_eq.
    + injection Hrun as <-. eexists _, _. split; [reflexivity|].
      eapply scan_sim_step; [exact Hsim|..].
      * intros z Hz Hnew. rewrite !fmap_cons, fmap_nil in Hnew. simpl in Hnew.
        rewrite !not_elem_of_cons in Hnew. destruct Hnew as (? & _).
        by apply Hsame3.
      * done.
      * repeat constructor; simpl; done.
      * repeat constructor; simpl. apply not_elem_of_nil.
      * repeat constructor; unfold view_step; simpl. by rewrite Ha3.
  - (* the bytes differ *)
    assert (∀ z, z ≠ a → h1 !! z = h !! z) as Hsame1.
    { intros z ?. unfold h1. by rewrite lookup_insert_ne. }
    destruct (j >? 0).
    + destruct (index failure (j - 1)) as [fv| |] eqn:Hfv; [|done|done].
      rewrite bind_Done in Hrun. injection Hrun as <-.
      rewrite (run_bind _ _ _ _ _ (run_load h1 af failure _ _ Hf1 Hfv)).
      set (b := fresh (dom h1)).
      assert (h1 !! b = None) as Hb by apply fresh_lookup.
      assert (b ≠ am) as Hbam by (intros E; rewrite E, Hm1 in Hb; done).
      assert (b ≠ a) as Hba by (intros E; rewrite E, Ha1 in Hb; done).
      assert (h !! b = None) as Hb0 by (by rewrite <- Hsame1).
      rewrite (run_bind _ _ h1 b (<[b := make (len t)]> h1)) by done.
      rewrite (run_bind _ _ _ _ _
                 (run_copy _ b am (make (len t)) mp (lookup_insert_eq _ _ _)
                    (eq_trans (lookup_insert_ne _ _ _ _ Hbam) Hm1))).
      rewrite insert_insert_eq. eexists _, _. split; [reflexivity|].
      rewrite <- !app_two.
      eapply scan_sim_step; [exact Hsim|..].
      * intros z Hz Hnew. rewrite !fmap_cons, fmap_nil in Hnew. simpl in Hnew.
        rewrite !not_elem_of_cons in Hnew. destruct Hnew as (? & ? & _).
        rewrite lookup_insert_ne by done. by apply Hsame1.
      * by rewrite lookup_insert_ne.
      * repeat constructor; simpl; done.
      * repeat constructor; simpl; [|apply not_elem_of_nil].
        rewrite not_elem_of_cons. split; [done|apply not_elem_of_nil].
      * repeat constructor; unfold view_step; simpl.
        -- rewrite lookup_insert_ne by done. by rewrite Ha1.
        -- by rewrite lookup_insert_eq.
    + destruct (index p 0) as [p0| |] eqn:Hp0; [|done|done].
      rewrite bind_Done in Hrun. injection Hrun as <-.
      rewrite (run_bind _ _ _ _ _ (run_lift _ _ h1 eq_refl)).
      eexists _, _. split; [reflexivity|].
      eapply scan_sim_step; [exact Hsim|..].
      * intros z Hz Hnew. rewrite !fmap_cons, fmap_nil in Hnew. simpl in Hnew.
        rewrite !not_elem_of_cons in Hnew. destruct Hnew as (? & _).
        by apply Hsame1.
      * done.
      * repeat constructor; simpl; done.
      * repeat constructor; simpl. apply not_elem_of_nil.
      * repeat constructor; unfold view_step; simpl. by rewrite Ha1.
Qed.

Lemma scan_loop_heap_run t p h0 af failure :
  ∀ (fuel : nat) h hst st st',
    scan_sim h0 h af failure hst st →
    scan_loop fuel t p failure st = Done st' →
    ∃ hst' h', scan_loop_heap fuel t p af hst h = Done (hst', h') ∧
               scan_sim h0 h' af failure hst' st'.
Proof.
  induction fuel as [|fuel IH]; intros h hst st st' Hsim Hrun; [done|].
  cbn [scan_loop scan_loop_heap] in *.
  rewrite (sim_i _ _ _ _ _ _ Hsim).
  destruct (i_ st <? len t).
  - destruct (scan_iteration t p failure st) as [st1| |] eqn:Hit; [|done|done].
    rewrite bind_Done in Hrun.
    destruct (scan_iteration_heap_run _ _ _ _ _ _ _ _ _ Hsim Hit)
      as (hst1 & h1 & Hrun1 & Hsim1).
    rewrite (run_bind _ _ _ _ _ Hrun1). by eapply IH.
  - injection Hrun as <-. by exists hst, h.
Qed.

Lemma view_result_frame (h h' : gmap nat (list Z)) r :
  (∀ a, a ∈ slices_of r → h' !! a = h !! a) →
  view_result h' r = view_result h r.
Proof.
  intros Hsame. unfold view_result.
  assert (mapM (view_step h') (ResultRef.Steps r)
          = mapM (view_step h) (ResultRef.Steps r)) as ->.
  { assert (∀ a, a ∈ StepRef.PrefixFunction <$> ResultRef.Steps r →
                 h' !! a = h !! a) as Hs.
    { intros a Ha. apply Hsame. unfold slices_of. apply elem_of_app. by right. }
    induction (ResultRef.Steps r) as [|s l IH]; [done|]. simpl.
    rewrite (view_step_frame h h'); [|apply Hs; rewrite fmap_cons; by left].
    rewrite IH; [done|]. intros a Ha. apply Hs. rewrite fmap_cons. by right. }
  destruct (ResultRef.FailureFunction r) as [a|] eqn:E; [|done].
  rewrite (Hsame a); [done|]. unfold slices_of. rewrite E. simpl. by left.
Qed.

Lemma searchKMP_heap_run text pattern (fuel : nat) (h0 : gmap nat (list Z)) r :
  searchKMP fuel text pattern = Done r →
  ∃ hr h', searchKMP_heap fuel text pattern h0 = Done (hr, h') ∧
           view_result h' hr = Some r ∧
           NoDup (slices_of hr) ∧
           (∀ a, a ∈ slices_of hr → h0 !! a = None ∧ is_Some (h' !! a)) ∧
           (∀ a l, h0 !! a = Some l → h' !! a = Some l).
Proof.
  unfold searchKMP, searchKMP_heap. intros Hrun.
  destruct (String.eqb pattern "").
  { injection Hrun as <-. eexists _, h0. split; [reflexivity|].
    split; [done|]. split; [constructor|]. split; [|done].
    intros a Ha. by apply elem_of_nil in Ha. }
  destruct (String.eqb text "").
  { injection Hrun as <-. eexists _, h0. split; [reflexivity|].
    split; [done|]. split; [constructor|]. split; [|done].
    intros a Ha. by apply elem_of_nil in Ha. }
  unfold buildFailureFunction, buildFailureFunction_heap in *.
  destruct (failure_table fuel (bytes pattern)) as [failure| |] eqn:Hft; [|done|done].
  rewrite bind_Done in Hrun.
  rewrite (run_bind _ _ _ _ _ (failure_table_heap_run _ _ h0 _ Hft)).
  set (af := fresh (dom h0)). set (h1 := <[af := failure]> h0).
  assert (h0 !! af = None) as Haf0 by apply fresh_lookup.
  cbv zeta in Hrun |- *. set (n := len (bytes text)) in *. set (am := fresh (dom h1)).
  assert (h1 !! am = None) as Ham1 by apply fresh_lookup.
  assert (am ≠ af) as Hne.
  { intros E. rewrite E in Ham1. unfold h1 in Ham1. by rewrite lookup_insert_eq in Ham1. }
  assert (h0 !! am = None) as Ham0.
  { unfold h1 in Ham1. rewrite lookup_insert_ne in Ham1 by congruence. done. }
  rewrite (run_bind _ _ h1 am (<[am := make n]> h1)) by done.
  destruct (scan_loop fuel (bytes text) (bytes pattern) failure (scan_init n))
    as [st| |] eqn:Hloop; [|done|done].
  rewrite bind_Done in Hrun. injection Hrun as <-.
  assert (scan_sim h0 (<[am := make n]> h1) af failure
            (mkScanRef 0 0 0 am [] []) (scan_init n)) as Hsim0.
  { split; simpl.
    - done.
    - done.
    - done.
    - done.
    - unfold h1. rewrite lookup_insert_ne by congruence. by rewrite lookup_insert_eq.
    - by rewrite lookup_insert_eq.
    - constructor.
    - repeat constructor; [|apply not_elem_of_nil].
      rewrite not_elem_of_cons. split; [congruence|apply not_elem_of_nil].
    - intros a Ha. rewrite !elem_of_cons in Ha.
      destruct Ha as [->|[->|Ha]]; [done|done|by apply elem_of_nil in Ha].
    - intros a l Ha. unfold h1. rewrite !lookup_insert_ne; [done|..].
      + intros <-. by rewrite Haf0 in Ha.
      + intros <-. by rewrite Ham0 in Ha. }
  destruct (scan_loop_heap_run _ _ _ _ _ _ _ _ _ _ Hsim0 Hloop)
    as (hst & h' & Hrun' & Hsim).
  rewrite (run_bind _ _ _ _ _ Hrun'). eexists _, h'. split; [reflexivity|].
  pose proof (scan_sim_allocated _ _ _ _ _ _ Hsim) as Halloc.
  destruct Hsim as [E1 E2 E3 E4 Hf Hm Hsteps Hnd Hfresh Hframe]. split; [|split; [|split]].
  - unfold view_result. simpl. rewrite Hf. simpl.
    rewrite (mapM_Some_2 _ _ _ Hsteps). simpl. by rewrite E3, E4.
  - unfold slices_of. simpl. apply NoDup_cons in Hnd as [Hnaf Hnd].
    apply NoDup_cons in Hnd as [_ Hnd]. apply NoDup_cons. split; [|done].
    intros Ha. apply Hnaf. by right.
  - unfold slices_of. simpl. intros a Ha.
    assert (a ∈ af :: ref_maxPrefix hst :: (StepRef.PrefixFunction <$> ref_steps hst)) as Ha'.
    { apply elem_of_cons in Ha as [->|Ha]; [by left|by do 2 right]. }
    split; [by apply Hfresh|by apply Halloc].
  - done.
Qed.

(** C10: two invocations on the same text and pattern return the same
    result in every field, and no state is shared or leaked between them.
    On the heap: whatever the heap [h0] the first call starts in, and with
    the second call started in the heap the first one left, both results
    read back as the same value [r] (the result of the value program); the
    first result still reads as [r] after the second call; the failure
    table and the snapshots of the two results are at pairwise distinct
    addresses, all allocated by the call that returns them; and no array
    that existed before a call is changed by it. *)
Theorem searchKMP_no_shared_state text pattern (fuel1 fuel2 : nat)
    (h0 : gmap nat (list Z)) :
  (fuel_bound text pattern ≤ fuel1)%nat →
  (fuel_bound text pattern ≤ fuel2)%nat →
  ∃ r r1 h1 r2 h2,
    searchKMP fuel1 text pattern = Done r ∧
    searchKMP_heap fuel1 text pattern h0 = Done (r1, h1) ∧
    searchKMP_heap fuel2 text pattern h1 = Done (r2, h2) ∧
    view_result h1 r1 = Some r ∧
    view_result h2 r2 = Some r ∧
    view_result h2 r1 = Some r ∧
    NoDup (slices_of r1 ++ slices_of r2) ∧
    (∀ a, a ∈ slices_of r1 → h0 !! a = None) ∧
    (∀ a, a ∈ slices_of r2 → h1 !! a = None) ∧
    (∀ a l, h0 !! a = Some l → h1 !! a = Some l) ∧
    (∀ a l, h1 !! a = Some l → h2 !! a = Some l).
Proof.
  intros H1 H2.
  destruct (searchKMP_total text pattern fuel1 H1) as [r Hr1].
  assert (searchKMP fuel2 text pattern = Done r) as Hr2.
  { destruct (searchKMP_total text pattern _ (Nat.le_refl _)) as [r' Hr'].
    assert (searchKMP fuel1 text pattern = Done r') as E
      by (eapply refines_Done; [by apply searchKMP_mono|exact Hr']).
    rewrite Hr1 in E. injection E as ->.
    eapply refines_Done; [by apply searchKMP_mono|exact Hr']. }
  destruct (searchKMP_heap_run text pattern fuel1 h0 r Hr1)
    as (r1 & h1 & Hrun1 & Hv1 & Hnd1 & Hfr1 & Hframe1).
  destruct (searchKMP_heap_run text pattern fuel2 h1 r Hr2)
    as (r2 & h2 & Hrun2 & Hv2 & Hnd2 & Hfr2 & Hframe2).
  exists r, r1, h1, r2, h2. do 5 (split; [done|]). split; [|split; [|split]].
  - rewrite <- Hv1. apply view_result_frame. intros a Ha.
    destruct (Hfr1 a Ha) as [_ [l Hl]]. rewrite Hl. by apply Hframe2.
  - apply NoDup_app. split; [done|]. split; [|done].
    intros a Ha1 Ha2. destruct (Hfr1 a Ha1) as [_ [l Hl]].
    destruct (Hfr2 a Ha2) as [Hnone _]. by rewrite Hl in Hnone.
  - intros a Ha. by destruct (Hfr1 a Ha).
  - split; [|done]. intros a Ha. by destruct (Hfr2 a Ha).
Qed.

Lemma searchKMP_no_shared_state_witness :
  ∃ r r1 h1 r2 h2,
    searchKMP 11 "aaaa" "aa" = Done r ∧
    searchKMP_heap 11 "aaaa" "aa" {[7%nat := [1; 2; 3]]} = Done (r1, h1) ∧
    searchKMP_heap 40 "aaaa" "aa" h1 = Done (r2, h2) ∧
    view_result h1 r1 = Some r ∧
    view_result h2 r2 = Some r ∧
    view_result h2 r1 = Some r ∧
    NoDup (slices_of r1 ++ slices_of r2) ∧
    (∀ a, a ∈ slices_of r1 → ({[7%nat := [1; 2; 3]]} : gmap nat (list Z)) !! a = None) ∧
    (∀ a, a ∈ slices_of r2 → h1 !! a = None) ∧
    (∀ a l, ({[7%nat := [1; 2; 3]]} : gmap nat (list Z)) !! a = Some l →
            h1 !! a = Some l) ∧
    (∀ a l, h1 !! a = Some l → h2 !! a = Some l).
Proof.
  apply (searchKMP_no_shared_state "aaaa" "aa" 11 40 {[7%nat := [1; 2; 3]]});
    vm_compute; lia.
Defined.
